(** * Viewport-adaptive resampling: a shallow embedding and its properties

    The development follows the Python sources of the repository:
    - [misc.py]                                   ([cmp_size]),
    - [projections/coordinate_conversion.py],
    - [projections/EquirectangularProjection.py],
    - [projections/CubemapProjection.py],
    - [var/ViewportAdaptiveResampler.py]          ([_rotation_matrix]),
    - [fsmr/fsmr.py] and [fsmr/resample_fsmr.py].

    Floating-point numbers are modelled by the real numbers of the Standard
    Library, NumPy arrays by lists (with their shape where the code reads
    it), Python exceptions by an error monad and the caller-visible NumPy
    buffers by a store of arrays. *)

From Stdlib Require Import ZArith Reals Lra Lia Zfloor RNsatz.
From stdpp Require Import base decidable option list gmap strings.

#[local] Open Scope Z_scope.

(** ** Decidable comparisons on the reals

    NumPy comparisons produce booleans; on the reals they are decided by
    the Standard Library's [Rlt_dec], [Rle_dec] and [Req_dec_T]. *)

#[global] Instance Rlt_decision : RelDecision Rlt := Rlt_dec.
#[global] Instance Rle_decision : RelDecision Rle := Rle_dec.
#[global] Instance Rgt_decision : RelDecision Rgt := Rgt_dec.
#[global] Instance Rge_decision : RelDecision Rge := Rge_dec.
#[global] Instance Req_decision : EqDecision R := Req_dec_T.

(** ** Python exceptions *)

Inductive exn : Type :=
  | ZeroDivisionError
  | ValueError (msg : string)
  | IndexError (msg : string)
  | StopIteration
  | Exception (msg : string).

Inductive result (A : Type) : Type :=
  | Ok (a : A)
  | Raise (e : exn).

Arguments Ok {A} a.
Arguments Raise {A} e.

#[global] Instance result_ret : MRet result := fun A a => Ok a.

#[global] Instance result_bind : MBind result := fun A B k m =>
  match m with
  | Ok a => k a
  | Raise e => Raise e
  end.

#[global] Instance result_fmap : FMap result := fun A B f m =>
  match m with
  | Ok a => Ok (f a)
  | Raise e => Raise e
  end.

Definition is_ok {A : Type} (m : result A) : bool :=
  match m with Ok _ => true | Raise _ => false end.

(** ** misc.py *)

Module Misc.

(** [cmp_size]: [v = np.floor(np.sqrt(erp_size[0] * erp_size[1] / 6))] is a
    float holding an integer; it is kept as that integer.  [/] is Python's
    true division, [%] on a float and a positive int is the mathematical
    remainder, and [int(..)] of an integral float is exact. *)
Definition cmp_size (erp_size : Z * Z) (block_size : Z) : Z * Z :=
  let v := Zfloor (sqrt (IZR (erp_size.1 * erp_size.2) / 6)) in
  let block_residual := v mod block_size in
  let cubeface_res :=
    if bool_decide (IZR block_residual < IZR block_size / 2)%R
    then v + (block_size - block_residual)
    else v - block_residual in
  (cubeface_res * 2, cubeface_res * 3).

(** The same function on integers only, which evaluates. *)
Definition cmp_size_Z (erp_size : Z * Z) (block_size : Z) : Z * Z :=
  let v := Z.sqrt (erp_size.1 * erp_size.2 / 6) in
  let block_residual := v mod block_size in
  let cubeface_res :=
    if 2 * block_residual <? block_size
    then v + (block_size - block_residual)
    else v - block_residual in
  (cubeface_res * 2, cubeface_res * 3).

(** The specification's words: [F] is [v] "rounded to a multiple of [B]",
    up when [v mod B < B/2] and down otherwise.  Rounding up is to the next
    multiple strictly above [B * (v / B)]. *)
Definition round_to_multiple (v B : Z) : Z :=
  if 2 * (v mod B) <? B then B * (v / B + 1) else B * (v / B).

End Misc.

(** ** projections/coordinate_conversion.py *)

Module coordinate_conversion.

#[local] Open Scope R_scope.

(** NumPy's [np.arctan2(y, x)] on the reals: the angle in (-pi, pi] of the
    point [(x, y)], and [0] at the origin. *)
Definition arctan2 (y x : R) : R :=
  if decide (0 < x) then atan (y / x)
  else if decide (x < 0) then
    if decide (0 <= y) then atan (y / x) + PI else atan (y / x) - PI
  else if decide (0 < y) then PI / 2
  else if decide (y < 0) then - (PI / 2)
  else 0.

Definition cartesian_to_polar (y x : R) : R * R :=
  let r := sqrt (Rsqr y + Rsqr x) in
  let phi := arctan2 y x in
  (r, phi).

Definition polar_to_cartesian (r phi : R) : R * R :=
  let y := r * sin phi in
  let x := r * cos phi in
  (y, x).

Definition cartesian_to_spherical (x y z : R) : R * R * R :=
  let r := sqrt (Rsqr x + Rsqr y + Rsqr z) in
  let theta := acos (z / r) in
  let phi := arctan2 y x in
  (r, theta, phi).

Definition spherical_to_cartesian (r theta phi : R) : R * R * R :=
  let x := r * sin theta * cos phi in
  let y := r * sin theta * sin phi in
  let z := r * cos theta in
  (x, y, z).

End coordinate_conversion.

(** ** projections/EquirectangularProjection.py *)

Module EquirectangularProjection.

Import coordinate_conversion.
#[local] Open Scope R_scope.

Record t : Type := mk { _size : Z * Z }.

Definition to_sphere (self : t) (y x : R) : R * R * R :=
  let phi_s := - ((x + 0.5) / IZR (_size self).2) * 2 * PI in
  let theta_s := ((y + 0.5) / IZR (_size self).1) * PI in
  spherical_to_cartesian 1 theta_s phi_s.

Definition from_sphere (self : t) (xs ys zs : R) : R * R :=
  let '(_, theta_s, phi_s) := cartesian_to_spherical xs ys zs in
  let phi_s := if decide (phi_s > 0) then phi_s - 2 * PI else phi_s in
  let y := (theta_s / PI) * IZR (_size self).1 - 0.5 in
  let x := - (phi_s / (2 * PI)) * IZR (_size self).2 - 0.5 in
  (y, x).

End EquirectangularProjection.

(** ** NumPy arrays

    A one-dimensional array is a list.  A float that may be NaN is an
    [option R], [None] standing for NaN: arithmetic on it is [fmap], so NaN
    propagates. *)

Definition np_float : Type := option R.
Definition nan : np_float := None.

(** An array of any number of dimensions: its shape and its entries in
    row-major order.  A NumPy scalar is the array of shape [()]. *)
Record ndarray (A : Type) : Type := mkNdarray {
  shape : list nat;
  flat : list A
}.

Arguments mkNdarray {A} shape flat.
Arguments shape {A} _.
Arguments flat {A} _.

(** The number of entries of an array of a given shape. *)
Definition shape_size (s : list nat) : nat := foldr Nat.mul 1%nat s.

(** The entries fill the shape. *)
Definition well_shaped {A : Type} (a : ndarray A) : Prop :=
  length (flat a) = shape_size (shape a).

(** Boolean-mask indexing [a[mask]]: the entries of [a] at the positions
    where [mask] is true, in order. *)
Fixpoint np_select {A : Type} (mask : list bool) (a : list A) : list A :=
  match mask, a with
  | b :: mask', v :: a' =>
      if b then v :: np_select mask' a' else np_select mask' a'
  | _, _ => []
  end.

(** Boolean-mask assignment [dst[mask] = vals]: the values are written, in
    order, to the positions where [mask] is true.  NumPy raises when the
    number of values differs from the number of true positions. *)
Fixpoint np_assign {A : Type} (dst : list A) (mask : list bool)
    (vals : list A) : result (list A) :=
  match dst, mask with
  | [], [] =>
      match vals with
      | [] => Ok []
      | _ :: _ => Raise (ValueError "shape mismatch")
      end
  | d :: dst', b :: mask' =>
      if b then
        match vals with
        | v :: vals' => cons v <$> np_assign dst' mask' vals'
        | [] => Raise (ValueError "shape mismatch")
        end
      else cons d <$> np_assign dst' mask' vals
  | _, _ => Raise (IndexError "boolean index did not match")
  end.

(** A [for] loop over a tuple whose body may raise. *)
Fixpoint for_each {A S : Type} (body : S -> A -> result S) (s : S)
    (l : list A) : result S :=
  match l with
  | [] => Ok s
  | a :: l' => s' ← body s a; for_each body s' l'
  end.

(** ** projections/CubemapProjection.py *)

Module CubemapProjection.

Import coordinate_conversion.
#[local] Open Scope R_scope.

(** The 3D axes ['x'], ['y'], ['z'].  The source keeps them as strings and
    [CoordMap.__init__] rejects every other string, so that a constructed
    [CoordMap] holds one of these three. *)
Inductive axis : Type := AxX | AxY | AxZ.

#[global] Instance axis_eq_dec : EqDecision axis.
Proof. solve_decision. Defined.

Definition axis_of_string (s : string) : option axis :=
  if decide (s = "x"%string) then Some AxX
  else if decide (s = "y"%string) then Some AxY
  else if decide (s = "z"%string) then Some AxZ
  else None.

Record CoordMap : Type := mkCoordMap {
  interval_2d : R * R;
  interval_3d : R * R;
  axis_3d : axis
}.

Definition CoordMap_init (interval_2d interval_3d : R * R)
    (axis_3d : string) : result CoordMap :=
  match axis_of_string axis_3d with
  | None => Raise (Exception "Unknown 3d axis")
  | Some a => Ok (mkCoordMap interval_2d interval_3d a)
  end.

Definition lerp (val a1 b1 a2 b2 : R) : R :=
  (val - a1) * ((b2 - a2) / (b1 - a1)) + a2.

Definition val3d_for_2d (self : CoordMap) (val2d : R) : R :=
  lerp val2d (interval_2d self).1 (interval_2d self).2
             (interval_3d self).1 (interval_3d self).2.

Definition val2d_for_3d (self : CoordMap) (val3d : R) : R :=
  lerp val3d (interval_3d self).1 (interval_3d self).2
             (interval_2d self).1 (interval_2d self).2.

Record Region : Type := mkRegion {
  x_map : CoordMap;
  y_map : CoordMap;
  plane_axis_3d : axis;
  plane_val_3d : R
}.

(** [Region.__init__]: the plane axis is the first of ['x'], ['y'], ['z']
    that neither map uses ([next(filter(..))]). *)
Definition Region_init (x_map y_map : CoordMap) (plane_val_3d : R)
    : result Region :=
  if decide (axis_3d x_map = axis_3d y_map) then
    Raise (Exception "2d coordinates x and y are mapped to same 3d axis")
  else
    match List.filter
            (fun a => negb (bool_decide (a = axis_3d x_map)
                            || bool_decide (a = axis_3d y_map)))
            [AxX; AxY; AxZ] with
    | a :: _ => Ok (mkRegion x_map y_map a plane_val_3d)
    | [] => Raise StopIteration
    end.

Definition _ax_to_idx (ax : axis) : nat :=
  match ax with AxX => 0%nat | AxY => 1%nat | AxZ => 2%nat end.

(** Indexing of the 3-tuples [(xs, ys, zs)] of the source. *)
Definition tuple_get (t : R * R * R) (i : nat) : R :=
  match i with
  | O => t.1.1
  | S O => t.1.2
  | _ => t.2
  end.

(** [np.sign]. *)
Definition np_sign (v : R) : R :=
  if decide (0 < v) then 1 else if decide (v < 0) then -1 else 0.

Definition within_region_mask (self : Region) (y x : R) : bool :=
  bool_decide (y >= Rmin (interval_2d (y_map self)).1 (interval_2d (y_map self)).2)
  && bool_decide (y <= Rmax (interval_2d (y_map self)).1 (interval_2d (y_map self)).2)
  && bool_decide (x >= Rmin (interval_2d (x_map self)).1 (interval_2d (x_map self)).2)
  && bool_decide (x <= Rmax (interval_2d (x_map self)).1 (interval_2d (x_map self)).2).

(** [within_cubeface_mask] at one direction [(xs, ys, zs)]. *)
Definition within_cubeface_mask (self : Region) (p : R * R * R) : bool :=
  let plane_ax_idx := _ax_to_idx (plane_axis_3d self) in
  let other_ax_idxs :=
    (_ax_to_idx (axis_3d (x_map self)), _ax_to_idx (axis_3d (y_map self))) in
  let vals := p in
  let abs_vals := (Rabs p.1.1, Rabs p.1.2, Rabs p.2) in
  let mask :=
    if decide (np_sign (plane_val_3d self) > 0)
    then bool_decide (tuple_get vals plane_ax_idx > 0)
    else bool_decide (tuple_get vals plane_ax_idx < 0) in
  mask
  && bool_decide (tuple_get abs_vals plane_ax_idx > tuple_get abs_vals other_ax_idxs.1)
  && bool_decide (tuple_get abs_vals plane_ax_idx > tuple_get abs_vals other_ax_idxs.2).

(** The body of [to_2d] at one direction: the ray is extended to the plane
    of the face and the two in-plane coordinates are mapped to the canvas.
    The result is [(coords_2d[0], coords_2d[1])], that is [(y, x)]. *)
Definition to_2d_point (self : Region) (p : R * R * R) : R * R :=
  let '(r, theta, phi) := cartesian_to_spherical p.1.1 p.1.2 p.2 in
  let r :=
    match plane_axis_3d self with
    | AxX => plane_val_3d self / (sin theta * cos phi)
    | AxY => plane_val_3d self / (sin theta * sin phi)
    | AxZ => plane_val_3d self / cos theta
    end in
  let coords_3d := spherical_to_cartesian r theta phi in
  (val2d_for_3d (y_map self) (tuple_get coords_3d (_ax_to_idx (axis_3d (y_map self)))),
   val2d_for_3d (x_map self) (tuple_get coords_3d (_ax_to_idx (axis_3d (x_map self))))).

(** [to_2d] on arrays of directions (the three coordinate arrays of the
    source, zipped). *)
Definition to_2d (self : Region) (pts : list (R * R * R))
    : result (list (R * R)) :=
  if negb (forallb (within_cubeface_mask self) pts) then
    Raise (Exception "Not all requested xs, ys, zs values lie within the cubeface.")
  else Ok (map (to_2d_point self) pts).

Record t : Type := mk {
  _size : Z * Z;
  top_region : Region;
  left_region : Region;
  front_region : Region;
  right_region : Region;
  back_region : Region;
  bottom_region : Region
}.

(** The six regions that [__init__] builds, with their plane axes worked
    out. *)
Definition top : Region :=
  mkRegion (mkCoordMap (0, 1/3) (-1, 1) AxX)
           (mkCoordMap (0.5, 1) (-1, 1) AxY) AxZ 1.
Definition left : Region :=
  mkRegion (mkCoordMap (0, 1/3) (1, -1) AxX)
           (mkCoordMap (0, 0.5) (1, -1) AxZ) AxY (-1).
Definition front : Region :=
  mkRegion (mkCoordMap (1/3, 2/3) (-1, 1) AxY)
           (mkCoordMap (0, 0.5) (1, -1) AxZ) AxX (-1).
Definition right : Region :=
  mkRegion (mkCoordMap (2/3, 1) (-1, 1) AxX)
           (mkCoordMap (0, 0.5) (1, -1) AxZ) AxY 1.
Definition back : Region :=
  mkRegion (mkCoordMap (1/3, 2/3) (1, -1) AxZ)
           (mkCoordMap (0.5, 1) (-1, 1) AxY) AxX 1.
Definition bottom : Region :=
  mkRegion (mkCoordMap (2/3, 1) (1, -1) AxX)
           (mkCoordMap (0.5, 1) (-1, 1) AxY) AxZ (-1).

(** Construction of a region from its keyword arguments; errors of
    [CoordMap.__init__] and [Region.__init__] propagate. *)
Definition make_region (x2d x3d : R * R) (xax : string)
    (y2d y3d : R * R) (yax : string) (plane_val_3d : R) : result Region :=
  xm ← CoordMap_init x2d x3d xax;
  ym ← CoordMap_init y2d y3d yax;
  Region_init xm ym plane_val_3d.

(** [CubemapProjection.__init__]. *)
Definition init (size : Z * Z) : result t :=
  top ← make_region (0, 1/3) (-1, 1) "x" (0.5, 1) (-1, 1) "y" 1;
  left ← make_region (0, 1/3) (1, -1) "x" (0, 0.5) (1, -1) "z" (-1);
  front ← make_region (1/3, 2/3) (-1, 1) "y" (0, 0.5) (1, -1) "z" (-1);
  right ← make_region (2/3, 1) (-1, 1) "x" (0, 0.5) (1, -1) "z" 1;
  back ← make_region (1/3, 2/3) (1, -1) "z" (0.5, 1) (-1, 1) "y" 1;
  bottom ← make_region (2/3, 1) (1, -1) "x" (0.5, 1) (-1, 1) "y" (-1);
  Ok (mk size top left front right back bottom).

(** The tuple the two projection loops iterate over. *)
Definition regions (self : t) : list Region :=
  [top_region self; left_region self; front_region self;
   right_region self; back_region self; bottom_region self].

(** The body of the loop of [from_sphere]: [mask] selects the directions
    of the region, [to_2d] maps them and the result is written back at the
    same positions.  [coords_2d] has the two axes [xs.shape[0]] and
    [xs.shape[1]] after its first one, so that the assignment
    [coords_2d[:, mask] = ..] raises for a mask of more than two
    dimensions. *)
Definition from_sphere_body (pts : ndarray (R * R * R))
    (coords_2d : list (np_float * np_float)) (region : Region)
    : result (list (np_float * np_float)) :=
  let mask := map (within_cubeface_mask region) (flat pts) in
  vals ← to_2d region (np_select mask (flat pts));
  if decide (2 < length (shape pts))%nat then
    Raise (IndexError "too many indices for array")
  else
    np_assign coords_2d mask
      (map (fun yx : R * R => (Some yx.1, Some yx.2)) vals).

(** [from_sphere] on an array of directions (the three coordinate arrays
    of the source, of one shape, zipped).  [xs.shape[0]] and [xs.shape[1]]
    are read first, which raises for an array of fewer than two dimensions.
    [coords_2d] starts filled with NaN. *)
Definition from_sphere (self : t) (pts : ndarray (R * R * R))
    : result (ndarray (np_float * np_float)) :=
  match shape pts with
  | s0 :: s1 :: _ =>
      coords_2d ←
        for_each (from_sphere_body pts)
          (replicate (s0 * s1) (nan, nan))
          (regions self);
      Ok (mkNdarray [s0; s1]
            (map (fun c : np_float * np_float =>
                    ((fun v => v * IZR (_size self).1 - 0.5) <$> c.1,
                     (fun v => v * IZR (_size self).2 - 0.5) <$> c.2))
                 coords_2d))
  | _ => Raise (IndexError "tuple index out of range")
  end.

End CubemapProjection.

(** ** var/ViewportAdaptiveResampler.py *)

Module ViewportAdaptiveResampler.

Import coordinate_conversion.
#[local] Open Scope R_scope.

Definition vec3 : Type := R * R * R.

(** A 3x3 array, as its three rows. *)
Definition mat3 : Type := vec3 * vec3 * vec3.

Definition dot3 (a b : vec3) : R :=
  a.1.1 * b.1.1 + a.1.2 * b.1.2 + a.2 * b.2.

Definition col (m : mat3) (j : nat) : vec3 :=
  (CubemapProjection.tuple_get m.1.1 j,
   CubemapProjection.tuple_get m.1.2 j,
   CubemapProjection.tuple_get m.2 j).

(** [m.dot(v)] for a matrix and a vector. *)
Definition mat_vec (m : mat3) (v : vec3) : vec3 :=
  (dot3 m.1.1 v, dot3 m.1.2 v, dot3 m.2 v).

(** [a.dot(b)] for two matrices. *)
Definition mat_mul (a b : mat3) : mat3 :=
  let row (r : vec3) : vec3 :=
    (dot3 r (col b 0), dot3 r (col b 1), dot3 r (col b 2)) in
  (row a.1.1, row a.1.2, row a.2).

Definition transpose (m : mat3) : mat3 := (col m 0, col m 1, col m 2).

Definition identity : mat3 := ((1, 0, 0), (0, 1, 0), (0, 0, 1)).

Definition _rotation_matrix (x y z : R) : mat3 :=
  let gamma := PI - arctan2 y x in
  let rotation_matrix_z : mat3 :=
    ((cos gamma, - sin gamma, 0),
     (sin gamma, cos gamma, 0),
     (0, 0, 1)) in
  let other_v := mat_vec rotation_matrix_z (x, y, z) in
  let beta := - arctan2 other_v.2 (Rabs other_v.1.1) in
  let rotation_matrix_y : mat3 :=
    ((cos beta, 0, sin beta),
     (0, 1, 0),
     (- sin beta, 0, cos beta)) in
  mat_mul rotation_matrix_y rotation_matrix_z.

End ViewportAdaptiveResampler.

(** ** fsmr/fsmr.py *)

Module fsmr.

#[local] Open Scope R_scope.

(** A two-dimensional float array: its rows, and the length of the second
    axis (which the rows do not determine when there are none). *)
Record ndarray2 : Type := mkArray2 {
  ncols : nat;
  rows : list (list R)
}.

Definition Rsum (l : list R) : R := foldr Rplus 0 l.

(** Elementwise binary operation on one-dimensional arrays with NumPy's
    broadcasting: equal lengths, or one operand of length 1. *)
Definition np_broadcast {A B C : Type} (f : A -> B -> C) (a : list A)
    (b : list B) : result (list C) :=
  if decide (length a = length b) then Ok (zip_with f a b)
  else match a, b with
       | [x], _ => Ok (map (f x) b)
       | _, [y] => Ok (map (fun x => f x y) a)
       | _, _ => Raise (ValueError "operands could not be broadcast together")
       end.

(** [m.dot(v)] for a two-dimensional [m] and a one-dimensional [v]. *)
Definition np_dot (m : ndarray2) (v : list R) : result (list R) :=
  if decide (ncols m = length v)
  then Ok (map (fun row => Rsum (zip_with Rmult row v)) (rows m))
  else Raise (ValueError "shapes not aligned").

Definition np_square (m : ndarray2) : ndarray2 :=
  mkArray2 (ncols m) (map (map Rsqr) (rows m)).

Definition np_transpose (m : ndarray2) : ndarray2 :=
  mkArray2 (length (rows m))
    (map (fun j => map (fun row => nth j row 0) (rows m)) (seq 0 (ncols m))).

(** A float that may be infinite or NaN, for the quotients by the atom
    energies and the objective computed from them. *)
Inductive xfloat : Type :=
  | XFinite (v : R)
  | XPosInf
  | XNegInf
  | XNaN.

(** Elementwise float division of arrays: a zero divisor gives an infinity
    or NaN and raises nothing (the sign of a zero is not modelled). *)
Definition np_true_divide (a b : R) : xfloat :=
  if decide (b = 0) then
    if decide (0 < a) then XPosInf
    else if decide (a < 0) then XNegInf
    else XNaN
  else XFinite (a / b).

(** Elementwise product of a float with a float that may be infinite or
    NaN. *)
Definition np_multiply (a : R) (b : xfloat) : xfloat :=
  match b with
  | XFinite v => XFinite (a * v)
  | XPosInf =>
      if decide (0 < a) then XPosInf
      else if decide (a < 0) then XNegInf
      else XNaN
  | XNegInf =>
      if decide (0 < a) then XNegInf
      else if decide (a < 0) then XPosInf
      else XNaN
  | XNaN => XNaN
  end.

Definition np_isnan (a : xfloat) : bool :=
  match a with XNaN => true | _ => false end.

(** The comparison [a > b] of floats; it is false when either is NaN. *)
Definition xfloat_gt (a b : xfloat) : bool :=
  match a, b with
  | XNaN, _ | _, XNaN => false
  | XFinite x, XFinite y => bool_decide (x > y)
  | XFinite _, XPosInf => false
  | XFinite _, XNegInf => true
  | XPosInf, XPosInf => false
  | XPosInf, _ => true
  | XNegInf, _ => false
  end.

(** [np.argmax] as compiled for float arrays: the index of the first NaN
    if there is one, and of the first largest entry otherwise. *)
Fixpoint argmax_from (max_idx : nat) (max_value : xfloat) (idx : nat)
    (l : list xfloat) : nat :=
  match l with
  | [] => max_idx
  | v :: l' =>
      if np_isnan v then idx
      else if xfloat_gt v max_value then argmax_from idx v (S idx) l'
      else argmax_from max_idx max_value (S idx) l'
  end.

Definition np_argmax (l : list xfloat) : result nat :=
  match l with
  | [] => Raise (ValueError "attempt to get argmax of an empty sequence")
  | v :: l' => if np_isnan v then Ok 0%nat else Ok (argmax_from 0 v 1 l')
  end.

(** Division [a / b] of two float scalars in compiled code, as in Python:
    a zero divisor raises. *)
Definition py_div (a b : R) : result R :=
  if decide (b = 0) then Raise ZeroDivisionError else Ok (a / b).

(** [a[i]], for reading. *)
Definition np_get {A : Type} (a : list A) (i : nat) : result A :=
  match a !! i with
  | Some v => Ok v
  | None => Raise (IndexError "index out of bounds")
  end.

(** The pairs [(k, l)] with [0 <= k, l < K] in row-major order. *)
Definition grid_pairs (K : Z) : list (Z * Z) :=
  k ← seqZ 0 K; l ← seqZ 0 K; [(k, l)].

(** [k, l = np.mgrid[:K, :K]], both flattened.  [np.mgrid] allocates two
    index arrays of shape [(K, K)], which raises for a negative [K]. *)
Definition mgrid_flat (K : Z) : result (list (Z * Z)) :=
  if decide (K < 0)%Z then
    Raise (ValueError "negative dimensions are not allowed")
  else Ok (grid_pairs K).

(** The 2x2 table [weights] of [dct_basis_dict]. *)
Definition weights (transform_length : Z) (i j : nat) : R :=
  match i, j with
  | O, O => 1 / IZR transform_length
  | O, _ => sqrt 2 / IZR transform_length
  | _, O => sqrt 2 / IZR transform_length
  | _, _ => 2 / IZR transform_length
  end.

(** [(k == 0).astype(int)]. *)
Definition is_zero_int (k : Z) : nat := if decide (k = 0)%Z then 1%nat else 0%nat.

(** [dct_basis_dict].  [1 / transform_length] divides Python numbers and
    raises for [transform_length = 0]; [np.mgrid] raises for a negative
    one.  The factors [cos1] and [cos2] have one row per pair [(k, l)] and
    are multiplied with broadcasting; their second axes must be compatible
    even when there is no row. *)
Definition dct_basis_dict (x y : list R) (transform_length : Z)
    : result ndarray2 :=
  if decide (transform_length = 0)%Z then Raise ZeroDivisionError
  else
    kl ← mgrid_flat transform_length;
    let cos1 (k : Z) :=
      map (fun yn => cos ((PI / IZR transform_length) * (yn - 0.5) * IZR k)) y in
    let cos2 (l : Z) :=
      map (fun xn => cos ((PI / IZR transform_length) * (xn - 0.5) * IZR l)) x in
    _ ← np_broadcast Rmult y x;
    basis_functions ←
      mapM (fun kl : Z * Z =>
              row ← np_broadcast Rmult (cos1 kl.1) (cos2 kl.2);
              Ok (map (fun c => c * weights transform_length
                                     (is_zero_int kl.1) (is_zero_int kl.2))
                      row))
           kl;
    Ok (mkArray2 (if decide (length y = 1%nat) then length x else length y)
                 basis_functions).

(** [dct_frequency_weighting]; [np.power] with a positive base is
    [Rpower]. *)
Definition dct_frequency_weighting (transform_length : Z) (sigma : R)
    : result (list R) :=
  kl ← mgrid_flat transform_length;
  Ok (map (fun kl : Z * Z =>
             Rpower sigma (sqrt (IZR (kl.1 * kl.1) + IZR (kl.2 * kl.2))))
          kl).

(** The state of the matching-pursuit loop. *)
Record mp_state : Type := mkState {
  residual : list R;
  coeffs : list R
}.

(** One iteration of the loop of [fsmr].  [D] is the vector of atom
    energies computed before the loop.  The objective divides arrays, so a
    zero energy gives an infinite or NaN entry; the coefficient [c] divides
    two scalars, which raises when the energy of the selected atom is
    zero. *)
Definition fsmr_step (basis_dict : ndarray2)
    (spatial_weighting freq_weighting D : list R) (odc : R)
    (st : mp_state) : result mp_state :=
  rw ← np_broadcast Rmult (residual st) spatial_weighting;
  projected_residual ← np_dot basis_dict rw;
  q ← np_broadcast np_true_divide (map Rsqr projected_residual) D;
  obj ← np_broadcast np_multiply freq_weighting q;
  idx ← np_argmax obj;
  p_idx ← np_get projected_residual idx;
  d_idx ← np_get D idx;
  c ← py_div p_idx d_idx;
  c_idx ← np_get (coeffs st) idx;
  atom ← np_get (rows basis_dict) idx;
  residual' ← np_broadcast Rminus (residual st)
                 (map (fun b => odc * b * c) atom);
  Ok (mkState residual' (<[idx := c_idx + odc * c]> (coeffs st))).

(** [for i in range(n)] over a body that may raise. *)
Fixpoint iterate {S : Type} (n : nat) (body : S -> result S) (s : S)
    : result S :=
  match n with
  | O => Ok s
  | S n' => s' ← body s; iterate n' body s'
  end.

(** [fsmr]: frequency-selective matching pursuit.  [range(max_iterations)]
    is empty for a non-positive [max_iterations]. *)
Definition fsmr (mesh_val : list R) (basis_dict : ndarray2)
    (spatial_weighting freq_weighting : list R) (odc : R)
    (max_iterations : Z) : result (list R) :=
  let L := length (rows basis_dict) in
  let residual := mesh_val in
  let coeffs := replicate L 0 in
  D ← np_dot (np_square basis_dict) spatial_weighting;
  st ← iterate (Z.to_nat max_iterations)
         (fsmr_step basis_dict spatial_weighting freq_weighting D odc)
         (mkState residual coeffs);
  Ok (fsmr.coeffs st).

(** *** fsmr/resample_fsmr.py *)

(** The caller's point arrays live in a store of [N x 2] float arrays,
    addressed by the identity of the array object. *)
Abbreviation loc := nat (only parsing).

(** [a += shift] on an [N x 2] array. *)
Definition iadd (shift : R) (a : list (R * R)) : list (R * R) :=
  map (fun p => (p.1 + shift, p.2 + shift)) a.

(** [resample_fsmr].  The point arrays are passed by reference; [+=]
    updates them in the store.  The result pairs the store after the call
    with the value returned or the exception raised. *)
Definition resample_fsmr (source_mesh : loc) (source_val : list R)
    (target_mesh : loc) (transform_length : Z) (odc sigma shift : R)
    (max_iterations : Z) (spatial_weighting : option (list R))
    (h : gmap loc (list (R * R)))
    : gmap loc (list (R * R)) * result (list R) :=
  let h := alter (iadd shift) source_mesh h in
  let h := alter (iadd shift) target_mesh h in
  (h,
   let src := h !!! source_mesh in
   let tgt := h !!! target_mesh in
   basis_functions_source_mesh ←
     dct_basis_dict (map fst src) (map snd src) transform_length;
   frequency_weighting ← dct_frequency_weighting transform_length sigma;
   let spatial_weighting :=
     match spatial_weighting with
     | None => replicate (length src) 1
     | Some w => w
     end in
   coeffs ← fsmr source_val basis_functions_source_mesh
              spatial_weighting frequency_weighting odc max_iterations;
   basis_functions_target_mesh ←
     dct_basis_dict (map fst tgt) (map snd tgt) transform_length;
   np_dot (np_transpose basis_functions_target_mesh) coeffs).

End fsmr.

(** ** Vocabulary of the statements *)

Section vocabulary.

Import CubemapProjection.
#[local] Open Scope R_scope.

(** The point where the ray through [p] meets the plane of the region. *)
Definition on_plane (self : Region) (p : R * R * R) : R * R * R :=
  let s := plane_val_3d self / tuple_get p (_ax_to_idx (plane_axis_3d self)) in
  (s * p.1.1, s * p.1.2, s * p.2).

(** A direction is off the cube edges when one absolute component is
    strictly larger than the other two. *)
Definition off_edge (p : R * R * R) : Prop :=
  (Rabs p.1.1 > Rabs p.1.2 /\ Rabs p.1.1 > Rabs p.2)
  \/ (Rabs p.1.2 > Rabs p.1.1 /\ Rabs p.1.2 > Rabs p.2)
  \/ (Rabs p.2 > Rabs p.1.1 /\ Rabs p.2 > Rabs p.1.2).

(** A direction is on a cube edge (or is the zero vector) when its two
    largest absolute components tie. *)
Definition on_edge (p : R * R * R) : Prop :=
  ~ off_edge p.


Definition unit_vector (p : R * R * R) : Prop :=
  Rsqr p.1.1 + Rsqr p.1.2 + Rsqr p.2 = 1.

End vocabulary.

Section fsmr_vocabulary.

Import fsmr.
#[local] Open Scope R_scope.

(** The rows of the dictionary for a mesh given by two columns of the same
    length. *)
Definition basis_rows (x y : list R) (K : Z) : list (list R) :=
  map (fun kl : Z * Z =>
         map (fun c => c * weights K (is_zero_int kl.1) (is_zero_int kl.2))
           (zip_with Rmult
              (map (fun yn => cos ((PI / IZR K) * (yn - 0.5) * IZR kl.1)) y)
              (map (fun xn => cos ((PI / IZR K) * (xn - 0.5) * IZR kl.2)) x)))
      (grid_pairs K).

(** The frequency weights of the pairs [(k, l)], in row-major order. *)
Definition frequency_weights (K : Z) (sigma : R) : list R :=
  map (fun kl : Z * Z =>
         Rpower sigma (sqrt (IZR (kl.1 * kl.1) + IZR (kl.2 * kl.2))))
      (grid_pairs K).

(** The shape of a dictionary: [L] atoms sampled at [N] mesh points. *)
Definition dict_shape (B : ndarray2) (N L : nat) : Prop :=
  ncols B = N /\ length (rows B) = L
  /\ Forall (fun row => length row = N) (rows B).

(** An atom that does not vanish at every mesh point. *)
Definition atom_nonzero (row : list R) : Prop :=
  Exists (fun a => a <> 0) row.

End fsmr_vocabulary.

(** ** Further functions of the sources *)

(** *** projections/EquirectangularProjection.py and CubemapProjection.py:
    [focal_length] *)

Module Focal.

#[local] Open Scope R_scope.

(** The property [focal_length] of both projections:
    [1 / np.tan(np.pi / self._size[0])]. *)
Definition focal_length (size : Z * Z) : R :=
  1 / tan (PI / IZR size.1).

End Focal.

(** *** projections/RadialProjection.py *)

Module RadialProjection.

Import coordinate_conversion.
#[local] Open Scope R_scope.

(** A radial projection: the two stored attributes and the two abstract
    methods [radius] and [theta] that a subclass provides. *)
Record t : Type := mk {
  _focal_length : R;
  _optical_center : R * R;
  radius : R -> R;
  theta : R -> R
}.

Definition to_sphere (self : t) (y x : R) : R * R * R :=
  let '(r, phi_s) :=
    cartesian_to_polar (y - (_optical_center self).1)
                       (x - (_optical_center self).2) in
  let theta_s := theta self r in
  let '(xsr, ysr, zsr) := spherical_to_cartesian 1 theta_s phi_s in
  let xs := - zsr in
  let ys := xsr in
  let zs := - ysr in
  (xs, ys, zs).

Definition from_sphere (self : t) (xs ys zs : R) : R * R :=
  let '(_, theta_s, phi_s) := cartesian_to_spherical ys (- zs) (- xs) in
  let r := radius self theta_s in
  let '(y, x) := polar_to_cartesian r phi_s in
  (y + (_optical_center self).1, x + (_optical_center self).2).

End RadialProjection.

(** *** projections/PerspectiveProjection.py *)

Module PerspectiveProjection.

Import coordinate_conversion.
#[local] Open Scope R_scope.

Record t : Type := mk {
  focal_length : R;
  optical_center : R * R
}.

Definition max_fov (self : t) : R := PI.

Definition radius (self : t) (theta : R) : R :=
  focal_length self * tan theta.

Definition theta (self : t) (radius : R) : R :=
  atan (radius / focal_length self).

(** The perspective model as an instance of the radial projection. *)
Definition as_radial (self : t) : RadialProjection.t :=
  RadialProjection.mk (focal_length self) (optical_center self)
    (radius self) (theta self).

(** A Python [bool] used as a number. *)
Definition bool_to_R (b : bool) : R := if b then 1 else 0.

(** [to_sphere]; [vip] is [None] or a boolean. *)
Definition to_sphere (self : t) (y x : R) (vip : option bool) : R * R * R :=
  let '(r, phi_s) :=
    cartesian_to_polar (y - (optical_center self).1)
                       (x - (optical_center self).2) in
  let theta_s := theta self r in
  let '(phi_s, theta_s) :=
    match vip with
    | None => (phi_s, theta_s)
    | Some vip =>
        (phi_s - bool_to_R vip * PI,
         theta_s - bool_to_R vip * (2 * theta_s - PI))
    end in
  let '(xsr, ysr, zsr) := spherical_to_cartesian 1 theta_s phi_s in
  let xs := - zsr in
  let ys := xsr in
  let zs := - ysr in
  (xs, ys, zs).

(** [from_sphere]; the third result is the comparison [r < 0]. *)
Definition from_sphere (self : t) (xs ys zs : R) : R * R * bool :=
  let '(_, theta_s, phi_s) := cartesian_to_spherical ys (- zs) (- xs) in
  let r := radius self theta_s in
  let '(y, x) := polar_to_cartesian r phi_s in
  (y + (optical_center self).1, x + (optical_center self).2,
   bool_decide (r < 0)).

End PerspectiveProjection.

(** *** projections/CubemapProjection.py: [to_3d] and [to_sphere] *)

Module CubemapSphere.

Import CubemapProjection.
#[local] Open Scope R_scope.

(** Assignment [t[i] = v] to one row of a three-row array. *)
Definition tuple_set (t : R * R * R) (i : nat) (v : R) : R * R * R :=
  match i with
  | O => (v, t.1.2, t.2)
  | S O => (t.1.1, v, t.2)
  | _ => (t.1.1, t.1.2, v)
  end.

(** [Region.__contains__]: [np.all] of the region mask. *)
Definition contains (self : Region) (pix : list (R * R)) : bool :=
  forallb (fun yx : R * R => within_region_mask self yx.1 yx.2) pix.

(** The body of [to_3d] at one canvas point [(y, x)].  [empty] stands for
    the content of the [np.empty] array before the three rows are
    written. *)
Definition to_3d_point (empty : R * R * R) (self : Region) (yx : R * R)
    : R * R * R :=
  let coords_3d := empty in
  let coords_3d :=
    tuple_set coords_3d (_ax_to_idx (axis_3d (y_map self)))
      (val3d_for_2d (y_map self) yx.1) in
  let coords_3d :=
    tuple_set coords_3d (_ax_to_idx (axis_3d (x_map self)))
      (val3d_for_2d (x_map self) yx.2) in
  tuple_set coords_3d (_ax_to_idx (plane_axis_3d self)) (plane_val_3d self).

(** [to_3d] on arrays of canvas points. *)
Definition to_3d (empty : R * R * R) (self : Region) (pix : list (R * R))
    : result (list (R * R * R)) :=
  if negb (contains self pix) then
    Raise (Exception "Not all requested y, x values lie within the region.")
  else Ok (map (to_3d_point empty self) pix).

(** Division of the valid columns by their Euclidean norm. *)
Definition normalize (c : np_float * np_float * np_float)
    : np_float * np_float * np_float :=
  match c with
  | (Some x, Some y, Some z) =>
      let n := sqrt (Rsqr x + Rsqr y + Rsqr z) in
      (Some (x / n), Some (y / n), Some (z / n))
  | _ => c
  end.

(** The body of the loop of [to_sphere], on the normalised coordinates.
    [coords_3d] has the two axes [y.shape[0]] and [y.shape[1]] after its
    first one, so that the assignment [coords_3d[:, mask] = ..] raises for
    a mask of more than two dimensions. *)
Definition to_sphere_body (empty : R * R * R) (pix : ndarray (R * R))
    (coords_3d : list (np_float * np_float * np_float)) (region : Region)
    : result (list (np_float * np_float * np_float)) :=
  let mask :=
    map (fun yx : R * R => within_region_mask region yx.1 yx.2) (flat pix) in
  vals ← to_3d empty region (np_select mask (flat pix));
  if decide (2 < length (shape pix))%nat then
    Raise (IndexError "too many indices for array")
  else
    np_assign coords_3d mask
      (map (fun v : R * R * R => (Some v.1.1, Some v.1.2, Some v.2)) vals).

(** [to_sphere] on an array of pixel coordinates [(y, x)] (the two
    coordinate arrays of the source, of one shape, zipped).  After the
    normalisation [y.shape[0]] and [y.shape[1]] are read, which raises for
    an array of fewer than two dimensions. *)
Definition to_sphere (empty : R * R * R) (self : CubemapProjection.t)
    (pix : ndarray (R * R))
    : result (ndarray (np_float * np_float * np_float)) :=
  let pix_n :=
    mkNdarray (shape pix)
      (map (fun yx : R * R =>
              ((yx.1 + 0.5) / IZR (_size self).1,
               (yx.2 + 0.5) / IZR (_size self).2)) (flat pix)) in
  match shape pix_n with
  | s0 :: s1 :: _ =>
      coords_3d ←
        for_each (to_sphere_body empty pix_n)
          (replicate (s0 * s1) (nan, nan, nan))
          (regions self);
      Ok (mkNdarray [s0; s1] (map normalize coords_3d))
  | _ => Raise (IndexError "tuple index out of range")
  end.

End CubemapSphere.

(** ** Vocabulary of the further statements *)

Section more_vocabulary.

Import CubemapProjection CubemapSphere.
#[local] Open Scope R_scope.

(** What the loop of [from_sphere] leaves at the position of one
    direction: the image under the last region of the tuple that claims
    it, NaN if there is none; then the scaling to pixels. *)
Definition from_sphere_point (self : CubemapProjection.t) (p : R * R * R)
    : np_float * np_float :=
  let c :=
    foldl (fun (d : np_float * np_float) (r : Region) =>
             if within_cubeface_mask r p
             then (Some (to_2d_point r p).1, Some (to_2d_point r p).2)
             else d)
          (nan, nan) (regions self) in
  ((fun v => v * IZR (_size self).1 - 0.5) <$> c.1,
   (fun v => v * IZR (_size self).2 - 0.5) <$> c.2).

(** What [to_sphere] computes at one pixel coordinate. *)
Definition to_sphere_point (empty : R * R * R) (self : CubemapProjection.t)
    (yx : R * R) : np_float * np_float * np_float :=
  let yn := (yx.1 + 0.5) / IZR (_size self).1 in
  let xn := (yx.2 + 0.5) / IZR (_size self).2 in
  normalize
    (foldl (fun (d : np_float * np_float * np_float) (r : Region) =>
              if within_region_mask r yn xn
              then (Some (to_3d_point empty r (yn, xn)).1.1,
                    Some (to_3d_point empty r (yn, xn)).1.2,
                    Some (to_3d_point empty r (yn, xn)).2)
              else d)
           (nan, nan, nan) (regions self)).

(** The normalised canvas coordinates lie strictly inside the rectangle of
    the region. *)
Definition inside_region (r : Region) (yn xn : R) : Prop :=
  Rmin (interval_2d (y_map r)).1 (interval_2d (y_map r)).2 < yn
  /\ yn < Rmax (interval_2d (y_map r)).1 (interval_2d (y_map r)).2
  /\ Rmin (interval_2d (x_map r)).1 (interval_2d (x_map r)).2 < xn
  /\ xn < Rmax (interval_2d (x_map r)).1 (interval_2d (x_map r)).2.

End more_vocabulary.

(** ** Vocabulary of the statements on the matching pursuit *)

Section pursuit_vocabulary.

Import fsmr.
#[local] Open Scope R_scope.

(** The weighted energy of a residual: the sum of [w[n] * r[n]^2]. *)
Definition weighted_energy (w r : list R) : R :=
  Rsum (zip_with Rmult (map Rsqr r) w).

(** The weighted inner product of an atom with a residual, an entry of
    [projected_residual]. *)
Definition projection (w atom r : list R) : R :=
  Rsum (zip_with Rmult atom (zip_with Rmult r w)).

(** The weighted energy of an atom, an entry of [D]. *)
Definition atom_energy (w atom : list R) : R :=
  Rsum (zip_with Rmult (map Rsqr atom) w).

End pursuit_vocabulary.

(** ** var/ViewportAdaptiveResampler.py: the resampler and its methods *)

Module Resampler.

Import coordinate_conversion ViewportAdaptiveResampler.
#[local] Open Scope R_scope.

(** A two-dimensional array: its shape [(gh, gw)] and its entries, read
    at positions inside the shape only. *)
Record grid (A : Type) : Type := mkGrid {
  gh : nat;
  gw : nat;
  cell : nat -> nat -> A
}.
Arguments mkGrid {A} _ _ _.
Arguments gh {A} _.
Arguments gw {A} _.
Arguments cell {A} _ _ _.

(** [a.shape]. *)
Definition shape {A : Type} (g : grid A) : Z * Z :=
  (Z.of_nat (gh g), Z.of_nat (gw g)).

(** [a.reshape(-1)], and the order in which a boolean mask selects: the
    entries row by row. *)
Definition flatten {A : Type} (g : grid A) : list A :=
  r ← seq 0 (gh g); c ← seq 0 (gw g); [cell g r c].

(** An operation applied to every entry. *)
Definition grid_map {A B : Type} (f : A -> B) (g : grid A) : grid B :=
  mkGrid (gh g) (gw g) (fun r c => f (cell g r c)).

(** A bound [k] of a Python slice on an axis of length [n]: negative
    bounds count from the end, and all bounds are clipped to the axis. *)
Definition slice_index (n : nat) (k : Z) : Z :=
  if decide (k < 0)%Z then Z.max (k + Z.of_nat n) 0 else Z.min k (Z.of_nat n).

(** The slice [a:b] on an axis of length [n]: its first index and its
    length. *)
Definition slice_bounds (n : nat) (a b : Z) : nat * nat :=
  let lo := slice_index n a in
  let hi := slice_index n b in
  (Z.to_nat lo, Z.to_nat (hi - lo)).

(** [g[a:b, c:d]]. *)
Definition slice2 {A : Type} (g : grid A) (a b c d : Z) : grid A :=
  let rows := slice_bounds (gh g) a b in
  let cols := slice_bounds (gw g) c d in
  mkGrid rows.2 cols.2 (fun r c => cell g (rows.1 + r) (cols.1 + c)).

(** [g[a:b, c:d] = v], with NumPy's broadcasting of an axis of length 1
    of [v]. *)
Definition set_slice2 {A : Type} (g : grid A) (a b c d : Z) (v : grid A)
    : result (grid A) :=
  let rows := slice_bounds (gh g) a b in
  let cols := slice_bounds (gw g) c d in
  if decide ((gh v = rows.2 \/ gh v = 1%nat) /\ (gw v = cols.2 \/ gw v = 1%nat))
  then
    Ok (mkGrid (gh g) (gw g)
          (fun r c =>
             if decide ((rows.1 <= r < rows.1 + rows.2)%nat
                        /\ (cols.1 <= c < cols.1 + cols.2)%nat)
             then cell v (if decide (gh v = rows.2) then r - rows.1 else 0)%nat
                         (if decide (gw v = cols.2) then c - cols.1 else 0)%nat
             else cell g r c))
  else Raise (ValueError "could not broadcast input array").

(** [np.arccos]: NaN outside [-1, 1]. *)
Definition np_arccos (x : R) : np_float :=
  if decide (-1 <= x <= 1) then Some (acos x) else nan.

(** [np.max]: raises on an empty array, and is NaN when an entry is. *)
Definition np_max (l : list np_float) : result np_float :=
  match l with
  | [] => Raise (ValueError "zero-size array to reduction operation maximum which has no identity")
  | x :: l' =>
      Ok (foldl (fun m y => match m, y with
                            | Some a, Some b => Some (Rmax a b)
                            | _, _ => nan
                            end) x l')
  end.

(** Comparisons with a possible NaN are false. *)
Definition np_lt (a b : np_float) : bool :=
  match a, b with
  | Some x, Some y => bool_decide (x < y)
  | _, _ => false
  end.

(** [vals.reshape((n, n))] of a one-dimensional array.  The messages of
    the errors are shortened. *)
Definition reshape_square (vals : list R) (n : Z) : result (grid R) :=
  if decide (n = -1)%Z then
    Raise (ValueError "can only specify one unknown dimension")
  else if decide (n < 0)%Z then
    Raise (ValueError "negative dimensions not allowed")
  else if decide (Z.of_nat (length vals) = n * n)%Z then
    Ok (mkGrid (Z.to_nat n) (Z.to_nat n)
          (fun r c => nth (r * Z.to_nat n + c) vals 0))
  else Raise (ValueError "cannot reshape array").

(** The attributes of a resampler that the methods below read.  The
    target projection is held as its [to_sphere] at one pixel coordinate,
    the only use [_resample_block] makes of it; the arrays [_s_src_o] and
    [_s_tar_o] hold one direction per pixel. *)
Record t : Type := mk {
  _size_src : Z * Z;
  _size_tar : Z * Z;
  _projection_tar : R -> R -> result vec3;
  _mesh_to_mesh_resampler :
    list (R * R) -> list R -> list (R * R) -> result (list R);
  _blocksize : Z;
  _incident_angle_factor : R;
  _s_src_o : grid vec3;
  _s_tar_o : grid vec3;
  _projection_perspective : PerspectiveProjection.t
}.

(** [_check_config].  [%] on Python integers raises for a zero divisor and
    takes the sign of the divisor otherwise, as [Z.modulo] does. *)
Definition _check_config (size_tar : Z * Z) (blocksize : Z) : result unit :=
  if decide (blocksize = 0)%Z then Raise ZeroDivisionError
  else if decide ((size_tar.1 mod blocksize <> 0)%Z
                  \/ (size_tar.2 mod blocksize <> 0)%Z)
  then Raise (ValueError "Support for partial blocks not implemented.")
  else Ok tt.

(** The pair [(x, y)] of the plane coordinates that [from_sphere] of the
    perspective model returns as [(y, x, _)]. *)
Definition plane_point (p : PerspectiveProjection.t) (v : vec3) : R * R :=
  let r := PerspectiveProjection.from_sphere p v.1.1 v.1.2 v.2 in
  (r.1.2, r.1.1).

(** [_resample_block]. *)
Definition _resample_block (self : t) (i j : Z) (image_src : grid R)
    : result (grid R) :=
  let bs := _blocksize self in
  let s_blk_tar_o :=
    slice2 (_s_tar_o self) (i * bs) ((i + 1) * bs) (j * bs) ((j + 1) * bs) in
  let y_tar_c := (IZR i + 0.5) * IZR bs - 0.5 in
  let x_tar_c := (IZR j + 0.5) * IZR bs - 0.5 in
  s_tar_c ← _projection_tar self y_tar_c x_tar_c;
  let rotation_matrix :=
    _rotation_matrix s_tar_c.1.1 s_tar_c.1.2 s_tar_c.2 in
  let s_src_r := grid_map (mat_vec rotation_matrix) (_s_src_o self) in
  let s_blk_tar_r := grid_map (mat_vec rotation_matrix) s_blk_tar_o in
  m ← np_max (flatten (grid_map (fun v : vec3 => np_arccos (- v.1.1))
                         s_blk_tar_r));
  let max_theta := (fun a => _incident_angle_factor self * a) <$> m in
  if np_lt (Some (PI / 2)) max_theta then
    Raise (Exception "Maximum incident angle > pi/2. This is not allowed.")
  else
    let theta_src := grid_map (fun v : vec3 => np_arccos (- v.1.1)) s_src_r in
    let mask_src := grid_map (fun th => np_lt th max_theta) theta_src in
    let s_masked_src_r := np_select (flatten mask_src) (flatten s_src_r) in
    if decide (shape image_src <> shape mask_src) then
      Raise (IndexError "boolean index did not match indexed array")
    else
      let image_masked_src :=
        np_select (flatten mask_src) (flatten image_src) in
      let p_src_p :=
        map (plane_point (_projection_perspective self)) s_masked_src_r in
      let p_blk_tar_p :=
        map (plane_point (_projection_perspective self))
          (flatten s_blk_tar_r) in
      val_blk_tar ←
        _mesh_to_mesh_resampler self p_src_p image_masked_src p_blk_tar_p;
      reshape_square val_blk_tar bs.

(** [for i in range(n)] with the loop index, over a body that may raise. *)
Fixpoint for_range {S : Type} (n : nat) (body : nat -> S -> result S)
    (s : S) : result S :=
  match n with
  | O => Ok s
  | S n' => s' ← for_range n' body s; body n' s'
  end.

(** [a // b] on Python integers. *)
Definition floordiv (a b : Z) : result Z :=
  if decide (b = 0)%Z then Raise ZeroDivisionError else Ok (a / b)%Z.

(** [np.empty(size)]; [empty] stands for the content of the fresh
    array. *)
Definition np_empty (empty : nat -> nat -> R) (size : Z * Z)
    : result (grid R) :=
  if decide ((size.1 < 0)%Z \/ (size.2 < 0)%Z) then
    Raise (ValueError "negative dimensions are not allowed")
  else Ok (mkGrid (Z.to_nat size.1) (Z.to_nat size.2) empty).

(** [resample].  The progress bar has no part in the result and is left
    out; the message of the first error is shortened. *)
Definition resample (empty : nat -> nat -> R) (self : t) (image_src : grid R)
    : result (grid R) :=
  if decide (shape image_src <> _size_src self) then
    Raise (ValueError "Image size does not match configured size.")
  else
    let bs := _blocksize self in
    blocks_i ← floordiv (_size_tar self).1 bs;
    blocks_j ← floordiv (_size_tar self).2 bs;
    image_tar ← np_empty empty (_size_tar self);
    for_range (Z.to_nat blocks_i)
      (fun i image_tar =>
         for_range (Z.to_nat blocks_j)
           (fun j image_tar =>
              block_tar ←
                _resample_block self (Z.of_nat i) (Z.of_nat j) image_src;
              set_slice2 image_tar
                (Z.of_nat i * bs) ((Z.of_nat i + 1) * bs)
                (Z.of_nat j * bs) ((Z.of_nat j + 1) * bs) block_tar)
           image_tar)
      image_tar.

(** A resampler with one source pixel and one target block of one pixel,
    whose mesh-to-mesh resampler returns zeros. *)
Definition example : t :=
  mk (1, 1)%Z (1, 1)%Z
     (fun _ _ => Ok (0, 0, 1))
     (fun _ _ tar => Ok (map (fun _ => 0) tar))
     1%Z 1
     (mkGrid 1 1 (fun _ _ => (0, 0, 1)))
     (mkGrid 1 1 (fun _ _ => (0, 1, 0)))
     (PerspectiveProjection.mk 1 (0, 0)).

Definition example_image : grid R := mkGrid 1 1 (fun _ _ => 5).

End Resampler.

(** * Properties *)

(** ** [cmp_size] *)

Section cmp_size_facts.

#[local] Open Scope Z_scope.

Lemma Zfloor_sqrt_div6 (n : Z) :
  0 <= n -> Zfloor (sqrt (IZR n / 6)) = Z.sqrt (n / 6).
Proof.
  intros Hn.
  assert (Hq : 0 <= n / 6) by (apply Z.div_pos; lia).
  pose proof (Z.sqrt_spec (n / 6) Hq) as [Hlo Hhi].
  pose proof (Z.sqrt_nonneg (n / 6)) as Hs.
  set (s := Z.sqrt (n / 6)) in *.
  pose proof (Z.mul_div_le n 6 ltac:(lia)) as Hd1.
  pose proof (Z.mul_succ_div_gt n 6 ltac:(lia)) as Hd2.
  assert (H1 : (IZR s * IZR s <= IZR n / 6)%R).
  { assert (6 * (s * s) <= n) by lia.
    apply IZR_le in H. rewrite !mult_IZR in H. lra. }
  assert (H2 : (IZR n / 6 < (IZR s + 1) * (IZR s + 1))%R).
  { assert (n < 6 * ((s + 1) * (s + 1))) by lia.
    apply IZR_lt in H. rewrite !mult_IZR, !plus_IZR in H. lra. }
  assert (Hs' : (0 <= IZR s)%R) by (apply IZR_le; lia).
  apply Zfloor_eq. split.
  - rewrite <- (sqrt_square (IZR s)) at 1 by lra.
    apply sqrt_le_1_alt. lra.
  - rewrite <- (sqrt_square (IZR s + 1)) by lra.
    apply sqrt_lt_1_alt. split; [|lra].
    apply Rle_trans with (IZR s * IZR s)%R; [nra|lra].
Qed.

Lemma cmp_size_eq (H W B : Z) :
  0 <= H * W -> Misc.cmp_size (H, W) B = Misc.cmp_size_Z (H, W) B.
Proof.
  intros Hn. unfold Misc.cmp_size, Misc.cmp_size_Z. cbn [fst snd].
  rewrite Zfloor_sqrt_div6 by done.
  set (v := Z.sqrt (H * W / 6)).
  destruct (Z.ltb_spec (2 * (v mod B)) B) as [Hlt|Hge].
  - rewrite bool_decide_eq_true_2; [done|].
    apply IZR_lt in Hlt. rewrite mult_IZR in Hlt. lra.
  - rewrite bool_decide_eq_false_2; [done|].
    apply IZR_le in Hge. rewrite mult_IZR in Hge. lra.
Qed.


Lemma round_to_multiple_spec (v B : Z) :
  0 < B ->
  Misc.round_to_multiple v B =
    if 2 * (v mod B) <? B then v + (B - v mod B) else v - v mod B.
Proof.
  intros HB. unfold Misc.round_to_multiple.
  pose proof (Z.div_mod v B ltac:(lia)).
  destruct (2 * (v mod B) <? B); lia.
Qed.

Lemma cmp_size_Z_round (H W B : Z) :
  0 < B ->
  Misc.cmp_size_Z (H, W) B =
    (2 * Misc.round_to_multiple (Z.sqrt (H * W / 6)) B,
     3 * Misc.round_to_multiple (Z.sqrt (H * W / 6)) B).
Proof.
  intros HB. rewrite round_to_multiple_spec by done.
  unfold Misc.cmp_size_Z. cbn [fst snd].
  destruct (2 * (Z.sqrt (H * W / 6) mod B) <? B); f_equal; lia.
Qed.

Lemma cmp_size_round (H W B : Z) :
  0 < H -> 0 < W -> 0 < B ->
  Misc.cmp_size (H, W) B =
    (2 * Misc.round_to_multiple (Zfloor (sqrt (IZR (H * W) / 6))) B,
     3 * Misc.round_to_multiple (Zfloor (sqrt (IZR (H * W) / 6))) B).
Proof.
  intros HH HW HB. rewrite cmp_size_eq by nia.
  rewrite Zfloor_sqrt_div6 by nia. by apply cmp_size_Z_round.
Qed.

(** C4 (as amended).  For positive [H], [W] and [B], [cmp_size] returns
    [(2F, 3F)] where [F] is [v = floor (sqrt (H*W/6))] rounded to a multiple
    of [B]: up, to [B * (v / B + 1)], when [v mod B < B/2], and down, to
    [B * (v / B)], otherwise.  For [(1024, 2048)] and [B = 32] the result is
    [(1216, 1824)]. *)
Theorem cmp_size_rounding (H W B : Z) :
  0 < H -> 0 < W -> 0 < B ->
  let v := Zfloor (sqrt (IZR (H * W) / 6)) in
  Misc.cmp_size (H, W) B =
    (2 * Misc.round_to_multiple v B, 3 * Misc.round_to_multiple v B)
  /\ Misc.cmp_size (1024, 2048) 32 = (1216, 1824).
Proof.
  intros HH HW HB v. split.
  - by apply cmp_size_round.
  - rewrite cmp_size_eq by lia. reflexivity.
Qed.

Lemma cmp_size_rounding_witness :
  Misc.cmp_size (512, 1024) 32 =
    (2 * Misc.round_to_multiple (Zfloor (sqrt (IZR (512 * 1024) / 6))) 32,
     3 * Misc.round_to_multiple (Zfloor (sqrt (IZR (512 * 1024) / 6))) 32)
  /\ Misc.cmp_size (1024, 2048) 32 = (1216, 1824).
Proof. apply (cmp_size_rounding 512 1024 32); lia. Defined.

(** The value the specification names for [(1024, 2048)] and [B = 32] is
    not the one computed. *)
Lemma cmp_size_1024_2048_not_1024_1536 :
  Misc.cmp_size (1024, 2048) 32 <> (1024, 1536).
Proof. rewrite cmp_size_eq by lia. vm_compute. discriminate. Qed.

(** C5 (as amended).  For positive [H], [W] and [B], [cmp_size] returns
    [(2F, 3F)] with [F mod B = 0] and [0 <= F]; and [B <= F] unless
    [B/2 <= floor (sqrt (H*W/6)) < B], in which case [F = 0]. *)
Theorem cmp_size_divisible (H W B : Z) :
  0 < H -> 0 < W -> 0 < B ->
  let v := Zfloor (sqrt (IZR (H * W) / 6)) in
  exists F : Z,
    Misc.cmp_size (H, W) B = (2 * F, 3 * F)
    /\ F mod B = 0
    /\ 0 <= F
    /\ (if decide (B <= 2 * v /\ v < B) then F = 0 else B <= F).
Proof.
  intros HH HW HB v.
  exists (Misc.round_to_multiple v B).
  split; [by apply cmp_size_round|].
  assert (Hv : 0 <= v).
  { subst v. rewrite Zfloor_sqrt_div6 by nia. apply Z.sqrt_nonneg. }
  clearbody v. unfold Misc.round_to_multiple.
  pose proof (Z.div_mod v B ltac:(lia)) as Hdm.
  pose proof (Z.mod_pos_bound v B HB) as Hm.
  assert (Hq : 0 <= v / B) by (apply Z.div_pos; lia).
  destruct (Z.ltb_spec (2 * (v mod B)) B) as [Hlt|Hge].
  - split; [|split].
    + rewrite Z.mul_comm. apply Z.mod_mul. lia.
    + nia.
    + destruct (decide _) as [[H1 H2]|Hn].
      * rewrite (Z.mod_small v B) in Hlt by lia. lia.
      * nia.
  - split; [|split].
    + rewrite Z.mul_comm. apply Z.mod_mul. lia.
    + nia.
    + destruct (decide _) as [[H1 H2]|Hn].
      * rewrite (Z.div_small v B) by lia. lia.
      * assert (B <= v).
        { destruct (Z.le_gt_cases B v) as [|Hlt]; [done|].
          rewrite (Z.mod_small v B) in Hge by lia. lia. }
        assert (1 <= v / B) by (apply Z.div_le_lower_bound; lia).
        nia.
Qed.

Lemma cmp_size_divisible_witness :
  exists F : Z,
    Misc.cmp_size (1024, 2048) 32 = (2 * F, 3 * F)
    /\ F mod 32 = 0
    /\ 0 <= F
    /\ (if decide (32 <= 2 * Zfloor (sqrt (IZR (1024 * 2048) / 6))
                   /\ Zfloor (sqrt (IZR (1024 * 2048) / 6)) < 32)
        then F = 0 else 32 <= F).
Proof. apply (cmp_size_divisible 1024 2048 32); lia. Defined.

(** For a [50 x 50] image and [B = 32] the face size is [0], below [B]. *)
Lemma cmp_size_50_50_zero :
  Misc.cmp_size (50, 50) 32 = (0, 0)
  /\ ~ (exists F : Z, Misc.cmp_size (50, 50) 32 = (2 * F, 3 * F)
                      /\ F mod 32 = 0 /\ F >= 32).
Proof.
  assert (E : Misc.cmp_size (50, 50) 32 = (0, 0)).
  { rewrite cmp_size_eq by lia. reflexivity. }
  split; [done|].
  intros (F & HF & _ & Hge). rewrite E in HF. injection HF. lia.
Qed.

End cmp_size_facts.

(** Equality of tuples, component by component. *)
Ltac tuple_eq := repeat apply (f_equal2 pair).

(** ** [arctan2] *)

Section arctan2_facts.

Import coordinate_conversion.
#[local] Open Scope R_scope.

Lemma tan_shift_PI (x : R) : cos x <> 0 -> tan (x + PI) = tan x.
Proof.
  intros Hc. unfold tan. rewrite neg_sin, neg_cos. by field.
Qed.

Lemma tan_scale (r phi : R) :
  r <> 0 -> cos phi <> 0 -> r * sin phi / (r * cos phi) = tan phi.
Proof. intros Hr Hc. unfold tan. by field. Qed.

(** [arctan2] inverts the polar parametrisation on (-pi, pi]. *)
Lemma arctan2_polar (r phi : R) :
  0 < r -> - PI < phi <= PI ->
  arctan2 (r * sin phi) (r * cos phi) = phi.
Proof.
  intros Hr [Hlo Hhi]. pose proof PI_RGT_0 as Hpi.
  unfold arctan2.
  destruct (Rtotal_order phi (- (PI / 2))) as [Hl | [He | Hg]].
  - (* third quadrant *)
    assert (Hc : cos phi < 0).
    { rewrite <- cos_neg. apply cos_lt_0; lra. }
    assert (Hs : sin phi < 0) by (apply sin_lt_0_var; lra).
    assert (r * cos phi < 0) by nra. assert (r * sin phi < 0) by nra.
    rewrite decide_False by lra. rewrite decide_True by lra.
    rewrite decide_False by lra.
    rewrite tan_scale by lra. rewrite <- tan_shift_PI by lra.
    rewrite atan_tan by lra. lra.
  - subst phi. rewrite cos_neg, sin_neg, cos_PI2, sin_PI2.
    rewrite decide_False by lra. rewrite decide_False by lra.
    rewrite decide_False by lra. rewrite decide_True by lra. done.
  - destruct (Rtotal_order phi (PI / 2)) as [Hl | [He | Hg']].
    + assert (Hc : 0 < cos phi) by (apply cos_gt_0; lra).
      assert (0 < r * cos phi) by nra.
      rewrite decide_True by lra.
      rewrite tan_scale by lra. apply atan_tan. lra.
    + subst phi. rewrite cos_PI2, sin_PI2.
      rewrite decide_False by lra. rewrite decide_False by lra.
      rewrite decide_True by lra. done.
    + assert (Hc : cos phi < 0) by (apply cos_lt_0; lra).
      assert (Hs : 0 <= sin phi).
      { destruct (Req_dec phi PI) as [->|Hne].
        - rewrite sin_PI. lra.
        - left. apply sin_gt_0; lra. }
      assert (r * cos phi < 0) by nra. assert (0 <= r * sin phi) by nra.
      rewrite decide_False by lra. rewrite decide_True by lra.
      rewrite decide_True by lra.
      rewrite tan_scale by lra.
      replace phi with (phi - PI + PI) at 1 by lra.
      rewrite tan_shift_PI.
      * rewrite atan_tan by lra. lra.
      * replace (phi - PI) with (- (PI - phi)) by lra. rewrite cos_neg.
        assert (0 < cos (PI - phi)) by (apply cos_gt_0; lra). lra.
Qed.

Lemma sqrt_sum_sqr_pos (a b : R) :
  a <> 0 \/ b <> 0 -> 0 < sqrt (Rsqr a + Rsqr b).
Proof.
  intros H. apply sqrt_lt_R0. unfold Rsqr. destruct H; nra.
Qed.

Lemma sqrt_1_plus_sqr_div (a b : R) :
  a <> 0 -> sqrt (1 + Rsqr (b / a)) = sqrt (Rsqr a + Rsqr b) / Rabs a.
Proof.
  intros Ha.
  assert (0 < Rsqr a) by (unfold Rsqr; nra).
  replace (1 + Rsqr (b / a)) with ((Rsqr a + Rsqr b) / Rsqr a).
  - rewrite sqrt_div_alt by done. by rewrite sqrt_Rsqr_abs.
  - unfold Rsqr. by field.
Qed.

(** Cosine and sine of [arctan2 b a] away from the origin. *)
Lemma cos_sin_arctan2 (b a : R) :
  a <> 0 \/ b <> 0 ->
  cos (arctan2 b a) = a / sqrt (Rsqr a + Rsqr b)
  /\ sin (arctan2 b a) = b / sqrt (Rsqr a + Rsqr b).
Proof.
  intros Hne. pose proof (sqrt_sum_sqr_pos a b Hne) as Hrho.
  unfold arctan2.
  destruct (decide (0 < a)) as [Hpos|Hnpos]; [|destruct (decide (a < 0)) as [Hneg|Hnneg]].
  - rewrite cos_atan, sin_atan, sqrt_1_plus_sqr_div by lra.
    rewrite Rabs_pos_eq by lra. split; field; lra.
  - assert (Hs : sqrt (1 + Rsqr (b / a)) = sqrt (Rsqr a + Rsqr b) / - a).
    { rewrite sqrt_1_plus_sqr_div by lra. by rewrite Rabs_left. }
    destruct (decide (0 <= b)).
    + rewrite neg_cos, neg_sin, cos_atan, sin_atan, Hs. split; field; lra.
    + replace (atan (b / a) - PI) with (- (PI - atan (b / a))) by lra.
      rewrite cos_neg, sin_neg.
      replace (PI - atan (b / a)) with (- atan (b / a) + PI) by lra.
      rewrite neg_cos, neg_sin, cos_neg, sin_neg, cos_atan, sin_atan, Hs.
      split; field; lra.
  - assert (a = 0) by lra. subst a.
    assert (Hb : b <> 0) by (destruct Hne; [lra|done]).
    rewrite Rsqr_0, Rplus_0_l, sqrt_Rsqr_abs in *.
    destruct (decide (0 < b)); [|destruct (decide (b < 0)); [|lra]].
    + rewrite cos_PI2, sin_PI2, Rabs_pos_eq by lra. split; field; lra.
    + rewrite cos_neg, sin_neg, cos_PI2, sin_PI2, Rabs_left by lra.
      split; field; lra.
Qed.

End arctan2_facts.

(** ** Equirectangular projection *)

Section erp_facts.

Import coordinate_conversion.
#[local] Open Scope R_scope.

Lemma sin_cos_shift_2PI (x : R) :
  sin (x + 2 * PI) = sin x /\ cos (x + 2 * PI) = cos x.
Proof.
  rewrite sin_plus, cos_plus, sin_2PI, cos_2PI. split; ring.
Qed.

Lemma Rdiv_lt_1 (a b : R) : 0 < b -> a < b -> a / b < 1.
Proof.
  intros Hb Hab. pose proof (Rinv_0_lt_compat b Hb) as Hi.
  replace 1 with (b * / b) by (field; lra). unfold Rdiv. nra.
Qed.

Lemma Rdiv_ge_0 (a b : R) : 0 < b -> 0 <= a -> 0 <= a / b.
Proof.
  intros Hb Ha. pose proof (Rinv_0_lt_compat b Hb) as Hi. unfold Rdiv. nra.
Qed.

Lemma unit_spherical (theta phi : R) :
  Rsqr (1 * sin theta * cos phi) + Rsqr (1 * sin theta * sin phi)
    + Rsqr (1 * cos theta) = 1.
Proof.
  pose proof (sin2_cos2 theta) as Ht. pose proof (sin2_cos2 phi) as Hp.
  unfold Rsqr in *.
  replace (1 * sin theta * cos phi * (1 * sin theta * cos phi)
           + 1 * sin theta * sin phi * (1 * sin theta * sin phi)
           + 1 * cos theta * (1 * cos theta))
    with (sin theta * sin theta * (sin phi * sin phi + cos phi * cos phi)
          + cos theta * cos theta) by ring.
  rewrite Hp. lra.
Qed.

(** The round trip on the continuous coordinates whose angles stay in
    range: [theta] in [0, pi] with a positive sine, [phi] in (-2 pi, 0]. *)
Lemma erp_real_round_trip (H W : Z) (y x : R) :
  (0 < H)%Z -> (0 < W)%Z ->
  -0.5 < y < IZR H - 0.5 -> -0.5 <= x < IZR W - 0.5 ->
  let p := EquirectangularProjection.mk (H, W) in
  let '(xs, ys, zs) := EquirectangularProjection.to_sphere p y x in
  EquirectangularProjection.from_sphere p xs ys zs = (y, x).
Proof.
  intros HH HW Hy Hx p. pose proof PI_RGT_0 as Hpi.
  apply IZR_lt in HH, HW.
  unfold EquirectangularProjection.to_sphere, spherical_to_cartesian. subst p.
  cbn [EquirectangularProjection._size fst snd].
  set (theta := (y + 0.5) / IZR H * PI).
  set (phi := - ((x + 0.5) / IZR W) * 2 * PI).
  assert (Htheta : 0 < theta < PI).
  { subst theta. split.
    - apply Rmult_lt_0_compat; [apply Rdiv_lt_0_compat|]; lra.
    - rewrite <- (Rmult_1_l PI) at 2. apply Rmult_lt_compat_r; [done|].
      apply Rdiv_lt_1; lra. }
  assert (Hphi : - (2 * PI) < phi <= 0).
  { assert (0 <= (x + 0.5) / IZR W < 1) as [H0 H1].
    { split; [apply Rdiv_ge_0; lra|apply Rdiv_lt_1; lra]. }
    subst phi. nra. }
  unfold EquirectangularProjection.from_sphere, cartesian_to_spherical.
  cbn [EquirectangularProjection._size fst snd].
  rewrite unit_spherical, sqrt_1, Rdiv_1_r, !Rmult_1_l.
  rewrite acos_cos by lra.
  assert (Hsin : 0 < sin theta) by (apply sin_gt_0; lra).
  assert (Hback : forall a b : R, a = theta -> b = phi ->
            (a / PI * IZR H - 0.5, - (b / (2 * PI)) * IZR W - 0.5) = (y, x)).
  { intros a b -> ->. subst theta phi. f_equal; field; lra. }
  destruct (Rle_lt_dec phi (- PI)) as [Hle|Hgt].
  - destruct (sin_cos_shift_2PI phi) as [Es Ec].
    rewrite <- Es, <- Ec, arctan2_polar by lra.
    rewrite decide_True by lra. apply Hback; lra.
  - rewrite arctan2_polar by lra.
    rewrite decide_False by lra. by apply Hback.
Qed.

(** C1.  For an equirectangular projection of positive size [(H, W)] and
    every pixel centre [(y, x)], [0 <= y < H] and [0 <= x < W],
    [from_sphere (to_sphere (y, x))] is [(y, x)], exactly over the reals;
    for [H = W = 8] and the pixel [(3, 5)] the round trip returns
    [(3, 5)]. *)
Theorem erp_round_trip (H W y x : Z) :
  (0 < H)%Z -> (0 < W)%Z -> (0 <= y < H)%Z -> (0 <= x < W)%Z ->
  (let p := EquirectangularProjection.mk (H, W) in
   let '(xs, ys, zs) := EquirectangularProjection.to_sphere p (IZR y) (IZR x) in
   EquirectangularProjection.from_sphere p xs ys zs = (IZR y, IZR x))
  /\ (let p := EquirectangularProjection.mk (8, 8)%Z in
      let '(xs, ys, zs) := EquirectangularProjection.to_sphere p 3 5 in
      EquirectangularProjection.from_sphere p xs ys zs = (3, 5)).
Proof.
  intros HH HW [Hy0 Hy1] [Hx0 Hx1]. split.
  - apply IZR_le in Hy0, Hx0.
    assert (IZR y <= IZR H - 1 /\ IZR x <= IZR W - 1) as [Hy Hx].
    { split; rewrite <- minus_IZR; apply IZR_le; lia. }
    apply erp_real_round_trip; [done|done|lra|lra].
  - apply (erp_real_round_trip 8 8 3 5); [done|done|lra|lra].
Qed.

Lemma erp_round_trip_witness :
  (let p := EquirectangularProjection.mk (4, 6)%Z in
   let '(xs, ys, zs) := EquirectangularProjection.to_sphere p (IZR 1) (IZR 2) in
   EquirectangularProjection.from_sphere p xs ys zs = (IZR 1, IZR 2))
  /\ (let p := EquirectangularProjection.mk (8, 8)%Z in
      let '(xs, ys, zs) := EquirectangularProjection.to_sphere p 3 5 in
      EquirectangularProjection.from_sphere p xs ys zs = (3, 5)).
Proof. apply (erp_round_trip 4 6 1 2); lia. Defined.

End erp_facts.

(** ** Rotation matrix *)

Section rotation_facts.

Import coordinate_conversion ViewportAdaptiveResampler.
#[local] Open Scope R_scope.

Lemma mat_mul_vec (a b : mat3) (v : vec3) :
  mat_vec (mat_mul a b) v = mat_vec a (mat_vec b v).
Proof.
  destruct a as [[[[a11 a12] a13] [[a21 a22] a23]] [[a31 a32] a33]].
  destruct b as [[[[b11 b12] b13] [[b21 b22] b23]] [[b31 b32] b33]].
  destruct v as [[v1 v2] v3].
  unfold mat_vec, mat_mul, col, dot3, CubemapProjection.tuple_get.
  cbn [fst snd]. tuple_eq; ring.
Qed.

(** [Ry(beta) * Rz(gamma)] is orthogonal, whatever the two angles. *)
Lemma rotation_yz_orthogonal (cg sg cb sb : R) :
  Rsqr sg + Rsqr cg = 1 -> Rsqr sb + Rsqr cb = 1 ->
  let m := mat_mul ((cb, 0, sb), (0, 1, 0), (- sb, 0, cb))
                   ((cg, - sg, 0), (sg, cg, 0), (0, 0, 1)) in
  mat_mul m (transpose m) = identity /\ mat_mul (transpose m) m = identity.
Proof.
  intros Hg Hb. unfold Rsqr in Hg, Hb. cbv zeta.
  assert (Eg : sg * sg = 1 - cg * cg) by lra.
  assert (Eb : sb * sb = 1 - cb * cb) by lra.
  unfold mat_mul, transpose, col, dot3, identity, CubemapProjection.tuple_get.
  cbn [fst snd].
  split; tuple_eq; nsatz.
Qed.

Lemma cos_sin_PI_minus (a : R) :
  cos (PI - a) = - cos a /\ sin (PI - a) = sin a.
Proof. rewrite cos_minus, sin_minus, cos_PI, sin_PI. split; ring. Qed.

(** The first rotation, about the z axis, brings [(x, y, z)] into the
    half plane [y = 0], [x <= 0]. *)
Lemma rotation_z_aligns (x y z : R) :
  let gamma := PI - arctan2 y x in
  mat_vec ((cos gamma, - sin gamma, 0), (sin gamma, cos gamma, 0), (0, 0, 1))
          (x, y, z)
  = (- sqrt (Rsqr x + Rsqr y), 0, z).
Proof.
  intros gamma. subst gamma.
  destruct (cos_sin_PI_minus (arctan2 y x)) as [-> ->].
  unfold mat_vec, dot3. cbn [fst snd].
  assert (Hcases : (x <> 0 \/ y <> 0) \/ (x = 0 /\ y = 0)).
  { destruct (Req_dec x 0); destruct (Req_dec y 0); tauto. }
  destruct Hcases as [Hne|[-> ->]].
  - destruct (cos_sin_arctan2 y x Hne) as [-> ->].
    pose proof (sqrt_sum_sqr_pos x y Hne) as Hrho.
    pose proof (sqrt_sqrt (Rsqr x + Rsqr y)
                  ltac:(unfold Rsqr; nra)) as Hsq.
    set (rho := sqrt (Rsqr x + Rsqr y)) in *. clearbody rho.
    unfold Rsqr in Hsq. tuple_eq.
    + replace (- (x / rho) * x + - (y / rho) * y + 0 * z)
        with (- (x * x + y * y) / rho) by (field; lra).
      rewrite <- Hsq. field. lra.
    + field. lra.
    + ring.
  - rewrite Rsqr_0, Rplus_0_l, sqrt_0. tuple_eq; ring.
Qed.

(** C2.  For a unit vector [(x, y, z)] the matrix of [_rotation_matrix],
    the product [Ry(beta) * Rz(gamma)] with [gamma = pi - atan2(y, x)] and
    [beta = - atan2(z', |x'|)], is orthogonal and maps [(x, y, z)] to
    [(-1, 0, 0)], exactly over the reals. *)
Theorem rotation_matrix_aligns (x y z : R) :
  Rsqr x + Rsqr y + Rsqr z = 1 ->
  let m := _rotation_matrix x y z in
  mat_mul m (transpose m) = identity
  /\ mat_mul (transpose m) m = identity
  /\ mat_vec m (x, y, z) = (-1, 0, 0).
Proof.
  intros Hunit. unfold _rotation_matrix. cbv zeta.
  pose proof (rotation_z_aligns x y z) as Hz. cbv zeta in Hz.
  rewrite Hz. cbn [fst snd].
  set (gamma := PI - arctan2 y x) in *.
  set (rho := sqrt (Rsqr x + Rsqr y)).
  set (beta := - arctan2 z (Rabs (- rho))).
  destruct (rotation_yz_orthogonal (cos gamma) (sin gamma) (cos beta) (sin beta)
              (sin2_cos2 gamma) (sin2_cos2 beta)) as [Ho1 Ho2].
  split; [exact Ho1|split; [exact Ho2|]].
  rewrite mat_mul_vec, Hz. fold rho.
  assert (Hrho0 : 0 <= rho) by apply sqrt_pos.
  assert (Hrho2 : Rsqr rho = Rsqr x + Rsqr y).
  { unfold Rsqr at 1. apply sqrt_sqrt. unfold Rsqr. nra. }
  assert (Hone : Rsqr rho + Rsqr z = 1) by lra.
  assert (Hne : rho <> 0 \/ z <> 0).
  { destruct (Req_dec z 0) as [->|]; [left|by right].
    rewrite Rsqr_0 in Hone. unfold Rsqr in Hone. nra. }
  destruct (cos_sin_arctan2 z rho Hne) as [Hc Hs].
  rewrite Hone, sqrt_1, Rdiv_1_r in Hc, Hs.
  assert (Ec : cos beta = rho).
  { subst beta. by rewrite cos_neg, Rabs_Ropp, Rabs_pos_eq. }
  assert (Es : sin beta = - z).
  { subst beta. by rewrite sin_neg, Rabs_Ropp, Rabs_pos_eq, Hs. }
  rewrite Ec, Es. unfold mat_vec, dot3. cbn [fst snd].
  unfold Rsqr in Hone. tuple_eq; nra.
Qed.

Lemma rotation_matrix_aligns_witness :
  let m := _rotation_matrix 0 0 1 in
  mat_mul m (transpose m) = identity
  /\ mat_mul (transpose m) m = identity
  /\ mat_vec m (0, 0, 1) = (-1, 0, 0).
Proof. apply (rotation_matrix_aligns 0 0 1). unfold Rsqr. lra. Defined.

End rotation_facts.

(** ** Boolean-mask indexing *)

Section mask_facts.

Context {A : Type}.

(** The entries selected by the mask of a predicate satisfy it. *)
Lemma np_select_forallb (f : A -> bool) (l : list A) :
  forallb f (np_select (map f l) l) = true.
Proof.
  induction l as [|a l IH]; [done|].
  cbn. destruct (f a) eqn:E; [|done]. cbn. by rewrite E.
Qed.


Lemma np_select_length {B : Type} (mask : list bool) (a : list B) :
  length a = length mask ->
  length (np_select mask a) = length (np_select mask mask).
Proof.
  revert a. induction mask as [|b mask IH]; intros [|v a] Hlen; try done.
  cbn in *. destruct b; cbn; rewrite IH; lia.
Qed.

End mask_facts.

(** ** Cubemap projection *)

Section cmp_facts.

Import coordinate_conversion CubemapProjection.
#[local] Open Scope R_scope.

Lemma init_ok (size : Z * Z) :
  init size = Ok (mk size top left front right back bottom).
Proof. reflexivity. Qed.

(** C9 (as amended).  [CubemapProjection.__init__] checks nothing about
    the canvas: construction succeeds for every size, whether or not it is
    of the form [(2F, 3F)], and stores that size. *)
Theorem cmp_init_total (size : Z * Z) :
  exists p : CubemapProjection.t,
    init size = Ok p /\ _size p = size
    /\ regions p = [top; left; front; right; back; bottom].
Proof. eexists. rewrite init_ok. done. Qed.

(** A [5 x 7] canvas is not in the ratio 2:3 and is accepted. *)
Lemma cmp_init_5_7_accepted :
  is_ok (init (5, 7)%Z) = true
  /\ ~ (exists F : Z, (5, 7)%Z = (2 * F, 3 * F)%Z).
Proof.
  split; [by rewrite init_ok|].
  intros [F HF]. injection HF. lia.
Qed.

(** *** Spherical coordinates of a non-zero vector *)

Lemma norm_pos (x y z : R) :
  x <> 0 \/ y <> 0 \/ z <> 0 -> 0 < sqrt (Rsqr x + Rsqr y + Rsqr z).
Proof.
  intros H. apply sqrt_lt_R0. unfold Rsqr. destruct H as [|[|]]; nra.
Qed.

(** With [(r, theta, phi) = cartesian_to_spherical x y z], the products
    that [spherical_to_cartesian] forms are the direction cosines. *)
Lemma direction_cosines (x y z : R) :
  x <> 0 \/ y <> 0 \/ z <> 0 ->
  let r := sqrt (Rsqr x + Rsqr y + Rsqr z) in
  let theta := acos (z / r) in
  let phi := arctan2 y x in
  sin theta * cos phi = x / r
  /\ sin theta * sin phi = y / r
  /\ cos theta = z / r.
Proof.
  intros Hne r theta phi.
  pose proof (norm_pos x y z Hne) as Hr. fold r in Hr.
  assert (Hr2 : r * r = x * x + y * y + z * z).
  { subst r. apply sqrt_sqrt. unfold Rsqr. nra. }
  assert (Hzr : -1 <= z / r <= 1).
  { assert (- r <= z <= r) by nra.
    pose proof (Rinv_0_lt_compat r Hr) as Hi.
    assert (r * / r = 1) by (field; lra).
    unfold Rdiv. nra. }
  assert (Hsin : sin theta = sqrt (Rsqr x + Rsqr y) / r).
  { subst theta. rewrite sin_acos by done.
    replace (1 - Rsqr (z / r)) with ((Rsqr x + Rsqr y) / Rsqr r).
    - rewrite sqrt_div_alt by (unfold Rsqr; nra).
      by rewrite sqrt_Rsqr by lra.
    - unfold Rsqr. replace (x * x + y * y) with (r * r - z * z) by lra.
      field. lra. }
  split; [|split]; [| |by apply cos_acos].
  - rewrite Hsin. subst phi.
    destruct (Req_dec x 0) as [->|Hx]; [destruct (Req_dec y 0) as [->|Hy]|].
    + rewrite Rsqr_0, Rplus_0_l, sqrt_0. unfold Rdiv. ring.
    + destruct (cos_sin_arctan2 y 0) as [-> _]; [by right|].
      unfold Rdiv. ring.
    + destruct (cos_sin_arctan2 y x) as [-> _]; [by left|].
      pose proof (sqrt_sum_sqr_pos x y ltac:(by left)). field. lra.
  - rewrite Hsin. subst phi.
    destruct (Req_dec x 0) as [->|Hx]; [destruct (Req_dec y 0) as [->|Hy]|].
    + rewrite Rsqr_0, Rplus_0_l, sqrt_0. unfold Rdiv. ring.
    + destruct (cos_sin_arctan2 y 0) as [_ ->]; [by right|].
      pose proof (sqrt_sum_sqr_pos 0 y ltac:(by right)). field. lra.
    + destruct (cos_sin_arctan2 y x) as [_ ->]; [by left|].
      pose proof (sqrt_sum_sqr_pos x y ltac:(by left)). field. lra.
Qed.

(** *** [to_2d]: intersection of the ray with the face plane *)

Lemma to_2d_point_on_plane (self : Region) (p : R * R * R) :
  tuple_get p (_ax_to_idx (plane_axis_3d self)) <> 0 ->
  to_2d_point self p =
    (val2d_for_3d (y_map self)
       (tuple_get (on_plane self p) (_ax_to_idx (axis_3d (y_map self)))),
     val2d_for_3d (x_map self)
       (tuple_get (on_plane self p) (_ax_to_idx (axis_3d (x_map self))))).
Proof.
  destruct p as [[x y] z]. intros Hp.
  assert (Hne : x <> 0 \/ y <> 0 \/ z <> 0).
  { destruct (plane_axis_3d self); cbn in Hp; tauto. }
  pose proof (norm_pos x y z Hne) as Hr.
  destruct (direction_cosines x y z Hne) as (Hx & Hy & Hz).
  unfold to_2d_point, cartesian_to_spherical, spherical_to_cartesian, on_plane.
  cbn [fst snd].
  set (r := sqrt (Rsqr x + Rsqr y + Rsqr z)) in *.
  set (theta := acos (z / r)) in *.
  set (phi := arctan2 y x) in *.
  rewrite !(Rmult_assoc _ (sin theta)), Hx, Hy, Hz.
  assert (Hq : forall a : R, a <> 0 ->
            (plane_val_3d self / (a / r) * (x / r),
             plane_val_3d self / (a / r) * (y / r),
             plane_val_3d self / (a / r) * (z / r))
            = (plane_val_3d self / a * x, plane_val_3d self / a * y,
               plane_val_3d self / a * z)).
  { intros a Ha. tuple_eq; field; lra. }
  destruct (plane_axis_3d self); cbn [_ax_to_idx tuple_get fst snd] in *;
    by rewrite Hq.
Qed.

(** *** The six masks *)

Ltac unfold_region :=
  cbn [top left front right back bottom
       plane_axis_3d plane_val_3d x_map y_map axis_3d interval_2d interval_3d
       _ax_to_idx tuple_get fst snd] in *.

(** Decides a mask from the order facts in the context. *)
Ltac solve_mask :=
  unfold within_cubeface_mask, np_sign; unfold_region;
  repeat (case_decide; try lra);
  repeat (case_bool_decide; try lra);
  try reflexivity.

(** The rescaled in-plane coordinates stay strictly inside (-1, 1). *)
Lemma ratio_bound (pv a b : R) :
  pv = 1 \/ pv = -1 -> Rabs b < Rabs a -> -1 < pv / a * b < 1.
Proof.
  intros Hpv Hab.
  assert (Ha : a <> 0).
  { intros ->. rewrite Rabs_R0 in Hab. pose proof (Rabs_pos b). lra. }
  enough (Rabs (pv / a * b) < 1) as HH by (apply Rabs_def2 in HH; lra).
  unfold Rdiv. rewrite !Rabs_mult, Rabs_inv.
  assert (Rabs pv = 1) as ->.
  { destruct Hpv as [-> | ->]; [apply Rabs_R1|].
    rewrite Rabs_left; lra. }
  pose proof (Rabs_pos_lt a Ha) as Hpos.
  pose proof (Rabs_pos b) as Hb.
  pose proof (Rinv_0_lt_compat _ Hpos) as Hi.
  assert (Rabs a * / Rabs a = 1) by (field; lra).
  nra.
Qed.

(** Decides [within_region_mask] for the image of a direction, given the
    bounds of its two in-plane coordinates. *)
Ltac solve_region_mask :=
  unfold within_region_mask, val2d_for_3d, lerp, on_plane; unfold_region;
  unfold Rmin, Rmax; repeat destruct (Rle_dec _ _); try lra;
  rewrite !bool_decide_eq_true_2 by lra; reflexivity.

(** Evaluates one mask of the tuple, whichever way it comes out. *)
Ltac eval_mask r x y z :=
  first [ replace (within_cubeface_mask r (x, y, z)) with true by solve_mask
        | replace (within_cubeface_mask r (x, y, z)) with false by solve_mask ].

(** Settles the case where region [r], with plane value [pv] on the
    dominant component [a], claims the direction [(x, y, z)]. *)
Ltac claim_region r x y z pv a :=
  exists r; split;
  [ cbn [List.filter];
    eval_mask top x y z; eval_mask left x y z; eval_mask front x y z;
    eval_mask right x y z; eval_mask back x y z; eval_mask bottom x y z;
    reflexivity
  | match goal with
    | Hfin : forall r : Region, _ |- _ =>
        apply Hfin; [solve_mask | unfold_region; lra |]
    end;
    rewrite to_2d_point_on_plane by (unfold_region; lra);
    pose proof (ratio_bound pv a x ltac:(lra));
    pose proof (ratio_bound pv a y ltac:(lra));
    pose proof (ratio_bound pv a z ltac:(lra));
    solve_region_mask ].

(** A direction off the edges is claimed by exactly one region of the
    tuple, and that region maps it into its part of the canvas. *)
Lemma partition_core (p : R * R * R) :
  off_edge p ->
  exists r : Region,
    List.filter (fun r => within_cubeface_mask r p)
      [top; left; front; right; back; bottom] = [r]
    /\ exists y x : R,
         to_2d r [p] = Ok [(y, x)] /\ within_region_mask r y x = true.
Proof.
  destruct p as [[x y] z]. unfold off_edge. cbn [fst snd].
  pose proof (Rabs_pos x) as Hax. pose proof (Rabs_pos y) as Hay.
  pose proof (Rabs_pos z) as Haz.
  assert (Hsgn : forall v : R, 0 < Rabs v ->
            (0 < v /\ Rabs v = v) \/ (v < 0 /\ Rabs v = - v)).
  { intros v Hv. unfold Rabs in *. destruct (Rcase_abs v); lra. }
  assert (Hfin : forall r : Region,
            within_cubeface_mask r (x, y, z) = true ->
            tuple_get (x, y, z) (_ax_to_idx (plane_axis_3d r)) <> 0 ->
            within_region_mask r (to_2d_point r (x, y, z)).1
              (to_2d_point r (x, y, z)).2 = true ->
            exists y' x' : R,
              to_2d r [(x, y, z)] = Ok [(y', x')]
              /\ within_region_mask r y' x' = true).
  { intros r Hm _ Hin. eexists _, _. split; [|exact Hin].
    unfold to_2d. cbn [forallb]. rewrite Hm. cbn.
    by destruct (to_2d_point r (x, y, z)). }
  intros [[H1 H2] | [[H1 H2] | [H1 H2]]].
  - destruct (Hsgn x ltac:(lra)) as [[Hs Ha] | [Hs Ha]].
    + claim_region back x y z 1 x.
    + claim_region front x y z (-1) x.
  - destruct (Hsgn y ltac:(lra)) as [[Hs Ha] | [Hs Ha]].
    + claim_region right x y z 1 y.
    + claim_region left x y z (-1) y.
  - destruct (Hsgn z ltac:(lra)) as [[Hs Ha] | [Hs Ha]].
    + claim_region top x y z 1 z.
    + claim_region bottom x y z (-1) z.
Qed.

(** C3.  For every unit vector off the cube edges, exactly one of the six
    regions' [within_cubeface_mask] is true, and [to_2d] of that region maps
    the vector into the region's two 2D intervals. *)
Theorem cmp_partition (size : Z * Z) (c : CubemapProjection.t) (p : R * R * R) :
  init size = Ok c ->
  unit_vector p ->
  off_edge p ->
  length (List.filter (fun r => within_cubeface_mask r p) (regions c)) = 1%nat
  /\ forall r : Region,
       In r (regions c) -> within_cubeface_mask r p = true ->
       exists y x : R,
         to_2d r [p] = Ok [(y, x)] /\ within_region_mask r y x = true.
Proof.
  rewrite init_ok. intros [= <-] _ Hoff.
  destruct (partition_core p Hoff) as (r0 & Hfilter & Hto).
  unfold regions. cbn [top_region left_region front_region right_region
       back_region bottom_region].
  rewrite Hfilter. split; [done|].
  intros r Hin Hm.
  assert (Hr : In r [r0]).
  { rewrite <- Hfilter. apply filter_In. by split. }
  destruct Hr as [<-|[]]. exact Hto.
Qed.

Lemma cmp_partition_witness :
  length (List.filter (fun r => within_cubeface_mask r (0, 0, 1))
            (regions (mk (64, 96)%Z top left front right back bottom)))
    = 1%nat
  /\ forall r : Region,
       In r (regions (mk (64, 96)%Z top left front right back bottom)) ->
       within_cubeface_mask r (0, 0, 1) = true ->
       exists y x : R,
         to_2d r [(0, 0, 1)] = Ok [(y, x)] /\ within_region_mask r y x = true.
Proof.
  apply (cmp_partition (64, 96)%Z).
  - reflexivity.
  - unfold unit_vector, Rsqr. cbn [fst snd]. lra.
  - unfold off_edge. cbn [fst snd]. rewrite Rabs_R0, Rabs_R1. lra.
Defined.

(** *** [from_sphere] *)




(** A region claims only directions off the edges. *)
Lemma mask_off_edge (c : CubemapProjection.t) (size : Z * Z)
    (r : Region) (p : R * R * R) :
  init size = Ok c -> In r (regions c) ->
  within_cubeface_mask r p = true -> off_edge p.
Proof.
  rewrite init_ok. intros [= <-] Hin.
  destruct p as [[x y] z]. unfold off_edge. cbn [fst snd].
  unfold within_cubeface_mask. rewrite !andb_true_iff, !bool_decide_eq_true.
  intros [[_ H1] H2]. revert H1 H2.
  cbn in Hin. destruct Hin as [<-|[<-|[<-|[<-|[<-|[<-|[]]]]]]];
    unfold_region; intros; lra.
Qed.




(** The direction [(1, 1, 0)] lies on a cube edge. *)
Lemma edge_example : on_edge (1, 1, 0).
Proof.
  unfold on_edge, off_edge. cbn [fst snd]. rewrite Rabs_R0, Rabs_R1. lra.
Qed.

End cmp_facts.

(** ** FSMR: shapes and failures *)

Section fsmr_shapes.

Import fsmr.
#[local] Open Scope R_scope.

Lemma bind_Ok {A B : Type} (a : A) (k : A -> result B) :
  (Ok a ≫= k) = k a.
Proof. reflexivity. Qed.

Lemma bind_Raise {A B : Type} (e : exn) (k : A -> result B) :
  (Raise e ≫= k) = Raise e.
Proof. reflexivity. Qed.

Lemma np_broadcast_eq {A B C : Type} (f : A -> B -> C) (a : list A)
    (b : list B) :
  length a = length b -> np_broadcast f a b = Ok (zip_with f a b).
Proof. intros H. unfold np_broadcast. by rewrite decide_True. Qed.

(** An array of length 1 is broadcast against every array. *)
Lemma np_broadcast_single {A B C : Type} (f : A -> B -> C) (x : A)
    (b : list B) :
  np_broadcast f [x] b = Ok (map (f x) b).
Proof.
  unfold np_broadcast. case_decide as H; [|done].
  destruct b as [|y [|z b]]; done.
Qed.

Lemma np_broadcast_ok {A B C : Type} (f : A -> B -> C) (a : list A)
    (b : list B) :
  length a = length b \/ length a = 1%nat ->
  exists out : list C, np_broadcast f a b = Ok out /\ length out = length b.
Proof.
  intros [H|H].
  - rewrite np_broadcast_eq by done. eexists. split; [done|].
    rewrite length_zip_with. lia.
  - destruct a as [|x [|y a]]; try done.
    rewrite np_broadcast_single. eexists. split; [done|].
    by rewrite length_map.
Qed.

Lemma mapM_ok {A B : Type} (f : A -> result B) (g : A -> B) (l : list A) :
  (forall a : A, f a = Ok (g a)) -> mapM f l = Ok (map g l).
Proof.
  intros Hf. induction l as [|a l IH]; [done|].
  cbn. rewrite Hf. cbn. fold (mapM f l). by rewrite IH.
Qed.

Lemma mgrid_flat_ok (K : Z) :
  (0 <= K)%Z -> mgrid_flat K = Ok (grid_pairs K).
Proof. intros HK. unfold mgrid_flat. by rewrite decide_False by lia. Qed.

Lemma mgrid_flat_negative (K : Z) :
  (K < 0)%Z ->
  mgrid_flat K = Raise (ValueError "negative dimensions are not allowed").
Proof. intros HK. unfold mgrid_flat. by rewrite decide_True. Qed.

Lemma dct_basis_dict_ok (x y : list R) (K : Z) :
  (1 <= K)%Z -> length x = length y ->
  dct_basis_dict x y K = Ok (mkArray2 (length x) (basis_rows x y K)).
Proof.
  intros HK Hlen. unfold dct_basis_dict.
  rewrite decide_False by lia.
  rewrite mgrid_flat_ok, bind_Ok by lia.
  rewrite np_broadcast_eq by done. cbn.
  erewrite mapM_ok; [cbn|].
  - f_equal. f_equal. case_decide; congruence.
  - intros [k l]. cbn [fst snd].
    rewrite np_broadcast_eq by (by rewrite !length_map). done.
Qed.

Lemma dct_basis_dict_zero (x y : list R) :
  dct_basis_dict x y 0 = Raise ZeroDivisionError.
Proof. reflexivity. Qed.

Lemma dct_basis_dict_negative (x y : list R) (K : Z) :
  (K < 0)%Z ->
  dct_basis_dict x y K
  = Raise (ValueError "negative dimensions are not allowed").
Proof.
  intros HK. unfold dct_basis_dict.
  rewrite decide_False by lia. by rewrite mgrid_flat_negative.
Qed.

Lemma dct_frequency_weighting_ok (K : Z) (sigma : R) :
  (0 <= K)%Z -> dct_frequency_weighting K sigma = Ok (frequency_weights K sigma).
Proof.
  intros HK. unfold dct_frequency_weighting. by rewrite mgrid_flat_ok.
Qed.

Lemma basis_rows_length (x y : list R) (K : Z) :
  length (basis_rows x y K) = length (grid_pairs K).
Proof. unfold basis_rows. by rewrite length_map. Qed.

Lemma basis_rows_row_length (x y : list R) (K : Z) :
  length x = length y ->
  Forall (fun row => length row = length x) (basis_rows x y K).
Proof.
  intros Hlen. unfold basis_rows. apply Forall_fmap, Forall_forall.
  intros kl _. cbn.
  rewrite length_map, length_zip_with, !length_map. lia.
Qed.

Lemma bind_singleton_length {A B : Type} (f : A -> B) (s : list A) :
  length (a ← s; [f a]) = length s.
Proof. induction s as [|a s IH]; [done|]. cbn. by rewrite IH. Qed.

Lemma bind_pairs_length {A B : Type} (l : list A) (s : list B) :
  length (a ← l; b ← s; [(a, b)]) = (length l * length s)%nat.
Proof.
  induction l as [|a l IH]; [done|].
  cbn. by rewrite length_app, IH, (bind_singleton_length (pair a)).
Qed.

Lemma grid_pairs_length (K : Z) :
  length (grid_pairs K) = (Z.to_nat K * Z.to_nat K)%nat.
Proof. unfold grid_pairs. by rewrite bind_pairs_length, length_seqZ. Qed.

Lemma grid_pairs_nonempty (K : Z) : (1 <= K)%Z -> grid_pairs K <> [].
Proof.
  intros HK E. apply (f_equal length) in E.
  rewrite grid_pairs_length in E. cbn in E. nia.
Qed.

Lemma frequency_weights_length (K : Z) (sigma : R) :
  length (frequency_weights K sigma) = length (grid_pairs K).
Proof. unfold frequency_weights. by rewrite length_map. Qed.

(** *** Sums *)

Lemma Rsum_cons (a : R) (l : list R) : Rsum (a :: l) = a + Rsum l.
Proof. reflexivity. Qed.

Lemma Rsum_sqr_nonneg (l : list R) : 0 <= Rsum (map Rsqr l).
Proof.
  induction l as [|a l IH]; [cbn; lra|].
  cbn [map]. rewrite Rsum_cons. pose proof (Rle_0_sqr a). lra.
Qed.

Lemma Rsum_zip_const (l : list R) (c : R) :
  Rsum (zip_with Rmult l (replicate (length l) c)) = c * Rsum l.
Proof.
  induction l as [|a l IH]; [cbn; lra|].
  cbn [length replicate zip_with]. rewrite !Rsum_cons, IH. ring.
Qed.

Lemma atom_nonzero_energy (row : list R) :
  atom_nonzero row -> 0 < Rsum (map Rsqr row).
Proof.
  unfold atom_nonzero.
  induction 1 as [a l Ha | a l _ IH]; cbn [map]; rewrite Rsum_cons.
  - pose proof (Rsum_sqr_nonneg l).
    assert (0 < Rsqr a) by (by apply Rlt_0_sqr). lra.
  - pose proof (Rle_0_sqr a). lra.
Qed.

(** With all-ones weights the energy of an atom is the sum of its
    squares. *)
Lemma atom_energy_ones (row : list R) :
  atom_energy (replicate (length row) 1) row = Rsum (map Rsqr row).
Proof.
  unfold atom_energy. rewrite <- (length_map Rsqr row).
  rewrite Rsum_zip_const. lra.
Qed.

(** *** The selection of an atom *)

Lemma argmax_from_bound (l : list xfloat) (bi i : nat) (b : xfloat) :
  (bi < i)%nat -> (argmax_from bi b i l < i + length l)%nat.
Proof.
  revert bi i b. induction l as [|x l IH]; intros bi i b Hlt; cbn; [lia|].
  destruct (np_isnan x); [lia|]. destruct (xfloat_gt x b).
  - specialize (IH i (S i) x ltac:(lia)). lia.
  - specialize (IH bi (S i) b ltac:(lia)). lia.
Qed.

Lemma np_argmax_ok (l : list xfloat) :
  l <> [] -> exists idx : nat, np_argmax l = Ok idx /\ (idx < length l)%nat.
Proof.
  destruct l as [|x l]; [done|]. intros _. cbn [np_argmax].
  destruct (np_isnan x).
  - exists 0%nat. split; [done|]. cbn. lia.
  - eexists. split; [done|].
    pose proof (argmax_from_bound l 0 1 x ltac:(lia)). cbn. lia.
Qed.

(** When no energy is zero the objective has no infinite and no NaN
    entry. *)
Lemma objective_finite (f p D : list R) :
  Forall (fun d => d <> 0) D ->
  zip_with np_multiply f (zip_with np_true_divide p D)
  = map XFinite (zip_with Rmult f (zip_with Rdiv p D)).
Proof.
  intros HD. revert f p.
  induction HD as [|d D Hd _ IH]; intros [|fk f] [|pk p]; try done.
  cbn [zip_with map]. rewrite IH. f_equal.
  unfold np_true_divide. by rewrite decide_False.
Qed.

Lemma py_div_ok (a b : R) : b <> 0 -> py_div a b = Ok (a / b).
Proof. intros H. unfold py_div. by rewrite decide_False. Qed.

Lemma py_div_zero (a : R) : py_div a 0 = Raise ZeroDivisionError.
Proof. unfold py_div. by rewrite decide_True. Qed.

Lemma np_get_ok {A : Type} (a : list A) (i : nat) :
  (i < length a)%nat -> exists v : A, np_get a i = Ok v /\ a !! i = Some v.
Proof.
  intros Hi. destruct (lookup_lt_is_Some_2 a i Hi) as [v Hv].
  exists v. unfold np_get. by rewrite Hv.
Qed.

Lemma np_dot_ok (B : ndarray2) (N L : nat) (v : list R) :
  dict_shape B N L -> length v = N ->
  exists out : list R, np_dot B v = Ok out /\ length out = L.
Proof.
  intros (Hc & Hr & _) Hv. unfold np_dot.
  rewrite decide_True by congruence.
  eexists. split; [done|]. by rewrite length_map.
Qed.

Lemma np_square_shape (B : ndarray2) (N L : nat) :
  dict_shape B N L -> dict_shape (np_square B) N L.
Proof.
  intros (Hc & Hr & Hrows). unfold np_square, dict_shape. cbn.
  split; [done|]. split; [by rewrite length_map|].
  apply Forall_fmap. eapply Forall_impl; [exact Hrows|].
  intros row Hrow. cbn. by rewrite length_map.
Qed.

(** The vector of energies that [fsmr] computes before its loop. *)
Lemma energies_eq (B : ndarray2) (N L : nat) (w : list R) :
  dict_shape B N L -> length w = N ->
  np_dot (np_square B) w = Ok (map (atom_energy w) (rows B)).
Proof.
  intros (Hc & Hr & _) Hw. unfold np_dot. cbn [np_square ncols rows].
  rewrite decide_True by congruence. by rewrite map_map.
Qed.

(** One iteration on well-shaped data with no atom of zero energy does not
    raise and keeps the shapes.  A residual of length 1 is broadcast. *)
Lemma fsmr_step_ok (B : ndarray2) (N L : nat) (w f D : list R) (odc : R)
    (st : mp_state) :
  dict_shape B N L -> L <> 0%nat ->
  length w = N -> length f = L -> length D = L ->
  Forall (fun d => d <> 0) D ->
  length (residual st) = N \/ length (residual st) = 1%nat ->
  length (coeffs st) = L ->
  exists st' : mp_state,
    fsmr_step B w f D odc st = Ok st'
    /\ length (residual st') = N /\ length (coeffs st') = L.
Proof.
  intros HB HL Hw Hf HD HD0 Hres Hco. unfold fsmr_step.
  destruct (np_broadcast_ok Rmult (residual st) w) as (rw & -> & Hrw);
    [lia|].
  rewrite bind_Ok.
  destruct (np_dot_ok B N L rw HB) as (p & -> & Hp); [lia|].
  rewrite bind_Ok.
  rewrite np_broadcast_eq by (rewrite length_map; congruence).
  rewrite bind_Ok.
  rewrite np_broadcast_eq
    by (rewrite length_zip_with, length_map; lia).
  rewrite bind_Ok, objective_finite by done.
  set (obj := zip_with Rmult f (zip_with Rdiv (map Rsqr p) D)).
  assert (Hobj : length (map XFinite obj) = L).
  { subst obj. rewrite length_map, !length_zip_with, length_map. lia. }
  destruct (np_argmax_ok (map XFinite obj)) as (idx & -> & Hidx).
  { intros E. rewrite E in Hobj. cbn in Hobj. lia. }
  rewrite bind_Ok.
  destruct (np_get_ok p idx ltac:(lia)) as (pi & -> & _).
  rewrite bind_Ok.
  destruct (np_get_ok D idx ltac:(lia)) as (di & -> & Hdi).
  rewrite bind_Ok.
  rewrite py_div_ok by (by apply (proj1 (Forall_lookup _ _) HD0 idx)).
  rewrite bind_Ok.
  destruct (np_get_ok (coeffs st) idx ltac:(lia)) as (ci & -> & _).
  rewrite bind_Ok.
  destruct HB as (_ & Hr & Hrows).
  destruct (np_get_ok (rows B) idx ltac:(lia)) as (atom & -> & Hatom).
  rewrite bind_Ok.
  assert (length atom = N).
  { by apply (proj1 (Forall_lookup _ _) Hrows idx). }
  destruct (np_broadcast_ok Rminus (residual st)
              (map (fun b => odc * b * (pi / di)) atom))
    as (res' & -> & Hres'); [rewrite length_map; lia|].
  rewrite bind_Ok. eexists. split; [done|]. cbn [residual coeffs].
  rewrite length_map in Hres'. rewrite length_insert. lia.
Qed.

Lemma iterate_ok {S : Type} (P : S -> Prop) (body : S -> result S) (n : nat)
    (s : S) :
  (forall s : S, P s -> exists s' : S, body s = Ok s' /\ P s') ->
  P s -> exists s' : S, iterate n body s = Ok s' /\ P s'.
Proof.
  intros Hbody. revert s. induction n as [|n IH]; intros s Hs.
  - by exists s.
  - destruct (Hbody s Hs) as (s1 & E1 & H1).
    destruct (IH s1 H1) as (s' & E & H').
    exists s'. cbn. rewrite E1. cbn. done.
Qed.

(** [fsmr] on well-shaped data with no atom of zero energy returns [L]
    coefficients for every number of iterations. *)
Lemma fsmr_ok (B : ndarray2) (N L : nat) (mesh_val w f : list R) (odc : R)
    (T : Z) :
  dict_shape B N L -> L <> 0%nat ->
  length mesh_val = N \/ length mesh_val = 1%nat ->
  length w = N -> length f = L ->
  Forall (fun atom => atom_energy w atom <> 0) (rows B) ->
  exists c : list R,
    fsmr.fsmr mesh_val B w f odc T = Ok c /\ length c = L.
Proof.
  intros HB HL Hv Hw Hf Hen. unfold fsmr.fsmr.
  rewrite (energies_eq B N L w HB Hw), bind_Ok.
  assert (Hco : length (replicate (length (rows B)) 0) = L).
  { rewrite length_replicate. by destruct HB as (_ & ? & _). }
  destruct (iterate_ok
              (fun st => (length (residual st) = N
                          \/ length (residual st) = 1%nat)
                         /\ length (coeffs st) = L)
              (fsmr_step B w f (map (atom_energy w) (rows B)) odc)
              (Z.to_nat T)
              (mkState mesh_val (replicate (length (rows B)) 0)))
    as (st & -> & _ & Hst); [|done|by exists (coeffs st)].
  intros st [H1 H2].
  destruct (fsmr_step_ok B N L w f (map (atom_energy w) (rows B)) odc st)
    as (st' & E & H1' & H2'); try done.
  - rewrite length_map. by destruct HB as (_ & ? & _).
  - by apply Forall_fmap.
  - exists st'. split; [done|]. split; [by left|done].
Qed.

Lemma Rsum_zip_zero (r : list R) (n : nat) :
  Rsum (zip_with Rmult r (replicate n 0)) = 0.
Proof.
  revert n. induction r as [|a r IH]; intros [|n]; cbn; try done.
  rewrite IH. lra.
Qed.

(** With no iteration [fsmr] returns the zero coefficients, whatever the
    signal is. *)
Lemma fsmr_no_iteration (B : ndarray2) (N L : nat) (mesh_val w f : list R)
    (odc : R) (T : Z) :
  dict_shape B N L -> (T <= 0)%Z -> length w = N ->
  fsmr.fsmr mesh_val B w f odc T = Ok (replicate L 0).
Proof.
  intros HB HT Hw. unfold fsmr.fsmr.
  rewrite (energies_eq B N L w HB Hw), bind_Ok.
  replace (Z.to_nat T) with 0%nat by lia. cbn.
  by destruct HB as (_ & -> & _).
Qed.

(** Two arrays of different lengths, the first not of length 1: the
    broadcast raises unless the second has length 1. *)
Lemma np_broadcast_mismatch {A B C : Type} (f : A -> B -> C) (a : list A)
    (b : list B) :
  length a <> length b -> length a <> 1%nat ->
  (exists msg : string, np_broadcast f a b = Raise (ValueError msg))
  \/ (length b = 1%nat
      /\ exists out : list C,
           np_broadcast f a b = Ok out /\ length out = length a).
Proof.
  intros Hab Ha. unfold np_broadcast. rewrite decide_False by done.
  destruct a as [|x [|y a]]; [|done|];
    (destruct b as [|u [|v b]];
     [left; by eexists
     |right; split; [done|]; eexists; split; [done|]; by rewrite length_map
     |left; by eexists]).
Qed.

(** A residual whose length is neither that of the mesh nor 1 makes the
    iteration raise: the product with the weights cannot be broadcast, or
    its length does not fit the dictionary. *)
Lemma fsmr_step_mismatch (B : ndarray2) (N L : nat) (w f D : list R)
    (odc : R) (st : mp_state) :
  dict_shape B N L -> length w = N ->
  length (residual st) <> N -> length (residual st) <> 1%nat ->
  exists msg : string,
    fsmr_step B w f D odc st = Raise (ValueError msg).
Proof.
  intros HB Hw HvN Hv1. unfold fsmr_step.
  destruct (np_broadcast_mismatch Rmult (residual st) w)
    as [(msg & ->)|(Hw1 & rw & -> & Hrw)]; [lia|done| |].
  - by exists msg.
  - rewrite bind_Ok. unfold np_dot. destruct HB as (Hc & _).
    rewrite decide_False by lia. by eexists.
Qed.

Lemma fsmr_shape_mismatch (B : ndarray2) (N L : nat) (mesh_val w f : list R)
    (odc : R) (T : Z) :
  dict_shape B N L -> (1 <= T)%Z -> length w = N ->
  length mesh_val <> N -> length mesh_val <> 1%nat ->
  exists msg : string,
    fsmr.fsmr mesh_val B w f odc T = Raise (ValueError msg).
Proof.
  intros HB HT Hw HvN Hv1. unfold fsmr.fsmr.
  rewrite (energies_eq B N L w HB Hw), bind_Ok.
  destruct (Z.to_nat T) as [|n] eqn:En; [lia|].
  cbn [iterate].
  destruct (fsmr_step_mismatch B N L w f (map (atom_energy w) (rows B)) odc
              (mkState mesh_val (replicate (length (rows B)) 0)))
    as (msg & ->); try done.
  by exists msg.
Qed.

(** On an empty mesh every energy is zero: the objective is NaN
    throughout and the division for the coefficient raises. *)
Lemma fsmr_step_empty_mesh (B : ndarray2) (L : nat) (f : list R) (odc : R)
    (st : mp_state) :
  dict_shape B 0 L -> L <> 0%nat -> length f = L ->
  (length (residual st) <= 1)%nat ->
  fsmr_step B [] f (map (atom_energy []) (rows B)) odc st
  = Raise ZeroDivisionError.
Proof.
  intros HB HL Hf Hv. unfold fsmr_step.
  assert (Hrw : np_broadcast Rmult (residual st) [] = Ok []).
  { destruct (residual st) as [|v0 [|v1 vs]]; [done| |cbn in Hv; lia].
    by rewrite np_broadcast_single. }
  rewrite Hrw, bind_Ok. unfold np_dot.
  destruct HB as (Hc & Hr & Hrows).
  rewrite decide_True by done. rewrite bind_Ok.
  destruct (rows B) as [|r0 rest] eqn:Erows; [cbn in Hr; lia|].
  destruct f as [|f0 f]; [cbn in Hf; lia|].
  apply Forall_cons in Hrows as [Hr0 _].
  apply nil_length_inv in Hr0. subst r0.
  rewrite np_broadcast_eq by (by rewrite !length_map).
  rewrite bind_Ok.
  rewrite np_broadcast_eq
    by (rewrite length_zip_with, !length_map; cbn in *; lia).
  rewrite bind_Ok. cbn [map zip_with].
  assert (Hq : np_true_divide (Rsqr (Rsum [])) (atom_energy [] []) = XNaN).
  { unfold np_true_divide, atom_energy. cbn [map zip_with Rsum foldr].
    rewrite Rsqr_0, decide_True by done.
    rewrite !decide_False by lra. done. }
  rewrite Hq. cbn [np_multiply np_argmax np_isnan].
  rewrite bind_Ok. unfold np_get. cbn [lookup list_lookup].
  rewrite !bind_Ok. unfold atom_energy. cbn [map zip_with Rsum foldr].
  by rewrite py_div_zero.
Qed.

Lemma fsmr_empty_mesh (B : ndarray2) (L : nat) (mesh_val f : list R)
    (odc : R) (T : Z) :
  dict_shape B 0 L -> L <> 0%nat -> length f = L -> (1 <= T)%Z ->
  (length mesh_val <= 1)%nat ->
  fsmr.fsmr mesh_val B [] f odc T = Raise ZeroDivisionError.
Proof.
  intros HB HL Hf HT Hv. unfold fsmr.fsmr.
  rewrite (energies_eq B 0 L [] HB eq_refl), bind_Ok.
  destruct (Z.to_nat T) as [|n] eqn:En; [lia|].
  cbn [iterate]. by rewrite (fsmr_step_empty_mesh B L).
Qed.

(** *** [resample_fsmr] *)

(** The store after the call: both point arrays shifted in place. *)
Lemma resample_fsmr_store (ls lt : loc) (vals : list R) (K : Z)
    (odc sigma shift : R) (T : Z) (w : option (list R))
    (h : gmap loc (list (R * R))) :
  (resample_fsmr ls vals lt K odc sigma shift T w h).1
  = alter (iadd shift) lt (alter (iadd shift) ls h).
Proof. reflexivity. Qed.

Lemma iadd_length (shift : R) (a : list (R * R)) :
  length (iadd shift a) = length a.
Proof. unfold iadd. by rewrite length_map. Qed.

(** Adding [shift] leaves an array as it was exactly when [shift] is zero
    or the array has no row. *)
Lemma iadd_fixed (shift : R) (a : list (R * R)) :
  iadd shift a = a <-> shift = 0 \/ a = [].
Proof.
  split.
  - destruct a as [|[u v] a]; [by right|].
    unfold iadd. cbn. intros E. injection E as E _ _. left. lra.
  - intros [->| ->]; [|done].
    unfold iadd. induction a as [|[u v] a IH]; [done|].
    cbn. rewrite IH. do 2 f_equal; lra.
Qed.

Lemma shifted_lookup (ls lt : loc) (shift : R) (h : gmap loc (list (R * R)))
    (src tgt : list (R * R)) :
  h !! ls = Some src -> h !! lt = Some tgt ->
  exists src' tgt' : list (R * R),
    alter (iadd shift) lt (alter (iadd shift) ls h) !! ls = Some src'
    /\ alter (iadd shift) lt (alter (iadd shift) ls h) !! lt = Some tgt'
    /\ length src' = length src /\ length tgt' = length tgt
    /\ (ls <> lt -> src' = iadd shift src /\ tgt' = iadd shift tgt).
Proof.
  intros Hs Ht. destruct (decide (ls = lt)) as [<-|Hne].
  - exists (iadd shift (iadd shift src)), (iadd shift (iadd shift src)).
    rewrite !lookup_alter_eq, Hs. cbn.
    assert (tgt = src) as -> by congruence.
    rewrite !iadd_length. done.
  - exists (iadd shift src), (iadd shift tgt).
    rewrite lookup_alter_ne, !lookup_alter_eq, lookup_alter_ne by done.
    rewrite Hs, Ht. cbn. rewrite !iadd_length. done.
Qed.

Lemma basis_dict_shape (m : list (R * R)) (K : Z) :
  dict_shape (mkArray2 (length m)
                (basis_rows (map fst m) (map snd m) K))
    (length m) (length (grid_pairs K)).
Proof.
  unfold dict_shape. cbn. rewrite basis_rows_length.
  split; [done|]. split; [done|].
  pose proof (basis_rows_row_length (map fst m) (map snd m) K) as H.
  rewrite !length_map in H. by apply H.
Qed.

(** For a positive transform length the call is the pursuit on the
    dictionary of the shifted source mesh, followed by the evaluation of
    the model on the shifted target mesh. *)
Lemma resample_fsmr_unfold (ls lt : loc) (vals : list R) (K : Z)
    (odc sigma shift : R) (T : Z) (h : gmap loc (list (R * R)))
    (src' tgt' : list (R * R)) :
  (1 <= K)%Z ->
  alter (iadd shift) lt (alter (iadd shift) ls h) !! ls = Some src' ->
  alter (iadd shift) lt (alter (iadd shift) ls h) !! lt = Some tgt' ->
  (resample_fsmr ls vals lt K odc sigma shift T None h).2
  = (coeffs ←
       fsmr.fsmr vals
         (mkArray2 (length src')
            (basis_rows (map fst src') (map snd src') K))
         (replicate (length src') 1) (frequency_weights K sigma) odc T;
     np_dot
       (np_transpose
          (mkArray2 (length tgt')
             (basis_rows (map fst tgt') (map snd tgt') K)))
       coeffs).
Proof.
  intros HK Hs' Ht'. unfold resample_fsmr. cbn [snd].
  rewrite (lookup_total_correct _ _ _ Hs'), (lookup_total_correct _ _ _ Ht').
  rewrite (dct_basis_dict_ok (map fst src') (map snd src') K)
    by (rewrite ?length_map; lia).
  rewrite bind_Ok, dct_frequency_weighting_ok, bind_Ok by lia.
  rewrite !length_map.
  destruct (fsmr.fsmr _ _ _ _ _ _) as [c|e]; [|done].
  rewrite !bind_Ok.
  rewrite (dct_basis_dict_ok (map fst tgt') (map snd tgt') K)
    by (rewrite ?length_map; lia).
  by rewrite bind_Ok, length_map.
Qed.

(** The model of [L] coefficients is evaluated at every target point. *)
Lemma target_values_ok (m : list (R * R)) (K : Z) (c : list R) :
  length c = length (grid_pairs K) ->
  exists out : list R,
    np_dot
      (np_transpose
         (mkArray2 (length m) (basis_rows (map fst m) (map snd m) K))) c
    = Ok out
    /\ length out = length m.
Proof.
  intros Hc. unfold np_dot, np_transpose. cbn [ncols rows].
  rewrite basis_rows_length, decide_True by done.
  eexists. split; [done|]. by rewrite !length_map, length_seq.
Qed.

(** With a positive transform length, one value per source point or a
    single value, and no atom that vanishes at every source point,
    [resample_fsmr] returns one value per target point. *)
Lemma resample_fsmr_ok (ls lt : loc) (vals : list R) (K : Z)
    (odc sigma shift : R) (T : Z) (h : gmap loc (list (R * R)))
    (src tgt src' : list (R * R)) :
  h !! ls = Some src -> h !! lt = Some tgt ->
  (resample_fsmr ls vals lt K odc sigma shift T None h).1 !! ls = Some src' ->
  (1 <= K)%Z -> length vals = length src \/ length vals = 1%nat ->
  Forall atom_nonzero (basis_rows (map fst src') (map snd src') K) ->
  exists out : list R,
    (resample_fsmr ls vals lt K odc sigma shift T None h).2 = Ok out
    /\ length out = length tgt.
Proof.
  intros Hs Ht Hsrc' HK Hvals Hnz.
  destruct (shifted_lookup ls lt shift h src tgt Hs Ht)
    as (src1 & tgt' & Hs' & Ht' & Hls & Hlt & _).
  rewrite resample_fsmr_store, Hs' in Hsrc'. injection Hsrc' as ->.
  rewrite (resample_fsmr_unfold ls lt vals K odc sigma shift T h src' tgt')
    by done.
  pose proof (basis_dict_shape src' K) as Hshape.
  destruct (fsmr_ok _ (length src') (length (grid_pairs K)) vals
              (replicate (length src') 1) (frequency_weights K sigma)
              odc T Hshape)
    as (c & -> & Hc).
  - intros E. by apply (grid_pairs_nonempty K HK), nil_length_inv.
  - lia.
  - by rewrite length_replicate.
  - by rewrite frequency_weights_length.
  - cbn [rows].
    pose proof (basis_rows_row_length (map fst src') (map snd src') K) as Hrl.
    rewrite !length_map in Hrl. specialize (Hrl eq_refl).
    rewrite Forall_forall in Hnz, Hrl. apply Forall_forall.
    intros row Hrow. rewrite <- (Hrl row Hrow), atom_energy_ones.
    pose proof (atom_nonzero_energy row (Hnz row Hrow)). lra.
  - rewrite bind_Ok.
    destruct (target_values_ok tgt' K c Hc) as (out & -> & Hout).
    exists out. split; [done|]. lia.
Qed.

Lemma resample_fsmr_zero_division (ls lt : loc) (vals : list R)
    (odc sigma shift : R) (T : Z) (w : option (list R))
    (h : gmap loc (list (R * R))) :
  (resample_fsmr ls vals lt 0 odc sigma shift T w h).2
  = Raise ZeroDivisionError.
Proof. reflexivity. Qed.

Lemma resample_fsmr_negative_length (ls lt : loc) (vals : list R) (K : Z)
    (odc sigma shift : R) (T : Z) (w : option (list R))
    (h : gmap loc (list (R * R))) :
  (K < 0)%Z ->
  (resample_fsmr ls vals lt K odc sigma shift T w h).2
  = Raise (ValueError "negative dimensions are not allowed").
Proof.
  intros HK. unfold resample_fsmr. cbn [snd].
  rewrite !dct_basis_dict_negative by done. reflexivity.
Qed.

(** For [T <= 0] no iteration runs and every returned value is zero. *)
Lemma resample_fsmr_no_iteration (ls lt : loc) (vals : list R) (K : Z)
    (odc sigma shift : R) (T : Z) (h : gmap loc (list (R * R)))
    (src tgt : list (R * R)) :
  h !! ls = Some src -> h !! lt = Some tgt ->
  (1 <= K)%Z -> (T <= 0)%Z ->
  (resample_fsmr ls vals lt K odc sigma shift T None h).2
  = Ok (replicate (length tgt) 0).
Proof.
  intros Hs Ht HK HT.
  destruct (shifted_lookup ls lt shift h src tgt Hs Ht)
    as (src' & tgt' & Hs' & Ht' & Hls & Hlt & _).
  rewrite (resample_fsmr_unfold ls lt vals K odc sigma shift T h src' tgt')
    by done.
  pose proof (basis_dict_shape src' K) as Hshape.
  rewrite (fsmr_no_iteration _ _ _ _ _ _ _ _ Hshape HT)
    by (by rewrite length_replicate).
  rewrite bind_Ok. unfold np_dot, np_transpose. cbn [ncols rows].
  rewrite basis_rows_length, length_replicate, decide_True by done.
  f_equal.
  assert (Hz : forall (rs : list (list R)) (n : nat),
            map (fun row => Rsum (zip_with Rmult row (replicate n 0))) rs
            = replicate (length rs) 0).
  { intros rs n. induction rs as [|r rs IH]; [done|].
    cbn [map length replicate]. by rewrite IH, Rsum_zip_zero. }
  by rewrite Hz, length_map, length_seq, Hlt.
Qed.

(** An iteration on values whose number is neither that of the source
    points nor 1 raises [ValueError]. *)
Lemma resample_fsmr_mismatch (ls lt : loc) (vals : list R) (K : Z)
    (odc sigma shift : R) (T : Z) (h : gmap loc (list (R * R)))
    (src tgt : list (R * R)) :
  h !! ls = Some src -> h !! lt = Some tgt ->
  (1 <= K)%Z -> (1 <= T)%Z ->
  length vals <> length src -> length vals <> 1%nat ->
  exists msg : string,
    (resample_fsmr ls vals lt K odc sigma shift T None h).2
    = Raise (ValueError msg).
Proof.
  intros Hs Ht HK HT HvN Hv1.
  destruct (shifted_lookup ls lt shift h src tgt Hs Ht)
    as (src' & tgt' & Hs' & Ht' & Hls & Hlt & _).
  rewrite (resample_fsmr_unfold ls lt vals K odc sigma shift T h src' tgt')
    by done.
  pose proof (basis_dict_shape src' K) as Hshape.
  destruct (fsmr_shape_mismatch _ _ _ vals (replicate (length src') 1)
              (frequency_weights K sigma) odc T Hshape HT)
    as (msg & ->); [by rewrite length_replicate|lia|done|].
  by exists msg.
Qed.

(** An iteration on an empty source mesh raises [ZeroDivisionError]. *)
Lemma resample_fsmr_empty_source (ls lt : loc) (vals : list R) (K : Z)
    (odc sigma shift : R) (T : Z) (h : gmap loc (list (R * R)))
    (tgt : list (R * R)) :
  h !! ls = Some [] -> h !! lt = Some tgt ->
  (1 <= K)%Z -> (1 <= T)%Z -> (length vals <= 1)%nat ->
  (resample_fsmr ls vals lt K odc sigma shift T None h).2
  = Raise ZeroDivisionError.
Proof.
  intros Hs Ht HK HT Hv.
  destruct (shifted_lookup ls lt shift h [] tgt Hs Ht)
    as (src' & tgt' & Hs' & Ht' & Hls & Hlt & _).
  rewrite (resample_fsmr_unfold ls lt vals K odc sigma shift T h src' tgt')
    by done.
  pose proof (basis_dict_shape src' K) as Hshape.
  apply nil_length_inv in Hls. subst src'. cbn [length replicate] in *.
  rewrite (fsmr_empty_mesh _ (length (grid_pairs K))); try done.
  - intros E. by apply (grid_pairs_nonempty K HK), nil_length_inv.
  - by rewrite frequency_weights_length.
Qed.

(** When the same array is passed for both meshes it is shifted twice. *)
Lemma resample_fsmr_aliased (l : loc) (vals : list R) (K : Z)
    (odc sigma shift : R) (T : Z) (w : option (list R))
    (h : gmap loc (list (R * R))) (a : list (R * R)) :
  h !! l = Some a ->
  (resample_fsmr l vals l K odc sigma shift T w h).1 !! l
  = Some (iadd shift (iadd shift a)).
Proof.
  intros Ha. by rewrite resample_fsmr_store, !lookup_alter_eq, Ha.
Qed.

(** At the single mesh point (0.5, 0.5) every atom is its table entry,
    which is not zero. *)
Lemma single_point_atoms_nonzero (K : Z) :
  (1 <= K)%Z -> Forall atom_nonzero (basis_rows [0.5] [0.5] K).
Proof.
  intros HK. apply IZR_le in HK.
  unfold basis_rows. apply Forall_fmap, Forall_forall. intros [k l] _.
  cbn. constructor.
  replace (0.5 - 0.5) with 0 by lra.
  rewrite !Rmult_0_r, !Rmult_0_l, cos_0.
  assert (0 < / IZR K) by (apply Rinv_0_lt_compat; lra).
  assert (0 < sqrt 2) by (apply sqrt_lt_R0; lra).
  unfold weights, Rdiv.
  destruct (is_zero_int k), (is_zero_int l); nra.
Qed.

(** C7 (as amended).  [resample_fsmr] adds [shift] to the caller's two
    point arrays in place: after the call [src_pts] and [tgt_pts] (two
    distinct arrays) hold their former coordinates plus [shift], every other
    array is untouched, and an input array holds the same values as before
    exactly when [shift = 0] or the array has no row. *)
Theorem resample_fsmr_shifts_in_place (ls lt : loc) (vals : list R) (K : Z)
    (odc sigma shift : R) (T : Z) (w : option (list R))
    (h : gmap loc (list (R * R))) (src tgt : list (R * R)) :
  h !! ls = Some src -> h !! lt = Some tgt -> ls <> lt ->
  let h' := (resample_fsmr ls vals lt K odc sigma shift T w h).1 in
  h' !! ls = Some (iadd shift src)
  /\ h' !! lt = Some (iadd shift tgt)
  /\ (forall l : loc, l <> ls -> l <> lt -> h' !! l = h !! l)
  /\ (h' !! ls = Some src <-> shift = 0 \/ src = [])
  /\ (h' !! lt = Some tgt <-> shift = 0 \/ tgt = []).
Proof.
  intros Hs Ht Hne h'. subst h'. rewrite resample_fsmr_store.
  destruct (shifted_lookup ls lt shift h src tgt Hs Ht)
    as (src' & tgt' & Hs' & Ht' & _ & _ & Heq).
  destruct (Heq Hne) as [-> ->].
  split; [done|]. split; [done|]. split; [|split].
  - intros l H1 H2. by rewrite !lookup_alter_ne.
  - rewrite Hs', <- (iadd_fixed shift src).
    split; [by intros [= ->]|by intros ->].
  - rewrite Ht', <- (iadd_fixed shift tgt).
    split; [by intros [= ->]|by intros ->].
Qed.

Lemma resample_fsmr_shifts_in_place_witness :
  let h : gmap loc (list (R * R)) :=
    {[ 0%nat := [(0, 0)]; 1%nat := [(1, 1)] ]} in
  let h' := (resample_fsmr 0%nat [1] 1%nat 32%Z 0.5 0.93 16 1000%Z None h).1 in
  h' !! 0%nat = Some (iadd 16 [(0, 0)])
  /\ h' !! 1%nat = Some (iadd 16 [(1, 1)])
  /\ (forall l : loc, l <> 0%nat -> l <> 1%nat -> h' !! l = h !! l)
  /\ (h' !! 0%nat = Some [(0, 0)] <-> 16 = 0 \/ [(0, 0)] = [])
  /\ (h' !! 1%nat = Some [(1, 1)] <-> 16 = 0 \/ [(1, 1)] = []).
Proof.
  apply (resample_fsmr_shifts_in_place 0%nat 1%nat [1] 32%Z 0.5 0.93 16 1000%Z None);
    [reflexivity | reflexivity | lia].
Defined.

(** With the default shift of 16 both input arrays differ after the call
    from what they were before it. *)
Lemma resample_fsmr_mutates_inputs :
  let h : gmap loc (list (R * R)) :=
    {[ 0%nat := [(0, 0)]; 1%nat := [(1, 1)] ]} in
  let h' := (resample_fsmr 0%nat [1] 1%nat 32%Z 0.5 0.93 16 1000%Z None h).1 in
  h' !! 0%nat <> h !! 0%nat /\ h' !! 1%nat <> h !! 1%nat.
Proof.
  intros h h'. subst h'. rewrite resample_fsmr_store.
  assert (Hs : h !! 0%nat = Some [(0, 0)]) by reflexivity.
  assert (Ht : h !! 1%nat = Some [(1, 1)]) by reflexivity.
  destruct (shifted_lookup 0%nat 1%nat 16 h _ _ Hs Ht)
    as (src' & tgt' & Hs' & Ht' & _ & _ & Heq).
  destruct (Heq ltac:(lia)) as [-> ->].
  rewrite Hs', Ht', Hs, Ht.
  split; intros E; apply (inj Some) in E; injection E; lra.
Qed.

(** C8 (as amended).  [resample_fsmr] validates none of its arguments and
    has no [InvalidArgument] error; what it raises comes from the
    operations it performs.  For point arrays in the store and no explicit
    spatial weights: a transform length of [0] fails with
    [ZeroDivisionError] and a negative one with [ValueError]; for [K >= 1]
    and [T <= 0], negative values included, no iteration runs and all
    returned values are zero, whatever the number of values; for [K >= 1]
    and [T >= 1], a number of values that is neither the number of source
    points nor 1 fails with [ValueError], an empty source mesh fails with
    [ZeroDivisionError], and with one value per source point (or a single
    value, which is broadcast) and no atom that vanishes at every shifted
    source point the call returns one value per target point. *)
Theorem resample_fsmr_failures (ls lt : loc) (vals : list R) (K : Z)
    (odc sigma shift : R) (T : Z) (h : gmap loc (list (R * R)))
    (src tgt : list (R * R)) :
  h !! ls = Some src -> h !! lt = Some tgt ->
  let call := resample_fsmr ls vals lt K odc sigma shift T None h in
  (K = 0%Z -> call.2 = Raise ZeroDivisionError)
  /\ ((K < 0)%Z ->
      call.2 = Raise (ValueError "negative dimensions are not allowed"))
  /\ ((1 <= K)%Z -> (T <= 0)%Z -> call.2 = Ok (replicate (length tgt) 0))
  /\ ((1 <= K)%Z -> (1 <= T)%Z ->
      length vals <> length src -> length vals <> 1%nat ->
      exists msg : string, call.2 = Raise (ValueError msg))
  /\ ((1 <= K)%Z -> (1 <= T)%Z -> src = [] -> (length vals <= 1)%nat ->
      call.2 = Raise ZeroDivisionError)
  /\ ((1 <= K)%Z -> (1 <= T)%Z ->
      length vals = length src \/ length vals = 1%nat ->
      forall src' : list (R * R),
        call.1 !! ls = Some src' ->
        Forall atom_nonzero (basis_rows (map fst src') (map snd src') K) ->
        exists out : list R, call.2 = Ok out /\ length out = length tgt).
Proof.
  intros Hs Ht call. subst call.
  split; [|split; [|split; [|split; [|split]]]].
  - intros ->. apply resample_fsmr_zero_division.
  - intros HK. by apply resample_fsmr_negative_length.
  - intros HK HT.
    by apply (resample_fsmr_no_iteration ls lt vals K odc sigma shift T h src).
  - intros HK HT HvN Hv1.
    by apply (resample_fsmr_mismatch ls lt vals K odc sigma shift T h src tgt).
  - intros HK HT -> Hv.
    by apply (resample_fsmr_empty_source ls lt vals K odc sigma shift T h tgt).
  - intros HK _ Hv src' Hsrc' Hnz.
    by apply (resample_fsmr_ok ls lt vals K odc sigma shift T h src tgt src').
Qed.

(** One source point at (0.5, 0.5), no shift, a transform length of 2 and
    one iteration: the call returns one value for the one target point. *)
Lemma resample_fsmr_failures_witness :
  let h : gmap loc (list (R * R)) :=
    {[ 0%nat := [(0.5, 0.5)]; 1%nat := [(1, 1)] ]} in
  exists out : list R,
    (resample_fsmr 0%nat [3] 1%nat 2%Z 0.5 0.93 0 1%Z None h).2 = Ok out
    /\ length out = 1%nat.
Proof.
  intros h.
  destruct (resample_fsmr_failures 0%nat 1%nat [3] 2%Z 0.5 0.93 0 1%Z h
              [(0.5, 0.5)] [(1, 1)] eq_refl eq_refl)
    as (_ & _ & _ & _ & _ & H).
  apply (H ltac:(lia) ltac:(lia) (or_introl eq_refl) [(0.5 + 0, 0.5 + 0)]).
  - reflexivity.
  - cbn [map fst snd]. replace (0.5 + 0) with 0.5 by lra.
    apply single_point_atoms_nonzero. lia.
Defined.

(** A negative [T] is accepted: the call returns. *)
Lemma resample_fsmr_negative_T_accepted :
  let h : gmap loc (list (R * R)) :=
    {[ 0%nat := [(0, 0)]; 1%nat := [(1, 1)] ]} in
  (-1 < 0)%Z
  /\ (resample_fsmr 0%nat [1] 1%nat 32%Z 0.5 0.93 16 (-1)%Z None h).2 = Ok [0].
Proof.
  intros h. split; [done|].
  by rewrite (resample_fsmr_no_iteration 0%nat 1%nat [1] 32%Z 0.5 0.93 16 (-1)%Z h
                [(0, 0)] [(1, 1)]).
Qed.

End fsmr_shapes.

(** ** FSMR on a constant signal *)

Section fsmr_dc.

Import fsmr.
#[local] Open Scope R_scope.

Lemma Rsum_sqr_shift (l : list R) (t : R) :
  Rsum (map (fun a => Rsqr (a - t)) l)
  = Rsum (map Rsqr l) - 2 * t * Rsum l + INR (length l) * Rsqr t.
Proof.
  induction l as [|a l IH].
  - cbn. lra.
  - cbn [map length]. rewrite !Rsum_cons, IH, S_INR. unfold Rsqr. ring.
Qed.

(** Cauchy-Schwarz against the constant vector. *)
Lemma Rsum_sqr_bound (l : list R) :
  Rsqr (Rsum l) <= INR (length l) * Rsum (map Rsqr l).
Proof.
  destruct l as [|a0 l0]; [cbn; unfold Rsqr; lra|].
  set (l := a0 :: l0).
  assert (HN : 0 < INR (length l)) by (apply lt_0_INR; cbn; lia).
  pose proof (Rsum_sqr_shift l (Rsum l / INR (length l))) as Hs.
  assert (H0 : 0 <= Rsum (map (fun a => Rsqr (a - Rsum l / INR (length l))) l)).
  { rewrite <- (map_map (fun a => a - Rsum l / INR (length l)) Rsqr).
    apply Rsum_sqr_nonneg. }
  rewrite Hs in H0. clear Hs.
  set (S := Rsum l) in *. set (Q := Rsum (map Rsqr l)) in *.
  set (N := INR (length l)) in *.
  assert (E : Q - 2 * (S / N) * S + N * Rsqr (S / N) = Q - Rsqr S / N).
  { unfold Rsqr. field. lra. }
  rewrite E in H0.
  assert (Rsqr S / N <= Q) by lra.
  assert (Rsqr S = Rsqr S / N * N) as -> by (field; lra).
  nra.
Qed.

Lemma zip_with_replicate (f : R -> R -> R) (n : nat) (a b : R) :
  zip_with f (replicate n a) (replicate n b) = replicate n (f a b).
Proof. induction n as [|n IH]; cbn; [done|]. by rewrite IH. Qed.

Lemma Rsum_replicate (n : nat) (a : R) : Rsum (replicate n a) = INR n * a.
Proof.
  induction n as [|n IH]; [cbn; lra|].
  cbn [replicate]. rewrite Rsum_cons, IH, S_INR. ring.
Qed.

(** [np.argmax] picks index 0 when no later entry is larger. *)
Lemma argmax_from_first (l : list R) (b : R) (bi i : nat) :
  Forall (fun o => o <= b) l ->
  argmax_from bi (XFinite b) i (map XFinite l) = bi.
Proof.
  revert i. induction l as [|x l IH]; intros i Hl; [done|].
  apply Forall_cons in Hl as [Hx Hl]. cbn.
  rewrite bool_decide_eq_false_2 by lra. by apply IH.
Qed.

(** The objective of an atom on a constant signal is at most the energy
    [N * v^2] of the signal. *)
Lemma objective_bound (row : list R) (fk v : R) :
  0 <= fk <= 1 -> 0 < Rsum (map Rsqr row) ->
  fk * (Rsqr (v * 1 * Rsum row) / (1 * Rsum (map Rsqr row)))
  <= INR (length row) * Rsqr v.
Proof.
  intros Hf HQ. pose proof (Rsum_sqr_bound row) as HCS.
  set (S := Rsum row) in *. set (Q := Rsum (map Rsqr row)) in *.
  set (N := INR (length row)) in *.
  assert (HN : 0 <= N) by apply pos_INR.
  assert (Hq : Rsqr (v * 1 * S) / (1 * Q) <= N * Rsqr v).
  { replace (Rsqr (v * 1 * S) / (1 * Q)) with (Rsqr v * (Rsqr S / Q))
      by (unfold Rsqr; field; lra).
    assert (Rsqr S / Q <= N).
    { replace N with (N * Q / Q) by (field; lra).
      unfold Rdiv. apply Rmult_le_compat_r; [|lra].
      left. by apply Rinv_0_lt_compat. }
    pose proof (Rle_0_sqr v). nra. }
  assert (0 <= Rsqr (v * 1 * S) / (1 * Q)).
  { apply Rdiv_ge_0; [lra|apply Rle_0_sqr]. }
  nra.
Qed.

(** The objective vector, atom by atom. *)
Lemma objective_rows (N : nat) (v : R) (fs : list R) (rs : list (list R)) :
  Forall (fun row => length row = N /\ atom_nonzero row) rs ->
  Forall (fun fk => 0 <= fk <= 1) fs ->
  Forall (fun o => o <= INR N * Rsqr v)
    (zip_with Rmult fs
       (zip_with Rdiv
          (map Rsqr
             (map (fun row => Rsum (zip_with Rmult row (replicate N (v * 1))))
                rs))
          (map (fun row => Rsum (zip_with Rmult row (replicate N 1)))
             (map (map Rsqr) rs)))).
Proof.
  intros Hrs. revert fs. induction Hrs as [|row rs [Hlen Hnz] _ IH];
    intros fs Hfs.
  - destruct fs; constructor.
  - destruct Hfs as [|fk fs Hfk Hfs]; [constructor|].
    cbn [map zip_with]. constructor; [|by apply IH].
    subst N. rewrite <- (length_map Rsqr row) at 2.
    rewrite !Rsum_zip_const.
    apply objective_bound; [done|by apply atom_nonzero_energy].
Qed.

(** One iteration of matching pursuit with [odc = 1] on a constant signal
    [v], for a dictionary whose first atom is the constant [a0] and whose
    first frequency weight is [1], the others being at most [1]: the first
    coefficient becomes [v / a0], the others stay [0]. *)
Lemma fsmr_dc_general (B : ndarray2) (N : nat) (a0 v : R)
    (rest : list (list R)) (fs : list R) :
  ncols B = N -> rows B = replicate N a0 :: rest ->
  Forall (fun row => length row = N /\ atom_nonzero row) rest ->
  N <> 0%nat -> a0 <> 0 ->
  length fs = length rest -> Forall (fun fk => 0 <= fk <= 1) fs ->
  fsmr.fsmr (replicate N v) B (replicate N 1) (1 :: fs) 1 1
  = Ok (v / a0 :: replicate (length rest) 0).
Proof.
  intros Hc Hrows Hrest HN Ha Hfs Hf01.
  assert (HNR : 0 < INR N) by (apply lt_0_INR; lia).
  assert (Hall : Forall (fun row => length row = N /\ atom_nonzero row)
                   (replicate N a0 :: rest)).
  { constructor; [|done]. split; [by rewrite length_replicate|].
    destruct N as [|n]; [done|]. by constructor. }
  assert (HDnz : Forall (fun d => d <> 0)
                   (map (fun row => Rsum (zip_with Rmult row (replicate N 1)))
                      (map (map Rsqr) (replicate N a0 :: rest)))).
  { rewrite map_map. apply Forall_fmap.
    eapply Forall_impl; [exact Hall|].
    intros row [Hlen Hnz]. cbn.
    rewrite <- Hlen, <- (length_map Rsqr row), Rsum_zip_const.
    pose proof (atom_nonzero_energy row Hnz). lra. }
  unfold fsmr.fsmr, np_dot, np_square. cbn [ncols rows].
  rewrite Hc, length_replicate, decide_True by done.
  rewrite bind_Ok. change (Z.to_nat 1) with 1%nat. cbn [iterate].
  unfold fsmr_step. cbn [residual coeffs].
  rewrite np_broadcast_eq by (by rewrite !length_replicate).
  rewrite bind_Ok, zip_with_replicate. unfold np_dot.
  rewrite Hc, length_replicate, decide_True by done.
  rewrite bind_Ok, Hrows.
  rewrite np_broadcast_eq by (by rewrite !length_map).
  rewrite bind_Ok.
  rewrite np_broadcast_eq
    by (cbn; rewrite length_zip_with, !length_map; lia).
  rewrite bind_Ok, objective_finite by done.
  cbn [map zip_with].
  pose proof (objective_rows N v fs rest Hrest Hf01) as Hobj.
  set (p0 := Rsum (zip_with Rmult (replicate N a0) (replicate N (v * 1)))) in *.
  set (D0 := Rsum (zip_with Rmult (map Rsqr (replicate N a0)) (replicate N 1))) in *.
  assert (Ep : p0 = v * INR N * a0).
  { subst p0. rewrite zip_with_replicate, Rsum_replicate. ring. }
  assert (ED : D0 = INR N * Rsqr a0).
  { subst D0. rewrite fmap_replicate, zip_with_replicate, Rsum_replicate. ring. }
  assert (HD0 : 0 < D0).
  { rewrite ED. apply Rmult_lt_0_compat; [done|by apply Rlt_0_sqr]. }
  assert (Eobj : 1 * (Rsqr p0 / D0) = INR N * Rsqr v).
  { rewrite Ep, ED. unfold Rsqr. field. lra. }
  unfold np_argmax. cbn [np_isnan].
  rewrite argmax_from_first by (by rewrite Eobj).
  rewrite bind_Ok. unfold np_get. cbn [lookup list_lookup].
  cbn [length replicate lookup list_lookup].
  rewrite !bind_Ok, py_div_ok by lra. rewrite !bind_Ok.
  rewrite np_broadcast_eq by (by rewrite length_map, !length_replicate).
  rewrite !bind_Ok. cbn [coeffs insert list_insert].
  do 2 f_equal. rewrite Ep, ED. unfold Rsqr. field. lra.
Qed.

(** *** The DCT dictionary at the frequency pair (0, 0) *)

Lemma grid_pairs_head (K : Z) :
  (1 <= K)%Z -> exists rest : list (Z * Z), grid_pairs K = (0, 0)%Z :: rest.
Proof.
  intros HK. unfold grid_pairs. rewrite (seqZ_cons 0 K) by lia.
  cbn. by eexists.
Qed.

Lemma dc_atom_constant (x y : list R) (K : Z) (a : R) :
  length x = length y ->
  map (fun c => c * a)
    (zip_with Rmult
       (map (fun yn => cos ((PI / IZR K) * (yn - 0.5) * IZR 0)) y)
       (map (fun xn => cos ((PI / IZR K) * (xn - 0.5) * IZR 0)) x))
  = replicate (length x) a.
Proof.
  revert y. induction x as [|xn x IH]; intros [|yn y] Hlen; try done.
  cbn [map zip_with length replicate]. rewrite IH by (cbn in Hlen; lia).
  f_equal. rewrite !Rmult_0_r, cos_0. ring.
Qed.

Lemma frequency_weight_range (sigma e : R) :
  0 < sigma <= 1 -> 0 <= e -> 0 <= Rpower sigma e <= 1.
Proof.
  intros [Hs0 Hs1] He. unfold Rpower. split; [left; apply exp_pos|].
  assert (Hln : ln sigma <= 0).
  { destruct Hs1 as [Hlt| ->]; [|rewrite ln_1; lra].
    rewrite <- ln_1. left. by apply ln_increasing. }
  rewrite <- exp_0.
  destruct (Req_dec (e * ln sigma) 0) as [->|Hne]; [lra|].
  left. apply exp_increasing. nra.
Qed.

Lemma frequency_weight_dc (sigma : R) :
  0 < sigma -> Rpower sigma (sqrt (IZR (0 * 0) + IZR (0 * 0))) = 1.
Proof.
  intros Hs. change (IZR (0 * 0)) with 0.
  rewrite Rplus_0_r, sqrt_0. by apply Rpower_O.
Qed.

(** The value of the DC coefficient after one undamped iteration on a
    constant signal: [v] divided by the table entry the dictionary uses at
    the frequency pair (0, 0). *)
Lemma fsmr_dc_value (x y : list R) (K : Z) (sigma v : R) :
  (1 <= K)%Z -> length x = length y -> x <> [] -> 0 < sigma <= 1 ->
  Forall atom_nonzero (basis_rows x y K) ->
  weights K 1 1 <> 0
  /\ basis_rows x y K !! 0%nat = Some (replicate (length x) (weights K 1 1))
  /\ fsmr.fsmr (replicate (length x) v)
       (mkArray2 (length x) (basis_rows x y K)) (replicate (length x) 1)
       (frequency_weights K sigma) 1 1
     = Ok (v / weights K 1 1 :: replicate (Z.to_nat K * Z.to_nat K - 1) 0).
Proof.
  intros HK Hlen Hx Hsig Hnz.
  pose proof (basis_rows_row_length x y K Hlen) as Hrl.
  pose proof (grid_pairs_length K) as HL.
  destruct (grid_pairs_head K HK) as (grid & Hgrid).
  unfold frequency_weights. unfold basis_rows in *.
  rewrite Hgrid in *. cbn [map fst snd length] in *.
  change (is_zero_int 0) with 1%nat in *.
  rewrite dc_atom_constant in * by done.
  rewrite frequency_weight_dc by lra.
  apply Forall_cons in Hnz as [_ Hnz]. apply Forall_cons in Hrl as [_ Hrl].
  assert (Ha0 : weights K 1 1 <> 0).
  { unfold weights. apply IZR_le in HK.
    assert (0 < 2 / IZR K) by (apply Rdiv_lt_0_compat; lra). lra. }
  split; [done|]. split; [done|].
  replace (Z.to_nat K * Z.to_nat K - 1)%nat with (length grid) by lia.
  rewrite <- (length_map
    (fun kl : Z * Z =>
       map (fun c => c * weights K (is_zero_int kl.1) (is_zero_int kl.2))
         (zip_with Rmult
            (map (fun yn => cos (PI / IZR K * (yn - 0.5) * IZR kl.1)) y)
            (map (fun xn => cos (PI / IZR K * (xn - 0.5) * IZR kl.2)) x)))
    grid).
  apply fsmr_dc_general; try done.
  - apply Forall_forall. intros row Hrow. split.
    + by apply (proj1 (Forall_forall _ _) Hrl).
    + by apply (proj1 (Forall_forall _ _) Hnz).
  - by destruct x.
  - by rewrite !length_map.
  - apply Forall_fmap, Forall_forall. intros kl _. cbn.
    apply frequency_weight_range; [done|apply sqrt_pos].
Qed.

(** C6 (as amended).  For a mesh of [N >= 1] points none of whose atoms
    vanishes at every point, a constant signal [v], all-ones spatial
    weights, the frequency weights of [dct_frequency_weighting] with
    [0 < sigma <= 1], [odc = 1] and one iteration, [fsmr] returns [c] with
    [c[j] = 0] for every [j <> (0,0)] and [c[(0,0)] = v / a0], where [a0] is
    the constant value of the atom of frequency (0, 0): the coefficient
    times that atom is the signal. *)
Theorem fsmr_dc_exact (x y : list R) (K : Z) (sigma v : R) (B : ndarray2) :
  (1 <= K)%Z -> length x = length y -> x <> [] -> 0 < sigma <= 1 ->
  dct_basis_dict x y K = Ok B ->
  Forall atom_nonzero (rows B) ->
  exists (f : list R) (c0 a0 : R),
    dct_frequency_weighting K sigma = Ok f
    /\ fsmr.fsmr (replicate (length x) v) B (replicate (length x) 1) f 1 1
       = Ok (c0 :: replicate (Z.to_nat K * Z.to_nat K - 1) 0)
    /\ rows B !! 0%nat = Some (replicate (length x) a0)
    /\ c0 * a0 = v.
Proof.
  intros HK Hlen Hx Hsig HB Hnz.
  rewrite dct_basis_dict_ok in HB by (done || lia).
  injection HB as <-. cbn [rows] in *.
  destruct (fsmr_dc_value x y K sigma v HK Hlen Hx Hsig Hnz)
    as (Ha0 & Hrow & Hc).
  exists (frequency_weights K sigma), (v / weights K 1 1), (weights K 1 1).
  split; [apply dct_frequency_weighting_ok; lia|].
  split; [done|]. split; [done|]. by field.
Qed.

Lemma fsmr_dc_exact_witness :
  exists (f : list R) (c0 a0 : R),
    dct_frequency_weighting 2 0.93 = Ok f
    /\ fsmr.fsmr (replicate (length [0.5]) 3)
         (mkArray2 1 (basis_rows [0.5] [0.5] 2)) (replicate (length [0.5]) 1)
         f 1 1
       = Ok (c0 :: replicate (Z.to_nat 2 * Z.to_nat 2 - 1) 0)
    /\ rows (mkArray2 1 (basis_rows [0.5] [0.5] 2)) !! 0%nat
       = Some (replicate (length [0.5]) a0)
    /\ c0 * a0 = 3.
Proof.
  apply (fsmr_dc_exact [0.5] [0.5] 2 0.93 3).
  - lia.
  - reflexivity.
  - discriminate.
  - lra.
  - reflexivity.
  - apply single_point_atoms_nonzero. lia.
Defined.

(** With the default transform length 32, a single mesh point and the
    signal [v = 1], the coefficient of frequency (0, 0) after one undamped
    iteration is 16, not 1. *)
Lemma fsmr_dc_not_v :
  dct_basis_dict [0.5] [0.5] 32
  = Ok (mkArray2 1 (basis_rows [0.5] [0.5] 32))
  /\ dct_frequency_weighting 32 0.93 = Ok (frequency_weights 32 0.93)
  /\ fsmr.fsmr [1] (mkArray2 1 (basis_rows [0.5] [0.5] 32)) [1]
       (frequency_weights 32 0.93) 1 1
     = Ok (16 :: replicate 1023 0)
  /\ 16 <> 1.
Proof.
  split; [by apply dct_basis_dict_ok|].
  split; [by apply dct_frequency_weighting_ok|]. split; [|lra].
  destruct (fsmr_dc_value [0.5] [0.5] 32 0.93 1) as (_ & _ & E);
    [lia|done|done|lra|apply single_point_atoms_nonzero; lia|].
  cbn [length replicate] in E. rewrite E. do 2 f_equal.
  unfold weights. lra.
Qed.

End fsmr_dc.

(** ** Coordinate conversions: round trips *)

Section conversion_facts.

Import coordinate_conversion.
#[local] Open Scope R_scope.

Lemma arctan2_range (y x : R) : - PI < arctan2 y x <= PI.
Proof.
  pose proof PI_RGT_0 as Hpi. unfold arctan2.
  repeat case_decide; try lra.
  - pose proof (atan_bound (y / x)). lra.
  - assert (x <> 0) by lra.
    destruct (Req_dec y 0) as [->|Hy].
    + unfold Rdiv. rewrite Rmult_0_l, atan_0. lra.
    + assert (y / x < 0).
      { apply Rdiv_pos_neg; lra. }
      pose proof (atan_bound (y / x)).
      assert (atan (y / x) < 0).
      { rewrite <- atan_0. by apply atan_increasing. }
      lra.
  - assert (0 < y / x).
    { replace (y / x) with ((- y) / (- x)) by (field; lra).
      apply Rdiv_lt_0_compat; lra. }
    pose proof (atan_bound (y / x)).
    assert (0 < atan (y / x)).
    { rewrite <- atan_0. by apply atan_increasing. }
    lra.
Qed.

Lemma sqrt_polar (r phi : R) :
  0 <= r -> sqrt (Rsqr (r * sin phi) + Rsqr (r * cos phi)) = r.
Proof.
  intros Hr. pose proof (sin2_cos2 phi) as H. unfold Rsqr in *.
  replace (r * sin phi * (r * sin phi) + r * cos phi * (r * cos phi))
    with (r * r * (sin phi * sin phi + cos phi * cos phi)) by ring.
  rewrite H, Rmult_1_r. by apply sqrt_square.
Qed.

(** X1.  Polar coordinates: converting radius [r > 0] and angle [phi] in
    (-pi, pi] to cartesian coordinates and back returns [(r, phi)]. *)
Theorem polar_round_trip (r phi : R) :
  0 < r -> - PI < phi <= PI ->
  let '(y, x) := polar_to_cartesian r phi in
  cartesian_to_polar y x = (r, phi).
Proof.
  intros Hr Hphi. unfold polar_to_cartesian, cartesian_to_polar.
  rewrite sqrt_polar by lra. by rewrite arctan2_polar.
Qed.

Lemma polar_round_trip_witness :
  let '(y, x) := polar_to_cartesian 2 0 in
  cartesian_to_polar y x = (2, 0).
Proof. apply (polar_round_trip 2 0); pose proof PI_RGT_0; lra. Defined.

Lemma polar_of_cartesian (y x : R) :
  polar_to_cartesian (sqrt (Rsqr y + Rsqr x)) (arctan2 y x) = (y, x).
Proof.
  unfold polar_to_cartesian. rewrite (Rplus_comm (Rsqr y)).
  destruct (Req_dec x 0) as [Hx|Hx]; [destruct (Req_dec y 0) as [Hy|Hy]|].
  - subst. rewrite Rsqr_0, Rplus_0_l, sqrt_0. tuple_eq; ring.
  - destruct (cos_sin_arctan2 y x) as [-> ->]; [by right|].
    pose proof (sqrt_sum_sqr_pos x y ltac:(by right)). tuple_eq; field; lra.
  - destruct (cos_sin_arctan2 y x) as [-> ->]; [by left|].
    pose proof (sqrt_sum_sqr_pos x y ltac:(by left)). tuple_eq; field; lra.
Qed.

(** X2.  Cartesian coordinates [(y, x)] of the plane, the origin included,
    are recovered from their polar coordinates. *)
Theorem cartesian_through_polar (y x : R) :
  let '(r, phi) := cartesian_to_polar y x in
  polar_to_cartesian r phi = (y, x).
Proof. unfold cartesian_to_polar. apply polar_of_cartesian. Qed.

(** X3.  Every vector [(x, y, z)] other than the zero vector is recovered
    from its spherical coordinates. *)
Theorem cartesian_through_spherical (x y z : R) :
  x <> 0 \/ y <> 0 \/ z <> 0 ->
  let '(r, theta, phi) := cartesian_to_spherical x y z in
  spherical_to_cartesian r theta phi = (x, y, z).
Proof.
  intros Hne. unfold cartesian_to_spherical, spherical_to_cartesian.
  pose proof (norm_pos x y z Hne) as Hr.
  destruct (direction_cosines x y z Hne) as (Hx & Hy & Hz).
  rewrite !(Rmult_assoc _ (sin _)), Hx, Hy, Hz.
  tuple_eq; field; lra.
Qed.

Lemma cartesian_through_spherical_witness :
  let '(r, theta, phi) := cartesian_to_spherical 1 2 (-2) in
  spherical_to_cartesian r theta phi = (1, 2, -2).
Proof. apply (cartesian_through_spherical 1 2 (-2)). left. lra. Defined.

(** X4.  Spherical coordinates with [r > 0], [0 < theta < pi] and [phi] in
    (-pi, pi] are recovered from the vector they describe. *)
Theorem spherical_round_trip (r theta phi : R) :
  0 < r -> 0 < theta < PI -> - PI < phi <= PI ->
  let '(x, y, z) := spherical_to_cartesian r theta phi in
  cartesian_to_spherical x y z = (r, theta, phi).
Proof.
  intros Hr Ht Hp. unfold cartesian_to_spherical, spherical_to_cartesian.
  assert (Hs : 0 < sin theta) by (apply sin_gt_0; lra).
  assert (Hn : sqrt (Rsqr (r * sin theta * cos phi)
                     + Rsqr (r * sin theta * sin phi)
                     + Rsqr (r * cos theta)) = r).
  { pose proof (sin2_cos2 theta) as H1. pose proof (sin2_cos2 phi) as H2.
    unfold Rsqr in *.
    replace (r * sin theta * cos phi * (r * sin theta * cos phi)
             + r * sin theta * sin phi * (r * sin theta * sin phi)
             + r * cos theta * (r * cos theta))
      with (r * r * (sin theta * sin theta
                     * (sin phi * sin phi + cos phi * cos phi)
                     + cos theta * cos theta)) by ring.
    rewrite H2, Rmult_1_r, H1, Rmult_1_r. apply sqrt_square. lra. }
  rewrite Hn.
  replace (r * cos theta / r) with (cos theta) by (field; lra).
  rewrite acos_cos by lra.
  rewrite (arctan2_polar (r * sin theta) phi) by (done || nra).
  done.
Qed.

Lemma spherical_round_trip_witness :
  let '(x, y, z) := spherical_to_cartesian 1 (PI / 2) 0 in
  cartesian_to_spherical x y z = (1, PI / 2, 0).
Proof. apply (spherical_round_trip 1 (PI / 2) 0); pose proof PI_RGT_0; lra. Defined.

End conversion_facts.

(** ** Equirectangular projection: the sphere side *)

Section erp_sphere_facts.

Import coordinate_conversion.
#[local] Open Scope R_scope.

(** X5.  [to_sphere] of the equirectangular projection returns a unit
    vector for every pixel coordinate, when the size has no zero. *)
Theorem erp_to_sphere_unit (H W : Z) (y x : R) :
  H <> 0%Z -> W <> 0%Z ->
  unit_vector (EquirectangularProjection.to_sphere
                 (EquirectangularProjection.mk (H, W)) y x).
Proof.
  intros _ _. unfold EquirectangularProjection.to_sphere,
    spherical_to_cartesian, unit_vector. cbn [fst snd].
  apply unit_spherical.
Qed.

Lemma erp_to_sphere_unit_witness :
  unit_vector (EquirectangularProjection.to_sphere
                 (EquirectangularProjection.mk (8, 8)%Z) 3 5).
Proof. apply (erp_to_sphere_unit 8 8 3 5); lia. Defined.

(** The angles [from_sphere] works with, for a unit vector: the wrapped
    azimuth lies in (-2 pi, 0] and has the sine and cosine of [arctan2]. *)
Lemma wrapped_azimuth (y x : R) :
  let phi := arctan2 y x in
  let phi' := if decide (phi > 0) then phi - 2 * PI else phi in
  - (2 * PI) < phi' <= 0 /\ sin phi' = sin phi /\ cos phi' = cos phi.
Proof.
  intros phi phi'. pose proof (arctan2_range y x) as Hr. fold phi in Hr.
  subst phi'. case_decide.
  - split; [lra|].
    replace (phi - 2 * PI) with (- (2 * PI - phi)) by lra.
    rewrite sin_neg, cos_neg, sin_minus, cos_minus, sin_2PI, cos_2PI.
    split; ring.
  - split; [lra|done].
Qed.

(** X6.  For every unit vector, the pixel coordinates that [from_sphere]
    returns are mapped back to that vector by [to_sphere]. *)
Theorem erp_sphere_round_trip (H W : Z) (xs ys zs : R) :
  H <> 0%Z -> W <> 0%Z -> unit_vector (xs, ys, zs) ->
  let p := EquirectangularProjection.mk (H, W) in
  let '(y, x) := EquirectangularProjection.from_sphere p xs ys zs in
  EquirectangularProjection.to_sphere p y x = (xs, ys, zs).
Proof.
  intros HH HW Hu p. subst p. unfold unit_vector in Hu. cbn [fst snd] in Hu.
  pose proof PI_RGT_0 as Hpi.
  assert (HHR : IZR H <> 0) by (by apply not_0_IZR).
  assert (HWR : IZR W <> 0) by (by apply not_0_IZR).
  unfold EquirectangularProjection.from_sphere, cartesian_to_spherical.
  cbn [EquirectangularProjection._size fst snd].
  destruct (wrapped_azimuth ys xs) as (_ & Hs & Hc). cbv zeta in Hs, Hc.
  set (phi' := if decide (arctan2 ys xs > 0) then arctan2 ys xs - 2 * PI
               else arctan2 ys xs) in *.
  unfold EquirectangularProjection.to_sphere, spherical_to_cartesian.
  cbn [EquirectangularProjection._size fst snd].
  assert (Hne : xs <> 0 \/ ys <> 0 \/ zs <> 0).
  { destruct (Req_dec xs 0) as [->|]; [|tauto].
    destruct (Req_dec ys 0) as [->|]; [|tauto].
    right; right. intros ->. rewrite Rsqr_0 in Hu. lra. }
  destruct (direction_cosines xs ys zs Hne) as (Hx & Hy & Hz).
  rewrite Hu, sqrt_1, !Rdiv_1_r in *.
  replace ((acos zs / PI * IZR H - 0.5 + 0.5) / IZR H * PI) with (acos zs)
    by (field; lra).
  replace (- ((- (phi' / (2 * PI)) * IZR W - 0.5 + 0.5) / IZR W) * 2 * PI)
    with phi' by (field; lra).
  rewrite !Rmult_1_l, Hs, Hc, Hx, Hy, Hz. done.
Qed.

Lemma erp_sphere_round_trip_witness :
  let p := EquirectangularProjection.mk (8, 8)%Z in
  let '(y, x) := EquirectangularProjection.from_sphere p 0 0 1 in
  EquirectangularProjection.to_sphere p y x = (0, 0, 1).
Proof.
  apply (erp_sphere_round_trip 8 8 0 0 1); [lia|lia|].
  unfold unit_vector, Rsqr. cbn [fst snd]. lra.
Defined.

(** X7.  For a unit vector and a positive size [(H, W)], [from_sphere]
    returns coordinates on the image: [-0.5 <= y <= H - 0.5] and
    [-0.5 <= x < W - 0.5]. *)
Theorem erp_from_sphere_range (H W : Z) (xs ys zs : R) :
  (0 < H)%Z -> (0 < W)%Z -> unit_vector (xs, ys, zs) ->
  let '(y, x) := EquirectangularProjection.from_sphere
                   (EquirectangularProjection.mk (H, W)) xs ys zs in
  -0.5 <= y <= IZR H - 0.5 /\ -0.5 <= x < IZR W - 0.5.
Proof.
  intros HH HW Hu. unfold unit_vector in Hu. cbn [fst snd] in Hu.
  pose proof PI_RGT_0 as Hpi. apply IZR_lt in HH, HW.
  unfold EquirectangularProjection.from_sphere, cartesian_to_spherical.
  cbn [EquirectangularProjection._size fst snd].
  destruct (wrapped_azimuth ys xs) as (Hphi & _ & _). cbv zeta in Hphi.
  set (phi' := if decide (arctan2 ys xs > 0) then arctan2 ys xs - 2 * PI
               else arctan2 ys xs) in *.
  rewrite Hu, sqrt_1, Rdiv_1_r.
  pose proof (acos_bound zs) as Hth.
  assert (0 <= acos zs / PI <= 1) as [Ht0 Ht1].
  { split; [apply Rdiv_ge_0; lra|].
    destruct (Req_dec (acos zs) PI) as [->|Hne].
    - right. field. lra.
    - left. apply Rdiv_lt_1; lra. }
  assert (0 <= - (phi' / (2 * PI)) < 1) as [Hp0 Hp1].
  { replace (- (phi' / (2 * PI))) with ((- phi') / (2 * PI)) by (field; lra).
    split; [apply Rdiv_ge_0; lra|apply Rdiv_lt_1; lra]. }
  split; split; nra.
Qed.

Lemma erp_from_sphere_range_witness :
  let '(y, x) := EquirectangularProjection.from_sphere
                   (EquirectangularProjection.mk (8, 8)%Z) 0 0 1 in
  -0.5 <= y <= IZR 8 - 0.5 /\ -0.5 <= x < IZR 8 - 0.5.
Proof.
  apply (erp_from_sphere_range 8 8 0 0 1); [lia|lia|].
  unfold unit_vector, Rsqr. cbn [fst snd]. lra.
Defined.

(** X8.  The focal length [1 / tan (pi / H)] of the equirectangular and
    cubemap projections is positive for every height [H >= 3]. *)
Theorem focal_length_positive (H W : Z) :
  (3 <= H)%Z -> 0 < Focal.focal_length (H, W).
Proof.
  intros HH. apply IZR_le in HH. pose proof PI_RGT_0 as Hpi.
  unfold Focal.focal_length. cbn [fst].
  assert (0 < PI / IZR H < PI / 2) as [H0 H1].
  { split; [apply Rdiv_lt_0_compat; lra|].
    unfold Rdiv. apply Rmult_lt_compat_l; [done|].
    apply Rinv_lt_contravar; lra. }
  apply Rdiv_lt_0_compat; [lra|]. by apply tan_gt_0.
Qed.

Lemma focal_length_positive_witness : 0 < Focal.focal_length (1024, 2048)%Z.
Proof. apply (focal_length_positive 1024 2048). lia. Defined.

End erp_sphere_facts.

(** ** Radial and perspective projections *)

Section radial_facts.

Import coordinate_conversion.
#[local] Open Scope R_scope.

(** The sine of the polar angle of a non-zero vector. *)
Lemma sin_polar_angle (x y z : R) :
  x <> 0 \/ y <> 0 \/ z <> 0 ->
  let r := sqrt (Rsqr x + Rsqr y + Rsqr z) in
  sin (acos (z / r)) = sqrt (Rsqr x + Rsqr y) / r.
Proof.
  intros Hne r. pose proof (norm_pos x y z Hne) as Hr. fold r in Hr.
  assert (Hr2 : r * r = x * x + y * y + z * z).
  { subst r. apply sqrt_sqrt. unfold Rsqr. nra. }
  assert (Hzr : -1 <= z / r <= 1).
  { assert (- r <= z <= r) by nra.
    pose proof (Rinv_0_lt_compat r Hr) as Hi.
    assert (r * / r = 1) by (field; lra).
    unfold Rdiv. nra. }
  rewrite sin_acos by done.
  replace (1 - Rsqr (z / r)) with ((Rsqr x + Rsqr y) / Rsqr r).
  - rewrite sqrt_div_alt by (unfold Rsqr; nra).
    by rewrite sqrt_Rsqr by lra.
  - unfold Rsqr. replace (x * x + y * y) with (r * r - z * z) by lra.
    field. lra.
Qed.

(** The vector [to_sphere] builds from the angles [theta] and [phi], read
    back by [cartesian_to_spherical] after the axis change of
    [from_sphere]. *)
Lemma rewired_angles (theta phi : R) :
  0 <= theta <= PI -> - PI < phi <= PI -> (theta = 0 \/ theta = PI -> phi = 0) ->
  let '(xsr, ysr, zsr) := spherical_to_cartesian 1 theta phi in
  cartesian_to_spherical xsr (- - ysr) (- - zsr) = (1, theta, phi).
Proof.
  intros Ht Hp H0. unfold spherical_to_cartesian, cartesian_to_spherical.
  rewrite !Ropp_involutive, unit_spherical, sqrt_1, Rdiv_1_r, !Rmult_1_l.
  rewrite acos_cos by done.
  destruct (Req_dec theta 0) as [E|Hn0]; [|destruct (Req_dec theta PI) as [E|HnP]].
  - rewrite (H0 (or_introl E)), E, sin_0, !Rmult_0_l.
    unfold arctan2. repeat case_decide; (lra || done).
  - rewrite (H0 (or_intror E)), E, sin_PI, !Rmult_0_l.
    unfold arctan2. repeat case_decide; (lra || done).
  - rewrite arctan2_polar; [done| |done]. apply sin_gt_0; lra.
Qed.

(** A radial projection whose [theta] maps radii to incident angles in
    [0, pi], strictly inside for a positive radius, and whose [radius]
    inverts it, recovers every pixel coordinate from its direction. *)
Lemma radial_inverse (self : RadialProjection.t) (y x : R) :
  (forall r : R, 0 <= r ->
     0 <= RadialProjection.theta self r <= PI
     /\ (0 < r -> 0 < RadialProjection.theta self r < PI)
     /\ RadialProjection.radius self (RadialProjection.theta self r) = r) ->
  let '(xs, ys, zs) := RadialProjection.to_sphere self y x in
  RadialProjection.from_sphere self xs ys zs = (y, x).
Proof.
  intros Hhooks.
  unfold RadialProjection.to_sphere, RadialProjection.from_sphere,
    cartesian_to_polar.
  set (dy := y - (RadialProjection._optical_center self).1).
  set (dx := x - (RadialProjection._optical_center self).2).
  set (r := sqrt (Rsqr dy + Rsqr dx)).
  assert (Hr : 0 <= r) by apply sqrt_pos.
  destruct (Hhooks r Hr) as (Ht & Htpos & Hinv).
  set (theta := RadialProjection.theta self r) in *.
  pose proof (arctan2_range dy dx) as Hphi.
  assert (Hz : theta = 0 \/ theta = PI -> arctan2 dy dx = 0).
  { intros Hth.
    assert (r = 0) as Hr0.
    { destruct Hr as [Hpos|<-]; [|done]. specialize (Htpos Hpos). lra. }
    assert (dy = 0 /\ dx = 0) as [-> ->].
    { subst r. apply sqrt_eq_0 in Hr0; [|unfold Rsqr; nra].
      unfold Rsqr in Hr0. split; nra. }
    unfold arctan2. repeat case_decide; (lra || done). }
  pose proof (rewired_angles theta (arctan2 dy dx) Ht Hphi Hz) as Hback.
  unfold spherical_to_cartesian in *. rewrite Hback, Hinv.
  subst r. rewrite polar_of_cartesian. subst dy dx. tuple_eq; ring.
Qed.

(** X9.  A radial projection whose hooks are inverse to each other
    ([radius (theta r) = r], with [theta r] in [0, pi] and strictly inside
    for [r > 0]) satisfies [from_sphere (to_sphere (y, x)) = (y, x)] at every
    pixel coordinate, the optical centre included. *)
Theorem radial_round_trip (self : RadialProjection.t) (y x : R) :
  (forall r : R, 0 <= r ->
     0 <= RadialProjection.theta self r <= PI
     /\ (0 < r -> 0 < RadialProjection.theta self r < PI)
     /\ RadialProjection.radius self (RadialProjection.theta self r) = r) ->
  let '(xs, ys, zs) := RadialProjection.to_sphere self y x in
  RadialProjection.from_sphere self xs ys zs = (y, x).
Proof. apply radial_inverse. Qed.

(** The hooks of the perspective model, for a positive focal length. *)
Lemma perspective_hooks (p : PerspectiveProjection.t) (r : R) :
  0 < PerspectiveProjection.focal_length p -> 0 <= r ->
  0 <= PerspectiveProjection.theta p r < PI / 2
  /\ (0 < r -> 0 < PerspectiveProjection.theta p r)
  /\ PerspectiveProjection.radius p (PerspectiveProjection.theta p r) = r.
Proof.
  intros Hf Hr. unfold PerspectiveProjection.theta, PerspectiveProjection.radius.
  set (f := PerspectiveProjection.focal_length p) in *.
  pose proof (atan_bound (r / f)) as Hb.
  assert (H0 : 0 <= r / f) by (by apply Rdiv_ge_0).
  split; [split; [|lra]|split].
  - destruct H0 as [Hpos|<-]; [|rewrite atan_0; lra].
    left. rewrite <- atan_0. by apply atan_increasing.
  - intros Hpos. rewrite <- atan_0. apply atan_increasing.
    by apply Rdiv_lt_0_compat.
  - rewrite tan_atan. field. lra.
Qed.

Lemma radial_round_trip_witness :
  let self := PerspectiveProjection.as_radial
                (PerspectiveProjection.mk 1 (0, 0)) in
  let '(xs, ys, zs) := RadialProjection.to_sphere self 3 4 in
  RadialProjection.from_sphere self xs ys zs = (3, 4).
Proof.
  apply (radial_round_trip
           (PerspectiveProjection.as_radial (PerspectiveProjection.mk 1 (0, 0)))
           3 4).
  intros r Hr. cbn.
  destruct (perspective_hooks (PerspectiveProjection.mk 1 (0, 0)) r)
    as (H1 & H2 & H3); [cbn; lra|done|].
  pose proof PI_RGT_0. split; [lra|]. split; [|done].
  intros Hpos. specialize (H2 Hpos). lra.
Defined.

End radial_facts.

Section perspective_facts.

Import coordinate_conversion.
#[local] Open Scope R_scope.

Lemma perspective_to_sphere_radial (p : PerspectiveProjection.t) (y x : R) :
  PerspectiveProjection.to_sphere p y x None
  = RadialProjection.to_sphere (PerspectiveProjection.as_radial p) y x.
Proof. reflexivity. Qed.

Lemma perspective_from_sphere_radial (p : PerspectiveProjection.t)
    (xs ys zs : R) :
  (PerspectiveProjection.from_sphere p xs ys zs).1
  = RadialProjection.from_sphere (PerspectiveProjection.as_radial p) xs ys zs.
Proof.
  unfold PerspectiveProjection.from_sphere, RadialProjection.from_sphere.
  cbn. reflexivity.
Qed.

(** The radius on the image plane of a direction that is not in the plane
    [xs = 0]: the quotient of the off-axis length by the depth [- xs]. *)
Lemma perspective_radius (p : PerspectiveProjection.t) (xs ys zs : R) :
  xs <> 0 ->
  PerspectiveProjection.radius p
    (acos (- xs / sqrt (Rsqr ys + Rsqr (- zs) + Rsqr (- xs))))
  = PerspectiveProjection.focal_length p
    * (sqrt (Rsqr ys + Rsqr (- zs)) / - xs).
Proof.
  intros Hx.
  assert (Hne : ys <> 0 \/ - zs <> 0 \/ - xs <> 0) by (right; right; lra).
  pose proof (norm_pos _ _ _ Hne) as Hn.
  pose proof (sin_polar_angle _ _ _ Hne) as Hs.
  destruct (direction_cosines _ _ _ Hne) as (_ & _ & Hc).
  cbv zeta in Hs, Hc.
  unfold PerspectiveProjection.radius, tan. rewrite Hs, Hc.
  field. lra.
Qed.

(** Central projection: the two coordinates of [from_sphere]. *)
Lemma pinhole_coords (p : PerspectiveProjection.t)
    (xs ys zs : R) :
  xs <> 0 ->
  (PerspectiveProjection.from_sphere p xs ys zs).1
  = (PerspectiveProjection.focal_length p * zs / xs
     + (PerspectiveProjection.optical_center p).1,
     - (PerspectiveProjection.focal_length p * ys / xs)
     + (PerspectiveProjection.optical_center p).2).
Proof.
  intros Hx.
  assert (Hne : ys <> 0 \/ - zs <> 0 \/ - xs <> 0) by (right; right; lra).
  pose proof (norm_pos _ _ _ Hne) as Hn.
  destruct (direction_cosines _ _ _ Hne) as (Ha & Hb & Hc).
  cbv zeta in Ha, Hb, Hc.
  unfold PerspectiveProjection.from_sphere, cartesian_to_spherical,
    polar_to_cartesian, PerspectiveProjection.radius, tan.
  cbn [fst snd].
  set (theta := acos _) in *. set (phi := arctan2 _ _) in *.
  set (n := sqrt _) in *. set (f := PerspectiveProjection.focal_length p).
  assert (Hcos : cos theta <> 0).
  { rewrite Hc. intros E.
    assert (- xs = - xs / n * n) by (field; lra). rewrite E in H. lra. }
  tuple_eq.
  - replace (f * (sin theta / cos theta) * sin phi)
      with (f * (sin theta * sin phi) / cos theta) by (field; done).
    rewrite Hb, Hc. field. lra.
  - replace (f * (sin theta / cos theta) * cos phi)
      with (f * (sin theta * cos phi) / cos theta) by (field; done).
    rewrite Ha, Hc. field. lra.
Qed.

(** X10.  Off the plane [xs = 0], [from_sphere] of the perspective model
    is the central projection onto the image plane:
    [y = cy + f * zs / xs] and [x = cx - f * ys / xs]. *)
Theorem perspective_from_sphere_pinhole (p : PerspectiveProjection.t)
    (xs ys zs : R) :
  xs <> 0 ->
  (PerspectiveProjection.from_sphere p xs ys zs).1
  = (PerspectiveProjection.focal_length p * zs / xs
     + (PerspectiveProjection.optical_center p).1,
     - (PerspectiveProjection.focal_length p * ys / xs)
     + (PerspectiveProjection.optical_center p).2).
Proof. apply pinhole_coords. Qed.

Lemma perspective_from_sphere_pinhole_witness :
  (PerspectiveProjection.from_sphere (PerspectiveProjection.mk 2 (0, 0))
     (-1) 0 0).1
  = (2 * 0 / -1 + 0, - (2 * 0 / -1) + 0).
Proof.
  apply (perspective_from_sphere_pinhole (PerspectiveProjection.mk 2 (0, 0))
           (-1) 0 0). lra.
Defined.

(** When the comparison [r < 0] of [from_sphere] holds. *)
Lemma behind_iff (p : PerspectiveProjection.t) (xs ys zs : R) :
  0 < PerspectiveProjection.focal_length p -> xs <> 0 ->
  (PerspectiveProjection.from_sphere p xs ys zs).2 = true
  <-> xs > 0 /\ (ys <> 0 \/ zs <> 0).
Proof.
  intros Hf Hx.
  unfold PerspectiveProjection.from_sphere, cartesian_to_spherical,
    polar_to_cartesian. cbn [snd].
  rewrite perspective_radius by done.
  set (f := PerspectiveProjection.focal_length p) in *.
  set (rho := sqrt (Rsqr ys + Rsqr (- zs))).
  assert (Hrho : 0 <= rho) by apply sqrt_pos.
  assert (Hrho0 : rho = 0 <-> ys = 0 /\ zs = 0).
  { subst rho. split.
    - intros E. apply sqrt_eq_0 in E; [|unfold Rsqr; nra].
      unfold Rsqr in E. split; nra.
    - intros [-> ->]. rewrite Ropp_0, Rsqr_0, Rplus_0_l. apply sqrt_0. }
  rewrite bool_decide_eq_true. split.
  - intros Hlt.
    assert (Hq : rho / - xs < 0) by nra.
    destruct (Rlt_dec 0 xs) as [Hpos|Hneg].
    + split; [lra|].
      destruct (Req_dec ys 0) as [Hy|]; [|tauto].
      destruct (Req_dec zs 0) as [Hz|]; [|tauto].
      assert (rho = 0) as E by (apply Hrho0; tauto).
      rewrite E in Hq. unfold Rdiv in Hq. lra.
    + assert (0 <= rho / - xs) by (apply Rdiv_ge_0; lra). lra.
  - intros [Hpos Hoff].
    assert (0 < rho).
    { destruct Hrho as [|E]; [done|]. symmetry in E.
      apply Hrho0 in E. tauto. }
    assert (rho / - xs < 0) by (apply Rdiv_pos_neg; lra).
    nra.
Qed.

(** X11.  For a positive focal length, the third result of [from_sphere]
    is [False] for every direction in front of the camera ([xs < 0]) and
    [True] for every direction behind it ([xs > 0]) that is off the optical
    axis. *)
Theorem perspective_behind_flag (p : PerspectiveProjection.t) (xs ys zs : R) :
  0 < PerspectiveProjection.focal_length p ->
  (xs < 0 -> (PerspectiveProjection.from_sphere p xs ys zs).2 = false)
  /\ (xs > 0 -> ys <> 0 \/ zs <> 0 ->
      (PerspectiveProjection.from_sphere p xs ys zs).2 = true).
Proof.
  intros Hf. split.
  - intros Hx.
    destruct ((PerspectiveProjection.from_sphere p xs ys zs).2) eqn:E;
      [|done].
    apply behind_iff in E; [lra|done|lra].
  - intros Hx Hoff. apply behind_iff; [done|lra|by split].
Qed.

Lemma perspective_behind_flag_witness :
  (-1 < 0 ->
   (PerspectiveProjection.from_sphere (PerspectiveProjection.mk 2 (0, 0))
      (-1) 1 0).2 = false)
  /\ (-1 > 0 -> 1 <> 0 \/ 0 <> 0 ->
      (PerspectiveProjection.from_sphere (PerspectiveProjection.mk 2 (0, 0))
         (-1) 1 0).2 = true).
Proof.
  apply (perspective_behind_flag (PerspectiveProjection.mk 2 (0, 0)) (-1) 1 0).
  cbn. lra.
Defined.

(** The direction of a pixel: depth [- cos theta], and the off-axis part
    turned by the azimuth of the pixel about the optical centre. *)
Lemma perspective_direction (p : PerspectiveProjection.t) (y x : R) :
  let dy := y - (PerspectiveProjection.optical_center p).1 in
  let dx := x - (PerspectiveProjection.optical_center p).2 in
  let theta := PerspectiveProjection.theta p (sqrt (Rsqr dy + Rsqr dx)) in
  let phi := arctan2 dy dx in
  PerspectiveProjection.to_sphere p y x None
  = (- cos theta, sin theta * cos phi, - (sin theta * sin phi)).
Proof.
  intros dy dx theta phi.
  unfold PerspectiveProjection.to_sphere, cartesian_to_polar,
    spherical_to_cartesian. fold dy dx theta phi.
  tuple_eq; ring.
Qed.

(** The effect of the compensation switch on [to_sphere]. *)
Lemma vip_switch (p : PerspectiveProjection.t) (y x : R) :
  let '(xs, ys, zs) := PerspectiveProjection.to_sphere p y x None in
  PerspectiveProjection.to_sphere p y x (Some true) = (- xs, - ys, - zs)
  /\ PerspectiveProjection.to_sphere p y x (Some false) = (xs, ys, zs).
Proof.
  rewrite perspective_direction. cbv zeta.
  unfold PerspectiveProjection.to_sphere, cartesian_to_polar,
    spherical_to_cartesian, PerspectiveProjection.bool_to_R.
  set (theta := PerspectiveProjection.theta p _).
  set (phi := arctan2 _ _).
  split.
  - replace (theta - 1 * (2 * theta - PI)) with (PI - theta) by ring.
    replace (phi - 1 * PI) with (- (PI - phi)) by ring.
    rewrite cos_neg, sin_neg.
    destruct (cos_sin_PI_minus theta) as [-> ->].
    destruct (cos_sin_PI_minus phi) as [-> ->].
    tuple_eq; ring.
  - replace (theta - 0 * (2 * theta - PI)) with theta by ring.
    replace (phi - 0 * PI) with phi by ring.
    tuple_eq; ring.
Qed.

(** X12.  With virtual-image-plane compensation switched on, [to_sphere]
    returns the antipode of the direction it returns without it; with the
    switch off ([False]) it returns the same direction as with [None].  The
    focal length is not zero. *)
Theorem perspective_vip_antipode (p : PerspectiveProjection.t) (y x : R) :
  PerspectiveProjection.focal_length p <> 0 ->
  let '(xs, ys, zs) := PerspectiveProjection.to_sphere p y x None in
  PerspectiveProjection.to_sphere p y x (Some true) = (- xs, - ys, - zs)
  /\ PerspectiveProjection.to_sphere p y x (Some false) = (xs, ys, zs).
Proof. intros _. apply vip_switch. Qed.

Lemma perspective_vip_antipode_witness :
  let '(xs, ys, zs) :=
    PerspectiveProjection.to_sphere (PerspectiveProjection.mk 2 (0, 0)) 3 4
      None in
  PerspectiveProjection.to_sphere (PerspectiveProjection.mk 2 (0, 0)) 3 4
    (Some true) = (- xs, - ys, - zs)
  /\ PerspectiveProjection.to_sphere (PerspectiveProjection.mk 2 (0, 0)) 3 4
       (Some false) = (xs, ys, zs).
Proof.
  apply (perspective_vip_antipode (PerspectiveProjection.mk 2 (0, 0)) 3 4).
  cbn. lra.
Defined.

(** X13.  [to_sphere] of the perspective model returns a unit vector,
    with or without compensation, when the focal length is not zero. *)
Theorem perspective_to_sphere_unit (p : PerspectiveProjection.t) (y x : R)
    (vip : option bool) :
  PerspectiveProjection.focal_length p <> 0 ->
  unit_vector (PerspectiveProjection.to_sphere p y x vip).
Proof.
  intros _.
  assert (Hu : unit_vector (PerspectiveProjection.to_sphere p y x None)).
  { rewrite perspective_direction. cbv zeta.
    set (theta := PerspectiveProjection.theta p _). set (phi := arctan2 _ _).
    unfold unit_vector. cbn [fst snd].
    pose proof (unit_spherical theta phi) as H.
    rewrite <- !Rsqr_neg. rewrite !Rmult_1_l in H. lra. }
  pose proof (vip_switch p y x) as Hv.
  destruct (PerspectiveProjection.to_sphere p y x None)
    as [[xs ys] zs] eqn:E.
  destruct Hv as [Ht Hf].
  destruct vip as [[|]|]; rewrite ?Ht, ?Hf, ?E; [|done|done].
  unfold unit_vector in *. cbn [fst snd] in *. by rewrite <- !Rsqr_neg.
Qed.

Lemma perspective_to_sphere_unit_witness :
  unit_vector (PerspectiveProjection.to_sphere
                 (PerspectiveProjection.mk 2 (0, 0)) 3 4 (Some true)).
Proof.
  apply (perspective_to_sphere_unit (PerspectiveProjection.mk 2 (0, 0)) 3 4).
  cbn. lra.
Defined.

(** For a positive focal length [f] the direction of the pixel at offset
    [(dy, dx)] from the optical centre is [(- f, dx, - dy)] scaled by the
    positive factor [cos theta / f]. *)
Lemma perspective_direction_scaled (p : PerspectiveProjection.t) (y x : R) :
  0 < PerspectiveProjection.focal_length p ->
  let dy := y - (PerspectiveProjection.optical_center p).1 in
  let dx := x - (PerspectiveProjection.optical_center p).2 in
  let c := cos (PerspectiveProjection.theta p (sqrt (Rsqr dy + Rsqr dx))) in
  0 < c
  /\ PerspectiveProjection.to_sphere p y x None
     = (- c, c * dx / PerspectiveProjection.focal_length p,
        - (c * dy / PerspectiveProjection.focal_length p)).
Proof.
  intros Hf dy dx c. rewrite perspective_direction. cbv zeta. fold dy dx.
  set (r := sqrt (Rsqr dy + Rsqr dx)) in *.
  assert (Hr : 0 <= r) by apply sqrt_pos.
  destruct (perspective_hooks p r Hf Hr) as ((Ht0 & Ht1) & _ & Hinv).
  set (theta := PerspectiveProjection.theta p r) in *. fold c.
  assert (Hc : 0 < c) by (apply cos_gt_0; lra).
  split; [done|].
  unfold PerspectiveProjection.radius, tan in Hinv.
  set (f := PerspectiveProjection.focal_length p) in *.
  assert (Hs : sin theta = c * r / f).
  { fold c in Hinv. rewrite <- Hinv. field. lra. }
  pose proof (polar_of_cartesian dy dx) as Hp. fold r in Hp.
  unfold polar_to_cartesian in Hp. injection Hp as Hy Hx.
  rewrite Hs. tuple_eq; [done| |].
  - rewrite <- Hx at 2. field. lra.
  - rewrite <- Hy at 2. field. lra.
Qed.

(** X14.  For a positive focal length, [from_sphere (to_sphere (y, x))]
    is [(y, x)] with the behind-camera flag [False], at every pixel
    coordinate. *)
Theorem perspective_round_trip (p : PerspectiveProjection.t) (y x : R) :
  0 < PerspectiveProjection.focal_length p ->
  let '(xs, ys, zs) := PerspectiveProjection.to_sphere p y x None in
  PerspectiveProjection.from_sphere p xs ys zs = (y, x, false).
Proof.
  intros Hf.
  destruct (perspective_direction_scaled p y x Hf) as [Hc ->].
  set (c := cos _) in *. set (f := PerspectiveProjection.focal_length p) in *.
  set (dy := y - _). set (dx := x - _).
  assert (Hx : - c <> 0) by lra.
  pose proof (pinhole_coords p (- c) (c * dx / f) (- (c * dy / f)) Hx) as H1.
  pose proof (behind_iff p (- c) (c * dx / f) (- (c * dy / f)) Hf Hx) as H2.
  destruct (PerspectiveProjection.from_sphere p (- c) (c * dx / f)
              (- (c * dy / f))) as [yx b].
  cbn [fst snd] in H1, H2. subst yx. fold f. f_equal.
  - subst dy dx. tuple_eq; field; lra.
  - destruct b; [|done]. destruct H2 as [H2 _]. specialize (H2 eq_refl). lra.
Qed.

Lemma perspective_round_trip_witness :
  let '(xs, ys, zs) :=
    PerspectiveProjection.to_sphere (PerspectiveProjection.mk 2 (0, 0)) 3 4
      None in
  PerspectiveProjection.from_sphere (PerspectiveProjection.mk 2 (0, 0)) xs ys zs
  = (3, 4, false).
Proof.
  apply (perspective_round_trip (PerspectiveProjection.mk 2 (0, 0)) 3 4).
  cbn. lra.
Defined.

(** X15.  With compensation switched on, the round trip returns the pixel
    coordinate again, with the behind-camera flag [True], at every pixel
    other than the optical centre. *)
Theorem perspective_vip_round_trip (p : PerspectiveProjection.t) (y x : R) :
  0 < PerspectiveProjection.focal_length p ->
  y <> (PerspectiveProjection.optical_center p).1
  \/ x <> (PerspectiveProjection.optical_center p).2 ->
  let '(xs, ys, zs) := PerspectiveProjection.to_sphere p y x (Some true) in
  PerspectiveProjection.from_sphere p xs ys zs = (y, x, true).
Proof.
  intros Hf Hcen.
  pose proof (vip_switch p y x) as Hv.
  destruct (perspective_direction_scaled p y x Hf) as [Hc E].
  rewrite E in Hv. destruct Hv as [-> _].
  set (c := cos _) in *. set (f := PerspectiveProjection.focal_length p) in *.
  set (dy := y - (PerspectiveProjection.optical_center p).1) in *.
  set (dx := x - (PerspectiveProjection.optical_center p).2) in *.
  assert (Hx : - - c <> 0) by lra.
  pose proof (pinhole_coords p (- - c) (- (c * dx / f)) (- - (c * dy / f)) Hx)
    as H1.
  pose proof (behind_iff p (- - c) (- (c * dx / f)) (- - (c * dy / f)) Hf Hx)
    as H2.
  destruct (PerspectiveProjection.from_sphere p (- - c) (- (c * dx / f))
              (- - (c * dy / f))) as [yx b].
  cbn [fst snd] in H1, H2. subst yx. fold f. f_equal.
  - subst dy dx. tuple_eq; field; lra.
  - assert (Hk : 0 < c / f) by (by apply Rdiv_lt_0_compat).
    assert (Ey : - - (c * dy / f) = c / f * dy) by (field; lra).
    assert (Ex : - (c * dx / f) = - (c / f * dx)) by (field; lra).
    rewrite Ey, Ex in H2.
    apply H2. split; [lra|].
    destruct (Req_dec dx 0) as [Hdx|Hdx].
    + right. assert (dy <> 0) by (subst dy dx; lra). nra.
    + left. nra.
Qed.

Lemma perspective_vip_round_trip_witness :
  let '(xs, ys, zs) :=
    PerspectiveProjection.to_sphere (PerspectiveProjection.mk 2 (0, 0)) 3 4
      (Some true) in
  PerspectiveProjection.from_sphere (PerspectiveProjection.mk 2 (0, 0)) xs ys zs
  = (3, 4, true).
Proof.
  apply (perspective_vip_round_trip (PerspectiveProjection.mk 2 (0, 0)) 3 4).
  - cbn. lra.
  - cbn. lra.
Defined.

End perspective_facts.

(** ** Masked loops, position by position *)

Section pointwise_facts.

(** Writing back the images of the selected entries is a pointwise
    update. *)
Lemma np_assign_map {P V : Type} (f : P -> bool) (g : P -> V)
    (dst : list V) (pts : list P) :
  length dst = length pts ->
  np_assign dst (map f pts) (map g (np_select (map f pts) pts))
  = Ok (zip_with (fun d p => if f p then g p else d) dst pts).
Proof.
  revert dst. induction pts as [|p pts IH]; intros [|d dst] Hlen; try done.
  cbn in Hlen. cbn [map np_select zip_with].
  destruct (f p) eqn:E; cbn [map np_assign]; rewrite IH by lia; done.
Qed.

Lemma for_each_pointwise {A P V : Type} (upd : A -> P -> V -> V)
    (body : list V -> A -> result (list V)) (pts : list P) :
  (forall (a : A) (coords : list V),
     length coords = length pts ->
     body coords a = Ok (zip_with (fun d p => upd a p d) coords pts)) ->
  forall (l : list A) (coords : list V),
    length coords = length pts ->
    for_each body coords l
    = Ok (zip_with (fun d p => foldl (fun d a => upd a p d) d l) coords pts).
Proof.
  intros Hbody l. induction l as [|a l IH]; intros coords Hlen.
  - cbn. f_equal. clear Hbody. revert pts Hlen.
    induction coords as [|d coords IHc]; intros [|p pts] Hlen; try done.
    cbn in *. f_equal. apply IHc. lia.
  - cbn [for_each]. rewrite Hbody by done. rewrite bind_Ok.
    rewrite IH by (rewrite length_zip_with; lia).
    f_equal. clear. revert pts.
    induction coords as [|d coords IHc]; intros [|p pts]; try done.
    cbn. f_equal. apply IHc.
Qed.

Lemma zip_with_replicate_l {P V W : Type} (f : V -> P -> W) (v : V)
    (pts : list P) :
  zip_with f (replicate (length pts) v) pts = map (f v) pts.
Proof. induction pts as [|p pts IH]; [done|]. cbn. by rewrite IH. Qed.

End pointwise_facts.

Section cmp_pointwise.

Import coordinate_conversion CubemapProjection CubemapSphere.
#[local] Open Scope R_scope.

(** On an array of two dimensions [from_sphere] does not raise and works
    direction by direction. *)
Lemma from_sphere_pointwise (self : CubemapProjection.t) (s0 s1 : nat)
    (pts : list (R * R * R)) :
  length pts = (s0 * s1)%nat ->
  from_sphere self (mkNdarray [s0; s1] pts)
  = Ok (mkNdarray [s0; s1] (map (from_sphere_point self) pts)).
Proof.
  intros Hlen. unfold from_sphere. cbn [shape]. rewrite <- Hlen.
  rewrite (for_each_pointwise
             (fun (r : Region) (p : R * R * R) (d : np_float * np_float) =>
                if within_cubeface_mask r p
                then (Some (to_2d_point r p).1, Some (to_2d_point r p).2)
                else d)
             (from_sphere_body (mkNdarray [s0; s1] pts)) pts).
  - rewrite bind_Ok, zip_with_replicate_l, map_map. done.
  - intros r coords Hc. unfold from_sphere_body, to_2d. cbn [shape flat].
    rewrite np_select_forallb. cbn [negb]. rewrite bind_Ok, map_map.
    rewrite decide_False by (cbn; lia).
    by rewrite np_assign_map.
  - by rewrite length_replicate.
Qed.

(** On an array of two dimensions [to_sphere] does not raise and works
    pixel by pixel. *)
Lemma to_sphere_pointwise (empty : R * R * R) (self : CubemapProjection.t)
    (s0 s1 : nat) (pix : list (R * R)) :
  length pix = (s0 * s1)%nat ->
  to_sphere empty self (mkNdarray [s0; s1] pix)
  = Ok (mkNdarray [s0; s1] (map (to_sphere_point empty self) pix)).
Proof.
  intros Hlen. unfold to_sphere. cbn [shape flat]. rewrite <- Hlen.
  set (nrm := fun yx : R * R =>
                ((yx.1 + 0.5) / IZR (_size self).1,
                 (yx.2 + 0.5) / IZR (_size self).2)).
  rewrite <- (length_map nrm pix).
  remember (map nrm pix) as pts eqn:Hpts.
  rewrite (for_each_pointwise
             (fun (r : Region) (p : R * R)
                  (d : np_float * np_float * np_float) =>
                if within_region_mask r p.1 p.2
                then (Some (to_3d_point empty r p).1.1,
                      Some (to_3d_point empty r p).1.2,
                      Some (to_3d_point empty r p).2)
                else d)
             (to_sphere_body empty (mkNdarray [s0; s1] pts)) pts).
  - rewrite bind_Ok, zip_with_replicate_l. subst pts. by rewrite !map_map.
  - intros r coords Hc. unfold to_sphere_body, to_3d, contains.
    cbn [shape flat].
    rewrite (np_select_forallb
               (fun yx : R * R => within_region_mask r yx.1 yx.2)).
    cbn [negb]. rewrite bind_Ok.
    rewrite (map_map (to_3d_point empty r)).
    rewrite decide_False by (cbn; lia).
    by rewrite (np_assign_map
                  (fun yx : R * R => within_region_mask r yx.1 yx.2)).
  - by rewrite length_replicate.
Qed.

End cmp_pointwise.

(** ** Cubemap projection: coordinate maps, regions and [to_sphere] *)

Section cmp_sphere_facts.

Import coordinate_conversion CubemapProjection CubemapSphere.
#[local] Open Scope R_scope.

Lemma lerp_inverse (v a1 b1 a2 b2 : R) :
  a1 <> b1 -> a2 <> b2 -> lerp (lerp v a1 b1 a2 b2) a2 b2 a1 b1 = v.
Proof. intros H1 H2. unfold lerp. field. lra. Qed.

(** X16.  The two directions of a [CoordMap] whose intervals are not
    degenerate are inverse to each other. *)
Theorem coordmap_round_trip (m : CoordMap) (v : R) :
  (interval_2d m).1 <> (interval_2d m).2 ->
  (interval_3d m).1 <> (interval_3d m).2 ->
  val2d_for_3d m (val3d_for_2d m v) = v
  /\ val3d_for_2d m (val2d_for_3d m v) = v.
Proof.
  intros H2 H3. unfold val2d_for_3d, val3d_for_2d.
  split; by apply lerp_inverse.
Qed.

Lemma coordmap_round_trip_witness :
  val2d_for_3d (x_map top) (val3d_for_2d (x_map top) 0.25) = 0.25
  /\ val3d_for_2d (x_map top) (val2d_for_3d (x_map top) 0.25) = 0.25.
Proof. apply (coordmap_round_trip (x_map top) 0.25); cbn; lra. Defined.

(** X17.  [Region.__init__] raises exactly when the two maps use the same
    3D axis; otherwise it stores both maps and the plane value, and the
    plane axis it picks differs from both map axes. *)
Theorem region_init_axes (xm ym : CoordMap) (pv : R) :
  (axis_3d xm = axis_3d ym ->
     Region_init xm ym pv
     = Raise (Exception "2d coordinates x and y are mapped to same 3d axis"))
  /\ (axis_3d xm <> axis_3d ym ->
      exists a : axis,
        Region_init xm ym pv = Ok (mkRegion xm ym a pv)
        /\ a <> axis_3d xm /\ a <> axis_3d ym).
Proof.
  unfold Region_init. split; intros H.
  - by rewrite decide_True.
  - rewrite decide_False by done.
    destruct (axis_3d xm), (axis_3d ym); try done; cbn; eauto.
Qed.

Lemma Rabs_div_pos (u n : R) : 0 < n -> Rabs (u / n) = Rabs u / n.
Proof.
  intros Hn. unfold Rdiv. rewrite Rabs_mult, Rabs_inv.
  by rewrite (Rabs_pos_eq n) by lra.
Qed.

Lemma Rdiv_lt_iff (a b n : R) : 0 < n -> a / n > b / n <-> a > b.
Proof.
  intros Hn. pose proof (Rinv_0_lt_compat n Hn). unfold Rdiv. split; nra.
Qed.

(** The masks on the sphere do not depend on the length of the vector. *)
Lemma mask_scale (r : Region) (x y z n : R) :
  0 < n ->
  within_cubeface_mask r (x / n, y / n, z / n)
  = within_cubeface_mask r (x, y, z).
Proof.
  intros Hn. pose proof (Rinv_0_lt_compat n Hn) as Hi.
  unfold within_cubeface_mask. cbn [fst snd].
  rewrite !Rabs_div_pos by done.
  assert (Hs : forall u : R, bool_decide (u / n > 0) = bool_decide (u > 0)).
  { intros u. apply bool_decide_ext. unfold Rdiv. split; nra. }
  assert (Hs' : forall u : R, bool_decide (u / n < 0) = bool_decide (u < 0)).
  { intros u. apply bool_decide_ext. unfold Rdiv. split; nra. }
  assert (Hc : forall a b : R,
            bool_decide (a / n > b / n) = bool_decide (a > b)).
  { intros a b. apply bool_decide_ext. by apply Rdiv_lt_iff. }
  destruct (plane_axis_3d r), (axis_3d (x_map r)), (axis_3d (y_map r));
    cbn [_ax_to_idx tuple_get fst snd]; by rewrite ?Hs, ?Hs', ?Hc.
Qed.

Lemma on_plane_scale (r : Region) (x y z n : R) :
  n <> 0 -> tuple_get (x, y, z) (_ax_to_idx (plane_axis_3d r)) <> 0 ->
  on_plane r (x / n, y / n, z / n) = on_plane r (x, y, z).
Proof.
  intros Hn Hp. unfold on_plane.
  destruct (plane_axis_3d r); cbn [_ax_to_idx tuple_get fst snd] in *;
    tuple_eq; field; done.
Qed.

Lemma on_plane_face (r : Region) (q : R * R * R) :
  tuple_get q (_ax_to_idx (plane_axis_3d r)) = plane_val_3d r ->
  plane_val_3d r <> 0 ->
  on_plane r q = q.
Proof.
  intros Hp Hpv. destruct q as [[x y] z]. unfold on_plane. rewrite Hp.
  cbn [fst snd]. tuple_eq; field; done.
Qed.

(** A non-zero vector divided by its norm is a unit vector. *)
Lemma normalized_unit (x y z : R) :
  x <> 0 \/ y <> 0 \/ z <> 0 ->
  let n := sqrt (Rsqr x + Rsqr y + Rsqr z) in
  unit_vector (x / n, y / n, z / n).
Proof.
  intros Hne n. pose proof (norm_pos x y z Hne) as Hn. fold n in Hn.
  assert (Hn2 : n * n = x * x + y * y + z * z).
  { subst n. apply sqrt_sqrt. unfold Rsqr. nra. }
  unfold unit_vector, Rsqr. cbn [fst snd].
  replace (x / n * (x / n) + y / n * (y / n) + z / n * (z / n))
    with ((x * x + y * y + z * z) / (n * n)) by (field; lra).
  rewrite <- Hn2. field. lra.
Qed.

(** *** The six faces *)

Ltac unfold_face :=
  cbn [top left front right back bottom
       plane_axis_3d plane_val_3d x_map y_map axis_3d interval_2d interval_3d
       _ax_to_idx tuple_get tuple_set fst snd] in *.

(** Decides [within_region_mask] from the order facts in the context. *)
Ltac solve_rmask :=
  unfold within_region_mask; unfold_face; unfold Rmin, Rmax;
  repeat (destruct (Rle_dec _ _); try lra);
  repeat (case_bool_decide; try lra);
  try reflexivity.

Ltac eval_rmask r yn xn :=
  first [ replace (within_region_mask r yn xn) with true by solve_rmask
        | replace (within_region_mask r yn xn) with false by solve_rmask ].

Ltac six_faces H :=
  cbn in H; destruct H as [<-|[<-|[<-|[<-|[<-|[<-|[]]]]]]].

(** A point strictly inside the rectangle of a face belongs to no other
    face. *)
Lemma region_filter_inside (r : Region) (yn xn : R) :
  In r [top; left; front; right; back; bottom] ->
  inside_region r yn xn ->
  List.filter (fun r' => within_region_mask r' yn xn)
    [top; left; front; right; back; bottom] = [r].
Proof.
  intros Hin Hins. unfold inside_region in Hins.
  six_faces Hin; unfold_face; unfold Rmin, Rmax in Hins;
    repeat (destruct (Rle_dec _ _) in Hins; try lra);
    destruct Hins as (H1 & H2 & H3 & H4);
    cbn [List.filter];
    eval_rmask top yn xn; eval_rmask left yn xn; eval_rmask front yn xn;
    eval_rmask right yn xn; eval_rmask back yn xn; eval_rmask bottom yn xn;
    reflexivity.
Qed.

(** A loop that overwrites on a condition leaves the image under the last
    element that satisfies it. *)
Lemma foldl_filter {A V : Type} (f : A -> bool) (g : A -> V) (init : V)
    (l : list A) :
  foldl (fun d a => if f a then g a else d) init l
  = foldl (fun _ a => g a) init (List.filter f l).
Proof.
  revert init. induction l as [|a l IH]; intros init; [done|].
  cbn. destruct (f a); cbn; apply IH.
Qed.

(** The point of the cube that [to_3d] builds: its plane coordinate is the
    plane value and its two other coordinates are the images of the canvas
    coordinates, whatever the array held before. *)
Lemma to_3d_point_coords (empty : R * R * R) (r : Region) (yn xn : R) :
  In r [top; left; front; right; back; bottom] ->
  let q := to_3d_point empty r (yn, xn) in
  tuple_get q (_ax_to_idx (plane_axis_3d r)) = plane_val_3d r
  /\ tuple_get q (_ax_to_idx (axis_3d (x_map r))) = val3d_for_2d (x_map r) xn
  /\ tuple_get q (_ax_to_idx (axis_3d (y_map r))) = val3d_for_2d (y_map r) yn.
Proof.
  intros Hin. destruct empty as [[e1 e2] e3].
  six_faces Hin; unfold to_3d_point; unfold_face; done.
Qed.

Lemma face_constants (r : Region) :
  In r [top; left; front; right; back; bottom] ->
  (plane_val_3d r = 1 \/ plane_val_3d r = -1)
  /\ (interval_2d (x_map r)).1 <> (interval_2d (x_map r)).2
  /\ (interval_3d (x_map r)).1 <> (interval_3d (x_map r)).2
  /\ (interval_2d (y_map r)).1 <> (interval_2d (y_map r)).2
  /\ (interval_3d (y_map r)).1 <> (interval_3d (y_map r)).2.
Proof.
  intros Hin. six_faces Hin; unfold_face; repeat split; lra.
Qed.

Lemma val3d_inside (r : Region) (yn xn : R) :
  In r [top; left; front; right; back; bottom] ->
  inside_region r yn xn ->
  -1 < val3d_for_2d (x_map r) xn < 1 /\ -1 < val3d_for_2d (y_map r) yn < 1.
Proof.
  intros Hin Hins. unfold inside_region in Hins.
  six_faces Hin; unfold val3d_for_2d, lerp; unfold_face;
    unfold Rmin, Rmax in Hins;
    repeat (destruct (Rle_dec _ _) in Hins; try lra); lra.
Qed.

Lemma tuple_get_abs (x y z : R) (i : nat) :
  tuple_get (Rabs x, Rabs y, Rabs z) i = Rabs (tuple_get (x, y, z) i).
Proof. by destruct i as [|[|i]]. Qed.

(** A cube point with plane coordinate [+1] or [-1] and in-plane
    coordinates strictly between them is claimed by its region. *)
Lemma mask_on_face (r : Region) (q : R * R * R) :
  tuple_get q (_ax_to_idx (plane_axis_3d r)) = plane_val_3d r ->
  plane_val_3d r = 1 \/ plane_val_3d r = -1 ->
  -1 < tuple_get q (_ax_to_idx (axis_3d (x_map r))) < 1 ->
  -1 < tuple_get q (_ax_to_idx (axis_3d (y_map r))) < 1 ->
  within_cubeface_mask r q = true.
Proof.
  destruct q as [[x y] z]. intros Hp Hpv Hx Hy.
  unfold within_cubeface_mask, np_sign. cbn [fst snd].
  rewrite !tuple_get_abs, Hp.
  assert (Rabs (plane_val_3d r) = 1) as ->.
  { destruct Hpv as [-> | ->]; [apply Rabs_R1|]. rewrite Rabs_left; lra. }
  assert (Rabs (tuple_get (x, y, z) (_ax_to_idx (axis_3d (x_map r)))) < 1)
    by (apply Rabs_def1; lra).
  assert (Rabs (tuple_get (x, y, z) (_ax_to_idx (axis_3d (y_map r)))) < 1)
    by (apply Rabs_def1; lra).
  destruct Hpv as [E|E]; rewrite E;
    repeat (case_decide; try lra); repeat (case_bool_decide; try lra);
    reflexivity.
Qed.

Lemma tuple_get_div (x y z n : R) (i : nat) :
  tuple_get (x / n, y / n, z / n) i = tuple_get (x, y, z) i / n.
Proof. by destruct i as [|[|i]]. Qed.

(** A direction that region [r] of the tuple claims is claimed by no other
    region. *)
Lemma claimed_filter (r : Region) (p : R * R * R) :
  In r [top; left; front; right; back; bottom] ->
  within_cubeface_mask r p = true ->
  List.filter (fun r' => within_cubeface_mask r' p)
    [top; left; front; right; back; bottom] = [r].
Proof.
  intros Hin Hm.
  assert (Hoff : off_edge p).
  { apply (mask_off_edge (mk (0, 0)%Z top left front right back bottom)
             (0, 0)%Z r p); [apply init_ok|done|done]. }
  destruct (partition_core p Hoff) as (r0 & Hf & _).
  assert (Hr : In r [r0]).
  { rewrite <- Hf. apply filter_In. by split. }
  destruct Hr as [<-|[]]. done.
Qed.

(** The pixel of a face and the direction [to_sphere] gives it: the
    direction is the normalised cube point, its region claims it, and
    [to_2d] brings it back to the canvas point. *)
Lemma face_round_trip (empty : R * R * R) (r : Region) (yn xn : R) :
  In r [top; left; front; right; back; bottom] ->
  inside_region r yn xn ->
  let q := to_3d_point empty r (yn, xn) in
  let n := sqrt (Rsqr q.1.1 + Rsqr q.1.2 + Rsqr q.2) in
  let v := (q.1.1 / n, q.1.2 / n, q.2 / n) in
  unit_vector v
  /\ within_cubeface_mask r v = true
  /\ to_2d_point r v = (yn, xn).
Proof.
  intros Hin Hins q n v.
  destruct (to_3d_point_coords empty r yn xn Hin) as (Hp & Hx & Hy).
  destruct (face_constants r Hin) as (Hpv & Hx2 & Hx3 & Hy2 & Hy3).
  destruct (val3d_inside r yn xn Hin Hins) as (Hbx & Hby).
  fold q in Hp, Hx, Hy. cbv zeta in Hp, Hx, Hy.
  destruct q as [[q1 q2] q3] eqn:Eq. cbn [fst snd] in *.
  assert (Hpv0 : plane_val_3d r <> 0) by (destruct Hpv; lra).
  assert (Hne : q1 <> 0 \/ q2 <> 0 \/ q3 <> 0).
  { destruct (plane_axis_3d r); cbn [_ax_to_idx tuple_get fst snd] in Hp;
      rewrite <- Hp in Hpv0; tauto. }
  pose proof (norm_pos q1 q2 q3 Hne) as Hn. fold n in Hn.
  split; [by apply normalized_unit|].
  assert (Hm : within_cubeface_mask r v = true).
  { subst v. rewrite mask_scale by done.
    apply mask_on_face; [done|done|by rewrite Hx|by rewrite Hy]. }
  split; [done|].
  rewrite to_2d_point_on_plane.
  - subst v. rewrite on_plane_scale by (rewrite ?Hp; lra).
    rewrite on_plane_face by done.
    rewrite Hx, Hy. unfold val2d_for_3d, val3d_for_2d.
    by rewrite !lerp_inverse.
  - subst v. rewrite tuple_get_div, Hp. unfold Rdiv.
    pose proof (Rinv_0_lt_compat n Hn). nra.
Qed.

(** X18.  Cubemap round trip: for a canvas without a zero side and a
    pixel coordinate whose normalised position lies strictly inside the
    rectangle of one of the six faces, [to_sphere] returns a unit vector and
    [from_sphere] maps that vector back to the pixel coordinate. *)
Theorem cmp_pixel_round_trip (empty : R * R * R) (size : Z * Z)
    (c : CubemapProjection.t) (r : Region) (y x : R) :
  init size = Ok c -> size.1 <> 0%Z -> size.2 <> 0%Z ->
  In r (regions c) ->
  inside_region r ((y + 0.5) / IZR size.1) ((x + 0.5) / IZR size.2) ->
  exists xs ys zs : R,
    to_sphere empty c (mkNdarray [1%nat; 1%nat] [(y, x)])
    = Ok (mkNdarray [1%nat; 1%nat] [(Some xs, Some ys, Some zs)])
    /\ unit_vector (xs, ys, zs)
    /\ from_sphere c (mkNdarray [1%nat; 1%nat] [(xs, ys, zs)])
       = Ok (mkNdarray [1%nat; 1%nat] [(Some y, Some x)]).
Proof.
  rewrite init_ok. intros [= <-] HH HW Hin Hins.
  apply not_0_IZR in HH, HW.
  unfold regions in Hin.
  cbn [top_region left_region front_region right_region back_region
       bottom_region] in Hin.
  set (yn := (y + 0.5) / IZR size.1) in *.
  set (xn := (x + 0.5) / IZR size.2) in *.
  destruct (face_round_trip empty r yn xn Hin Hins) as (Hu & Hm & Hback).
  cbv zeta in Hu, Hm, Hback.
  set (q := to_3d_point empty r (yn, xn)) in *.
  set (n := sqrt (Rsqr q.1.1 + Rsqr q.1.2 + Rsqr q.2)) in *.
  exists (q.1.1 / n), (q.1.2 / n), (q.2 / n).
  split; [|split; [done|]].
  - rewrite to_sphere_pointwise by reflexivity. cbn [map]. do 3 f_equal.
    unfold to_sphere_point, regions.
    cbn [_size top_region left_region front_region right_region back_region
         bottom_region fst snd].
    fold yn xn. rewrite foldl_filter, (region_filter_inside r) by done.
    cbn [foldl]. fold q. unfold normalize. by fold n.
  - rewrite from_sphere_pointwise by reflexivity. cbn [map]. do 3 f_equal.
    unfold from_sphere_point, regions.
    cbn [_size top_region left_region front_region right_region back_region
         bottom_region fst snd].
    rewrite foldl_filter, (claimed_filter r) by done.
    cbn [foldl]. rewrite Hback. cbn [fst snd fmap option_fmap option_map].
    subst yn xn. f_equal; f_equal; field; done.
Qed.

Lemma cmp_pixel_round_trip_witness :
  exists xs ys zs : R,
    to_sphere (0, 0, 0) (mk (64, 96)%Z top left front right back bottom)
      (mkNdarray [1%nat; 1%nat] [(47.5, 15.5)])
    = Ok (mkNdarray [1%nat; 1%nat] [(Some xs, Some ys, Some zs)])
    /\ unit_vector (xs, ys, zs)
    /\ from_sphere (mk (64, 96)%Z top left front right back bottom)
         (mkNdarray [1%nat; 1%nat] [(xs, ys, zs)])
       = Ok (mkNdarray [1%nat; 1%nat] [(Some 47.5, Some 15.5)]).
Proof.
  apply (cmp_pixel_round_trip (0, 0, 0) (64, 96)%Z _ top 47.5 15.5).
  - reflexivity.
  - cbn. lia.
  - cbn. lia.
  - cbn. tauto.
  - unfold inside_region. unfold_face. unfold Rmin, Rmax.
    repeat (destruct (Rle_dec _ _); try lra).
Defined.

(** The point where the ray of a claimed direction meets the plane of its
    region: the scale factor is positive and the two in-plane coordinates
    lie strictly between [-1] and [1]. *)
Lemma plane_point_bounds (r : Region) (p : R * R * R) :
  In r [top; left; front; right; back; bottom] ->
  within_cubeface_mask r p = true ->
  let a := tuple_get p (_ax_to_idx (plane_axis_3d r)) in
  a <> 0 /\ 0 < plane_val_3d r / a
  /\ tuple_get (on_plane r p) (_ax_to_idx (plane_axis_3d r)) = plane_val_3d r
  /\ -1 < tuple_get (on_plane r p) (_ax_to_idx (axis_3d (x_map r))) < 1
  /\ -1 < tuple_get (on_plane r p) (_ax_to_idx (axis_3d (y_map r))) < 1.
Proof.
  intros Hin Hm a.
  destruct (face_constants r Hin) as (Hpv & _).
  destruct p as [[x y] z].
  unfold within_cubeface_mask, np_sign in Hm. cbn [fst snd] in Hm.
  rewrite !tuple_get_abs in Hm. fold a in Hm.
  rewrite !andb_true_iff, !bool_decide_eq_true in Hm.
  destruct Hm as [[Hs Hx] Hy].
  assert (Ha : a <> 0).
  { intros E. rewrite E, Rabs_R0 in Hx.
    pose proof (Rabs_pos (tuple_get (x, y, z)
                            (_ax_to_idx (axis_3d (x_map r))))). lra. }
  assert (Hpos : 0 < plane_val_3d r / a).
  { destruct Hpv as [E|E]; rewrite E in Hs |- *;
      repeat (case_decide; try (exfalso; lra));
      try discriminate Hs; try apply bool_decide_eq_true in Hs;
      first [ apply Rdiv_lt_0_compat; lra
            | replace (-1 / a) with (1 / - a) by (field; done);
              apply Rdiv_lt_0_compat; lra ]. }
  split; [done|]. split; [done|].
  pose proof (ratio_bound (plane_val_3d r) a
                (tuple_get (x, y, z) (_ax_to_idx (axis_3d (x_map r))))
                Hpv ltac:(lra)) as Bx.
  pose proof (ratio_bound (plane_val_3d r) a
                (tuple_get (x, y, z) (_ax_to_idx (axis_3d (y_map r))))
                Hpv ltac:(lra)) as By.
  assert (Hg : forall i : nat,
            tuple_get (on_plane r (x, y, z)) i
            = plane_val_3d r / a * tuple_get (x, y, z) i).
  { intros [|[|i]]; reflexivity. }
  rewrite !Hg. split; [|done].
  fold a. field. done.
Qed.

(** In-plane coordinates strictly between [-1] and [1] land strictly inside
    the rectangle of the face, and [to_3d] brings them back to the cube. *)
Lemma face_back (empty : R * R * R) (r : Region) (q : R * R * R) :
  In r [top; left; front; right; back; bottom] ->
  tuple_get q (_ax_to_idx (plane_axis_3d r)) = plane_val_3d r ->
  -1 < tuple_get q (_ax_to_idx (axis_3d (x_map r))) < 1 ->
  -1 < tuple_get q (_ax_to_idx (axis_3d (y_map r))) < 1 ->
  let yn := val2d_for_3d (y_map r)
              (tuple_get q (_ax_to_idx (axis_3d (y_map r)))) in
  let xn := val2d_for_3d (x_map r)
              (tuple_get q (_ax_to_idx (axis_3d (x_map r)))) in
  inside_region r yn xn /\ 0 < yn < 1 /\ 0 < xn < 1
  /\ to_3d_point empty r (yn, xn) = q.
Proof.
  intros Hin Hp Hx Hy. destruct q as [[q1 q2] q3].
  destruct empty as [[e1 e2] e3].
  six_faces Hin; cbv zeta;
    unfold inside_region, to_3d_point, val3d_for_2d, val2d_for_3d, lerp,
      Rmin, Rmax;
    unfold_face; subst;
    repeat (destruct (Rle_dec _ _); try lra);
    (split; [lra|]); (split; [lra|]); (split; [lra|]);
    tuple_eq; lra.
Qed.

Lemma norm_scale (s x y z : R) :
  0 < s ->
  sqrt (Rsqr (s * x) + Rsqr (s * y) + Rsqr (s * z))
  = s * sqrt (Rsqr x + Rsqr y + Rsqr z).
Proof.
  intros Hs.
  replace (Rsqr (s * x) + Rsqr (s * y) + Rsqr (s * z))
    with (Rsqr s * (Rsqr x + Rsqr y + Rsqr z)) by (unfold Rsqr; ring).
  rewrite sqrt_mult; [|apply Rle_0_sqr|unfold Rsqr; nra].
  by rewrite sqrt_Rsqr by lra.
Qed.

(** X19.  Cubemap round trip from the sphere: a direction off the cube
    edges is mapped by [from_sphere] to a pixel coordinate within the canvas
    (between [-0.5] and [size - 0.5] on both axes), and [to_sphere] maps that
    coordinate back to the direction divided by its length. *)
Theorem cmp_sphere_round_trip (empty : R * R * R) (size : Z * Z)
    (c : CubemapProjection.t) (p : R * R * R) :
  init size = Ok c -> (0 < size.1)%Z -> (0 < size.2)%Z ->
  off_edge p ->
  let n := sqrt (Rsqr p.1.1 + Rsqr p.1.2 + Rsqr p.2) in
  exists y x : R,
    from_sphere c (mkNdarray [1%nat; 1%nat] [p])
    = Ok (mkNdarray [1%nat; 1%nat] [(Some y, Some x)])
    /\ -0.5 < y < IZR size.1 - 0.5
    /\ -0.5 < x < IZR size.2 - 0.5
    /\ to_sphere empty c (mkNdarray [1%nat; 1%nat] [(y, x)])
       = Ok (mkNdarray [1%nat; 1%nat]
               [(Some (p.1.1 / n), Some (p.1.2 / n), Some (p.2 / n))]).
Proof.
  rewrite init_ok. intros [= <-] HH HW Hoff n.
  apply IZR_lt in HH, HW.
  destruct (partition_core p Hoff) as (r & Hf & _).
  assert (Hr : In r (List.filter (fun r => within_cubeface_mask r p)
                       [top; left; front; right; back; bottom])).
  { rewrite Hf. by left. }
  apply filter_In in Hr. destruct Hr as [Hin Hm].
  destruct (plane_point_bounds r p Hin Hm) as (Ha & Hs & Hp & Hx & Hy).
  cbv zeta in Ha, Hs.
  destruct (face_back empty r (on_plane r p) Hin Hp Hx Hy)
    as (Hins & Byn & Bxn & Hq).
  cbv zeta in Hins, Byn, Bxn, Hq.
  set (yn := val2d_for_3d (y_map r)
               (tuple_get (on_plane r p) (_ax_to_idx (axis_3d (y_map r)))))
    in *.
  set (xn := val2d_for_3d (x_map r)
               (tuple_get (on_plane r p) (_ax_to_idx (axis_3d (x_map r)))))
    in *.
  exists (yn * IZR size.1 - 0.5), (xn * IZR size.2 - 0.5).
  split; [|split; [nra|split; [nra|]]].
  - rewrite from_sphere_pointwise by reflexivity. cbn [map]. do 3 f_equal.
    unfold from_sphere_point, regions.
    cbn [_size top_region left_region front_region right_region back_region
         bottom_region fst snd].
    rewrite foldl_filter, Hf. cbn [foldl].
    by rewrite to_2d_point_on_plane by done.
  - rewrite to_sphere_pointwise by reflexivity. cbn [map]. do 3 f_equal.
    unfold to_sphere_point, regions.
    cbn [_size top_region left_region front_region right_region back_region
         bottom_region fst snd].
    replace ((yn * IZR size.1 - 0.5 + 0.5) / IZR size.1) with yn
      by (field; lra).
    replace ((xn * IZR size.2 - 0.5 + 0.5) / IZR size.2) with xn
      by (field; lra).
    rewrite foldl_filter, (region_filter_inside r) by done.
    cbn [foldl]. rewrite Hq.
    destruct p as [[x y] z]. unfold on_plane, normalize. cbn [fst snd] in *.
    set (s := plane_val_3d r
              / tuple_get (x, y, z) (_ax_to_idx (plane_axis_3d r))) in *.
    rewrite norm_scale by done. fold n.
    assert (Hne : x <> 0 \/ y <> 0 \/ z <> 0).
    { destruct (plane_axis_3d r); cbn [_ax_to_idx tuple_get fst snd] in Ha;
        tauto. }
    pose proof (norm_pos x y z Hne) as Hn. fold n in Hn.
    tuple_eq; f_equal; field; lra.
Qed.

Lemma cmp_sphere_round_trip_witness :
  let n := sqrt (Rsqr 1 + Rsqr 2 + Rsqr 4) in
  exists y x : R,
    from_sphere (mk (64, 96)%Z top left front right back bottom)
      (mkNdarray [1%nat; 1%nat] [(1, 2, 4)])
    = Ok (mkNdarray [1%nat; 1%nat] [(Some y, Some x)])
    /\ -0.5 < y < IZR 64 - 0.5
    /\ -0.5 < x < IZR 96 - 0.5
    /\ to_sphere (0, 0, 0) (mk (64, 96)%Z top left front right back bottom)
         (mkNdarray [1%nat; 1%nat] [(y, x)])
       = Ok (mkNdarray [1%nat; 1%nat]
               [(Some (1 / n), Some (2 / n), Some (4 / n))]).
Proof.
  apply (cmp_sphere_round_trip (0, 0, 0) (64, 96)%Z _ (1, 2, 4)).
  - reflexivity.
  - cbn. lia.
  - cbn. lia.
  - unfold off_edge. cbn [fst snd]. right. right.
    rewrite !Rabs_pos_eq by lra. lra.
Defined.

(** The outcome of an overwriting loop: the initial value if no element
    satisfies the condition, the image of one that does otherwise. *)
Lemma foldl_claim {A V : Type} (f : A -> bool) (g : A -> V) (init : V)
    (l : list A) :
  let out := foldl (fun d a => if f a then g a else d) init l in
  (Forall (fun a => f a = false) l /\ out = init)
  \/ (exists a : A, In a l /\ f a = true /\ out = g a).
Proof.
  cbv zeta. revert init. induction l as [|a l IH]; intros init.
  - left. by split.
  - cbn [foldl]. destruct (f a) eqn:E.
    + right. destruct (IH (g a)) as [[_ ->]|(b & Hb & Hfb & ->)].
      * exists a. split; [by left|done].
      * exists b. split; [by right|done].
    + destruct (IH init) as [[Hall ->]|(b & Hb & Hfb & ->)].
      * left. split; [by constructor|done].
      * right. exists b. split; [by right|done].
Qed.

(** The six rectangles cover the unit square and nothing else. *)
Lemma canvas_cover (yn xn : R) :
  0 <= yn <= 1 -> 0 <= xn <= 1 ->
  exists r : Region,
    In r [top; left; front; right; back; bottom]
    /\ within_region_mask r yn xn = true.
Proof.
  intros Hy Hx.
  destruct (Rle_dec yn 0.5) as [Hy1|Hy1];
    destruct (Rle_dec xn (1/3)) as [Hx1|Hx1];
    [exists left|
     destruct (Rle_dec xn (2/3)); [exists front|exists right]|
     exists top|
     destruct (Rle_dec xn (2/3)); [exists back|exists bottom]];
    (split; [cbn; tauto|solve_rmask]).
Qed.

Lemma canvas_only (r : Region) (yn xn : R) :
  In r [top; left; front; right; back; bottom] ->
  within_region_mask r yn xn = true ->
  0 <= yn <= 1 /\ 0 <= xn <= 1.
Proof.
  intros Hin. unfold within_region_mask.
  rewrite !andb_true_iff, !bool_decide_eq_true.
  six_faces Hin; unfold_face; unfold Rmin, Rmax;
    repeat (destruct (Rle_dec _ _); try lra); lra.
Qed.

(** What [to_sphere] computes at one pixel coordinate: a unit vector
    when the normalised position lies in the unit square, NaN otherwise. *)
Lemma to_sphere_point_cases (empty : R * R * R) (size : Z * Z) (y x : R) :
  let yn := (y + 0.5) / IZR size.1 in
  let xn := (x + 0.5) / IZR size.2 in
  let o := to_sphere_point empty
             (mk size top left front right back bottom) (y, x) in
  (0 <= yn <= 1 /\ 0 <= xn <= 1 ->
   exists v : R * R * R,
     o = (Some v.1.1, Some v.1.2, Some v.2) /\ unit_vector v)
  /\ (~ (0 <= yn <= 1 /\ 0 <= xn <= 1) -> o = (nan, nan, nan)).
Proof.
  intros yn xn. unfold to_sphere_point, regions.
  cbn [_size top_region left_region front_region right_region back_region
       bottom_region fst snd].
  fold yn xn. cbv zeta.
  set (o := foldl _ _ _).
  assert (Hcl :
    (Forall (fun r => within_region_mask r yn xn = false)
       [top; left; front; right; back; bottom]
     /\ o = (nan, nan, nan))
    \/ (exists r : Region,
          In r [top; left; front; right; back; bottom]
          /\ within_region_mask r yn xn = true
          /\ o = (Some (to_3d_point empty r (yn, xn)).1.1,
                  Some (to_3d_point empty r (yn, xn)).1.2,
                  Some (to_3d_point empty r (yn, xn)).2))).
  { apply (foldl_claim (fun r => within_region_mask r yn xn)
             (fun r => (Some (to_3d_point empty r (yn, xn)).1.1,
                        Some (to_3d_point empty r (yn, xn)).1.2,
                        Some (to_3d_point empty r (yn, xn)).2))). }
  clearbody o.
  destruct Hcl as [[Hall ->]|(r & Hin & Hm & ->)].
  - split; [|done]. intros [Hy Hx].
    destruct (canvas_cover yn xn Hy Hx) as (r & Hin & Hm).
    rewrite Forall_forall in Hall.
    rewrite (Hall r) in Hm; [done|]. by apply list_elem_of_In.
  - split; [|intros Hout; destruct Hout; by apply (canvas_only r)].
    intros _.
    destruct (to_3d_point_coords empty r yn xn Hin) as (Hp & _).
    destruct (face_constants r Hin) as (Hpv & _).
    cbv zeta in Hp.
    destruct (to_3d_point empty r (yn, xn)) as [[q1 q2] q3] eqn:Eq.
    cbn [fst snd normalize].
    set (n := sqrt (Rsqr q1 + Rsqr q2 + Rsqr q3)).
    exists (q1 / n, q2 / n, q3 / n). split; [done|].
    apply normalized_unit.
    destruct (plane_axis_3d r); cbn [_ax_to_idx tuple_get fst snd] in Hp;
      destruct Hpv; lra.
Qed.

(** On an array of more than two dimensions the first pass of the loop
    of [to_sphere] raises when it writes back. *)
Lemma to_sphere_body_too_many (empty : R * R * R) (pix : ndarray (R * R))
    (coords_3d : list (np_float * np_float * np_float)) (region : Region) :
  (2 < length (shape pix))%nat ->
  to_sphere_body empty pix coords_3d region
  = Raise (IndexError "too many indices for array").
Proof.
  intros Hdim. unfold to_sphere_body, to_3d, contains.
  rewrite (np_select_forallb
             (fun yx : R * R => within_region_mask region yx.1 yx.2)).
  cbn [negb]. rewrite bind_Ok. by rewrite decide_True.
Qed.

(** X20.  [to_sphere] returns exactly for the arrays of pixel coordinates
    of two dimensions: it reads [y.shape[1]], so an array of fewer
    dimensions raises [IndexError], and an array of more than two raises
    [IndexError] when the first region writes back.  On an array of two
    dimensions the result has the shape of the input; on a canvas without a
    zero side, a coordinate whose normalised position lies in the unit
    square gets a unit vector, and any other coordinate gets NaN in all
    three components. *)
Theorem cmp_to_sphere_valid (empty : R * R * R) (size : Z * Z)
    (c : CubemapProjection.t) (pix : ndarray (R * R)) :
  init size = Ok c -> size.1 <> 0%Z -> size.2 <> 0%Z -> well_shaped pix ->
  (length (shape pix) = 2%nat ->
   exists out : ndarray (np_float * np_float * np_float),
     to_sphere empty c pix = Ok out
     /\ shape out = shape pix
     /\ length (flat out) = length (flat pix)
     /\ forall (i : nat) (y x : R),
          flat pix !! i = Some (y, x) ->
          let yn := (y + 0.5) / IZR size.1 in
          let xn := (x + 0.5) / IZR size.2 in
          (0 <= yn <= 1 /\ 0 <= xn <= 1 ->
           exists v : R * R * R,
             flat out !! i = Some (Some v.1.1, Some v.1.2, Some v.2)
             /\ unit_vector v)
          /\ (~ (0 <= yn <= 1 /\ 0 <= xn <= 1) ->
              flat out !! i = Some (nan, nan, nan)))
  /\ ((length (shape pix) < 2)%nat ->
      to_sphere empty c pix = Raise (IndexError "tuple index out of range"))
  /\ ((2 < length (shape pix))%nat ->
      to_sphere empty c pix = Raise (IndexError "too many indices for array")).
Proof.
  rewrite init_ok. intros [= <-] HH HW Hws. unfold well_shaped in Hws.
  destruct pix as [sh pix]. cbn [shape flat] in *.
  split; [|split].
  - intros Hdim. destruct sh as [|s0 [|s1 [|s2 rest]]]; try done.
    cbn in Hws.
    exists (mkNdarray [s0; s1]
              (map (to_sphere_point empty
                      (mk size top left front right back bottom)) pix)).
    split; [apply to_sphere_pointwise; lia|].
    split; [done|]. split; [cbn [flat]; by rewrite length_map|].
    intros i y x Hi. cbn [flat].
    set (yn := (y + 0.5) / IZR size.1). set (xn := (x + 0.5) / IZR size.2).
    destruct (to_sphere_point_cases empty size y x) as [Hin Hout].
    cbv zeta in Hin, Hout. fold yn xn in Hin, Hout.
    split; intros Hc.
    + destruct (Hin Hc) as (v & E & Hu). exists v. split; [|done].
      by rewrite list_lookup_fmap, Hi, <- E.
    + by rewrite list_lookup_fmap, Hi, <- (Hout Hc).
  - intros Hdim. unfold to_sphere. cbn [shape].
    destruct sh as [|s0 [|s1 rest]]; cbn in Hdim; (done || lia).
  - intros Hdim. unfold to_sphere. cbn [shape].
    destruct sh as [|s0 [|s1 rest]]; cbn in Hdim; try lia.
    unfold regions. cbn [for_each].
    rewrite to_sphere_body_too_many; [done|]. cbn. lia.
Qed.

Lemma cmp_to_sphere_valid_witness :
  let pix := mkNdarray [1%nat; 2%nat] [(10, 20); (70, 20)] in
  (length (shape pix) = 2%nat ->
   exists out : ndarray (np_float * np_float * np_float),
     to_sphere (0, 0, 0) (mk (64, 96)%Z top left front right back bottom) pix
     = Ok out
     /\ shape out = shape pix
     /\ length (flat out) = length (flat pix)
     /\ forall (i : nat) (y x : R),
          flat pix !! i = Some (y, x) ->
          let yn := (y + 0.5) / IZR 64 in
          let xn := (x + 0.5) / IZR 96 in
          (0 <= yn <= 1 /\ 0 <= xn <= 1 ->
           exists v : R * R * R,
             flat out !! i = Some (Some v.1.1, Some v.1.2, Some v.2)
             /\ unit_vector v)
          /\ (~ (0 <= yn <= 1 /\ 0 <= xn <= 1) ->
              flat out !! i = Some (nan, nan, nan)))
  /\ ((length (shape pix) < 2)%nat ->
      to_sphere (0, 0, 0) (mk (64, 96)%Z top left front right back bottom) pix
      = Raise (IndexError "tuple index out of range"))
  /\ ((2 < length (shape pix))%nat ->
      to_sphere (0, 0, 0) (mk (64, 96)%Z top left front right back bottom) pix
      = Raise (IndexError "too many indices for array")).
Proof.
  apply (cmp_to_sphere_valid (0, 0, 0) (64, 96)%Z _
           (mkNdarray [1%nat; 2%nat] [(10, 20); (70, 20)])).
  - reflexivity.
  - cbn. lia.
  - cbn. lia.
  - reflexivity.
Defined.

End cmp_sphere_facts.

(** ** Matching pursuit: what one iteration and the whole loop achieve *)

Section pursuit_facts.

Import fsmr.
#[local] Open Scope R_scope.

(** The effect of subtracting a multiple of an atom on the projection and
    on the energy. *)
Lemma projection_update (w a r : list R) (t : R) :
  length a = length r -> length w = length r ->
  projection w a (zip_with Rminus r (map (fun b => t * b) a))
  = projection w a r - t * atom_energy w a.
Proof.
  unfold projection, atom_energy.
  revert a w. induction r as [|x r IH]; intros [|b a] [|u w] Ha Hw;
    try done; cbn in Ha, Hw.
  - cbn. lra.
  - cbn [map zip_with]. rewrite !Rsum_cons, IH by lia. unfold Rsqr. ring.
Qed.

Lemma energy_update (w a r : list R) (t : R) :
  length a = length r -> length w = length r ->
  weighted_energy w (zip_with Rminus r (map (fun b => t * b) a))
  = weighted_energy w r - 2 * t * projection w a r
    + t * t * atom_energy w a.
Proof.
  unfold weighted_energy, projection, atom_energy.
  revert a w. induction r as [|x r IH]; intros [|b a] [|u w] Ha Hw;
    try done; cbn in Ha, Hw.
  - cbn. lra.
  - cbn [map zip_with]. rewrite !Rsum_cons, IH by lia. unfold Rsqr. ring.
Qed.

(** On finite entries [np.argmax] returns the position of an entry that
    no other entry exceeds. *)
Lemma argmax_from_max (l : list R) (bi i : nat) (b : R) :
  (argmax_from bi (XFinite b) i (map XFinite l) = bi
   /\ Forall (fun x => x <= b) l)
  \/ (exists (k : nat) (m : R),
        argmax_from bi (XFinite b) i (map XFinite l) = (i + k)%nat
        /\ l !! k = Some m
        /\ b < m /\ Forall (fun x => x <= m) l).
Proof.
  revert bi i b. induction l as [|x l IH]; intros bi i b.
  - left. by split.
  - cbn [map argmax_from np_isnan xfloat_gt]. case_bool_decide as Hx.
    + right.
      destruct (IH i (S i) x) as [[-> Hall]|(k & m & -> & Hk & Hm & Hall)].
      * exists 0%nat, x. split; [lia|]. split; [done|]. split; [lra|].
        constructor; [lra|done].
      * exists (S k), m. split; [lia|]. split; [done|]. split; [lra|].
        constructor; [lra|done].
    + destruct (IH bi (S i) b) as [[-> Hall]|(k & m & -> & Hk & Hm & Hall)].
      * left. split; [done|]. constructor; [lra|done].
      * right. exists (S k), m. split; [lia|]. split; [done|].
        split; [done|]. constructor; [lra|done].
Qed.

Lemma np_argmax_max (l : list R) (idx : nat) :
  np_argmax (map XFinite l) = Ok idx ->
  exists m : R, l !! idx = Some m /\ Forall (fun x => x <= m) l.
Proof.
  destruct l as [|x l]; [done|]. cbn [map np_argmax np_isnan].
  intros [= <-].
  destruct (argmax_from_max l 0 1 x)
    as [[-> Hall]|(k & m & -> & Hk & Hm & Hall)].
  - exists x. split; [done|]. constructor; [lra|done].
  - exists m. split; [done|]. constructor; [lra|done].
Qed.

(** What one iteration computes on well-shaped data with atoms of positive
    energy: the selected index, its atom, and the new state. *)
Lemma fsmr_step_spec (B : ndarray2) (N L : nat) (w f D : list R) (odc : R)
    (st : mp_state) :
  dict_shape B N L -> L <> 0%nat ->
  length w = N -> length f = L ->
  np_dot (np_square B) w = Ok D ->
  Forall (fun atom => 0 < atom_energy w atom) (rows B) ->
  length (residual st) = N -> length (coeffs st) = L ->
  exists (idx : nat) (atom : list R) (ci fi : R),
    rows B !! idx = Some atom /\ length atom = N
    /\ coeffs st !! idx = Some ci
    /\ f !! idx = Some fi
    /\ (forall (k : nat) (fk : R) (ak : list R),
          f !! k = Some fk -> rows B !! k = Some ak ->
          fk * (Rsqr (projection w ak (residual st)) / atom_energy w ak)
          <= fi * (Rsqr (projection w atom (residual st))
                   / atom_energy w atom))
    /\ let t := odc * (projection w atom (residual st) / atom_energy w atom) in
       fsmr_step B w f D odc st
       = Ok (mkState (zip_with Rminus (residual st) (map (fun b => t * b) atom))
                     (<[idx := ci + t]> (coeffs st))).
Proof.
  intros HB HL Hw Hf HD0 Hpos Hres Hco.
  assert (HD : D = map (atom_energy w) (rows B) /\ length D = L).
  { rewrite (energies_eq B N L w HB Hw) in HD0. injection HD0 as <-.
    rewrite length_map. by destruct HB as (_ & ? & _). }
  destruct HD as [HD HDlen].
  assert (HDnz : Forall (fun d => d <> 0) D).
  { rewrite HD. apply Forall_fmap. eapply Forall_impl; [exact Hpos|].
    intros atom Ha. cbn. lra. }
  unfold fsmr_step.
  rewrite np_broadcast_eq by congruence. rewrite bind_Ok.
  assert (Hp : np_dot B (zip_with Rmult (residual st) w)
               = Ok (map (fun row => projection w row (residual st)) (rows B))).
  { unfold np_dot. destruct HB as (Hc & _).
    rewrite decide_True by (rewrite length_zip_with; lia). done. }
  rewrite Hp, bind_Ok.
  set (p := map (fun row => projection w row (residual st)) (rows B)).
  assert (Hplen : length p = L).
  { subst p. rewrite length_map. by destruct HB as (_ & ? & _). }
  rewrite np_broadcast_eq by (rewrite length_map; congruence).
  rewrite bind_Ok.
  rewrite np_broadcast_eq by (rewrite length_zip_with, length_map; lia).
  rewrite bind_Ok, objective_finite by done.
  set (obj := zip_with Rmult f (zip_with Rdiv (map Rsqr p) D)).
  assert (Hobj : length obj = L).
  { subst obj. rewrite !length_zip_with, length_map. lia. }
  destruct (np_argmax_ok (map XFinite obj)) as (idx & Eidx & Hidx).
  { intros E. apply (f_equal length) in E.
    rewrite length_map, Hobj in E. cbn in E. lia. }
  rewrite length_map in Hidx.
  destruct (np_argmax_max obj idx Eidx) as (m & Hm & Hmax).
  rewrite Eidx, bind_Ok.
  assert (Hobjk : forall (k : nat) (fk : R) (ak : list R),
            f !! k = Some fk -> rows B !! k = Some ak ->
            obj !! k
            = Some (fk * (Rsqr (projection w ak (residual st))
                          / atom_energy w ak))).
  { intros k fk ak Hfk Hak. subst obj p.
    rewrite !lookup_zip_with, Hfk, !list_lookup_fmap, HD, !list_lookup_fmap.
    by rewrite Hak. }
  destruct HB as (_ & Hr & Hrows).
  destruct (np_get_ok (rows B) idx ltac:(lia)) as (atom & Eatom & Hatom).
  assert (Hlen : length atom = N).
  { by apply (proj1 (Forall_lookup _ _) Hrows idx). }
  assert (Hen : 0 < atom_energy w atom).
  { by apply (proj1 (Forall_lookup _ _) Hpos idx). }
  assert (Ep : np_get p idx = Ok (projection w atom (residual st))).
  { unfold np_get. subst p. by rewrite list_lookup_fmap, Hatom. }
  assert (Ed : np_get D idx = Ok (atom_energy w atom)).
  { unfold np_get. by rewrite HD, list_lookup_fmap, Hatom. }
  destruct (np_get_ok (coeffs st) idx ltac:(lia)) as (ci & Eci & Hci).
  destruct (lookup_lt_is_Some_2 f idx ltac:(lia)) as [fi Hfi].
  exists idx, atom, ci, fi.
  split; [done|]. split; [done|]. split; [done|]. split; [done|].
  split.
  { intros k fk ak Hfk Hak.
    rewrite (Hobjk idx fi atom Hfi Hatom) in Hm. injection Hm as <-.
    apply (proj1 (Forall_lookup _ _) Hmax k). by apply Hobjk. }
  cbv zeta. rewrite Ep, bind_Ok, Ed, bind_Ok, py_div_ok by lra.
  rewrite bind_Ok, Eci, bind_Ok, Eatom, bind_Ok.
  rewrite np_broadcast_eq by (rewrite length_map; congruence).
  rewrite bind_Ok. do 3 f_equal. apply map_ext. intros b. ring.
Qed.

(** X21.  One iteration of the matching pursuit on well-shaped data, with
    every atom of positive weighted energy: it does not raise; the selected
    atom maximises the frequency-weighted quotient
    [f * projection^2 / energy]; the iteration adds [odc * c] to the
    coefficient of that atom, where [c] is the projection of the residual on
    the atom divided by the energy of the atom; the projection of the new
    residual on that atom is [1 - odc] times the old one; and the weighted
    energy of the residual drops by [odc * (2 - odc) * projection^2 / energy]. *)
Theorem fsmr_step_energy (B : ndarray2) (N L : nat) (w f D : list R)
    (odc : R) (st : mp_state) :
  dict_shape B N L -> L <> 0%nat ->
  length w = N -> length f = L ->
  np_dot (np_square B) w = Ok D ->
  Forall (fun atom => 0 < atom_energy w atom) (rows B) ->
  length (residual st) = N -> length (coeffs st) = L ->
  exists (st' : mp_state) (idx : nat) (atom : list R) (ci fi : R),
    fsmr_step B w f D odc st = Ok st'
    /\ rows B !! idx = Some atom
    /\ coeffs st !! idx = Some ci
    /\ f !! idx = Some fi
    /\ let p := projection w atom (residual st) in
       let d := atom_energy w atom in
       (forall (k : nat) (fk : R) (ak : list R),
          f !! k = Some fk -> rows B !! k = Some ak ->
          fk * (Rsqr (projection w ak (residual st)) / atom_energy w ak)
          <= fi * (Rsqr p / d))
       /\ coeffs st' = <[idx := ci + odc * (p / d)]> (coeffs st)
       /\ projection w atom (residual st') = (1 - odc) * p
       /\ weighted_energy w (residual st')
          = weighted_energy w (residual st) - odc * (2 - odc) * (p * p / d).
Proof.
  intros HB HL Hw Hf HD Hpos Hres Hco.
  destruct (fsmr_step_spec B N L w f D odc st HB HL Hw Hf HD Hpos Hres Hco)
    as (idx & atom & ci & fi & Hatom & Hlen & Hci & Hfi & Hbest & Hstep).
  cbv zeta in Hstep.
  assert (Hd : 0 < atom_energy w atom).
  { by apply (proj1 (Forall_lookup _ _) Hpos idx). }
  eexists _, idx, atom, ci, fi. split; [exact Hstep|].
  split; [done|]. split; [done|]. split; [done|].
  cbv zeta. cbn [residual coeffs].
  split; [exact Hbest|]. split; [done|]. split.
  - rewrite projection_update by congruence. field. lra.
  - rewrite energy_update by congruence. field. lra.
Qed.

Lemma fsmr_step_energy_witness :
  exists (st' : mp_state) (idx : nat) (atom : list R) (ci fi : R),
    fsmr_step (mkArray2 1 [[2]]) [1] [1] [Rsqr 2 * 1 + 0] (1/2)
      (mkState [3] [0]) = Ok st'
    /\ rows (mkArray2 1 [[2]]) !! idx = Some atom
    /\ coeffs (mkState [3] [0]) !! idx = Some ci
    /\ [1] !! idx = Some fi
    /\ let p := projection [1] atom (residual (mkState [3] [0])) in
       let d := atom_energy [1] atom in
       (forall (k : nat) (fk : R) (ak : list R),
          [1] !! k = Some fk -> rows (mkArray2 1 [[2]]) !! k = Some ak ->
          fk * (Rsqr (projection [1] ak (residual (mkState [3] [0])))
                / atom_energy [1] ak)
          <= fi * (Rsqr p / d))
       /\ coeffs st' = <[idx := ci + 1/2 * (p / d)]> (coeffs (mkState [3] [0]))
       /\ projection [1] atom (residual st') = (1 - 1/2) * p
       /\ weighted_energy [1] (residual st')
          = weighted_energy [1] (residual (mkState [3] [0]))
            - 1/2 * (2 - 1/2) * (p * p / d).
Proof.
  apply (fsmr_step_energy (mkArray2 1 [[2]]) 1 1 [1] [1] [Rsqr 2 * 1 + 0]
           (1/2) (mkState [3] [0])).
  - split; [reflexivity|]. split; [reflexivity|]. repeat constructor.
  - lia.
  - reflexivity.
  - reflexivity.
  - reflexivity.
  - repeat constructor. unfold atom_energy. cbn. unfold Rsqr. lra.
  - reflexivity.
  - reflexivity.
Defined.

(** *** The model behind the coefficients *)

(** The signal that the coefficients describe on the mesh of the
    dictionary: entry [j] is the sum of [coeffs[k] * basis_dict[k][j]]. *)
Lemma np_dot_transpose (B : ndarray2) (N L : nat) (c : list R) :
  dict_shape B N L -> length c = L ->
  np_dot (np_transpose B) c
  = Ok (map (fun j => Rsum (zip_with Rmult
                              (map (fun row => nth j row 0) (rows B)) c))
            (seq 0 N)).
Proof.
  intros (Hc & Hr & _) Hlen. unfold np_dot, np_transpose.
  cbn [ncols rows]. rewrite decide_True by congruence.
  by rewrite map_map, Hc.
Qed.

Lemma Rsum_zip_insert (col c : list R) (idx : nat) (ci b t : R) :
  col !! idx = Some b -> c !! idx = Some ci ->
  Rsum (zip_with Rmult col (<[idx := ci + t]> c))
  = Rsum (zip_with Rmult col c) + t * b.
Proof.
  revert c idx. induction col as [|b0 col IH]; intros [|c0 c] [|idx] Hb Hc;
    try done.
  - cbn in Hb, Hc. injection Hb as ->. injection Hc as ->.
    change (<[0%nat := ci + t]> (ci :: c)) with ((ci + t) :: c).
    cbn [zip_with]. rewrite !Rsum_cons. ring.
  - cbn in Hb, Hc.
    change (<[S idx := ci + t]> (c0 :: c)) with (c0 :: <[idx := ci + t]> c).
    cbn [zip_with]. rewrite !Rsum_cons, (IH c idx) by done. ring.
Qed.

Lemma zip_minus_assoc (v m a : list R) :
  zip_with Rminus (zip_with Rminus v m) a
  = zip_with Rminus v (zip_with Rplus m a).
Proof.
  revert m a. induction v as [|x v IH]; intros [|y m] [|z a]; try done.
  cbn. rewrite IH. f_equal. ring.
Qed.

Lemma zip_minus_zero (v : list R) (s : list nat) :
  length s = length v -> zip_with Rminus v (map (fun _ => 0) s) = v.
Proof.
  revert s. induction v as [|x v IH]; intros [|j s] Hlen; try done.
  cbn in Hlen. cbn. rewrite IH by lia. f_equal. ring.
Qed.

(** Raising one coefficient by [t] adds [t] times its atom to the model. *)
Lemma model_insert (B : ndarray2) (N L : nat) (c atom : list R) (idx : nat)
    (ci t : R) :
  dict_shape B N L -> rows B !! idx = Some atom -> c !! idx = Some ci ->
  map (fun j => Rsum (zip_with Rmult (map (fun row => nth j row 0) (rows B))
                        (<[idx := ci + t]> c)))
      (seq 0 N)
  = zip_with Rplus
      (map (fun j => Rsum (zip_with Rmult
                             (map (fun row => nth j row 0) (rows B)) c))
           (seq 0 N))
      (map (fun b => t * b) atom).
Proof.
  intros (Hc & Hr & Hrows) Hatom Hci.
  assert (Hlen : length atom = N).
  { by apply (proj1 (Forall_lookup _ _) Hrows idx). }
  apply list_eq. intros j.
  rewrite lookup_zip_with, !list_lookup_fmap.
  destruct (decide (j < N)%nat) as [Hj|Hj].
  - rewrite lookup_seq_lt by done. cbn.
    destruct (lookup_lt_is_Some_2 atom j ltac:(lia)) as [a Ha].
    rewrite Ha. cbn. f_equal.
    rewrite (Rsum_zip_insert _ c idx ci (nth j atom 0) t);
      [|by rewrite list_lookup_fmap, Hatom|done].
    by rewrite nth_lookup, Ha.
  - rewrite lookup_seq_ge by lia. done.
Qed.

(** X22.  On well-shaped data, with every atom of positive weighted energy
    and a compensation factor between 0 and 2, [fsmr] returns coefficients
    whose model, the sum of [coeffs[k] * basis_dict[k]], differs from the
    signal by a residual of no more weighted energy than the signal
    itself, whatever the number of iterations. *)
Theorem fsmr_model_error (B : ndarray2) (N L : nat) (mesh_val w f : list R)
    (odc : R) (T : Z) :
  dict_shape B N L -> L <> 0%nat ->
  length mesh_val = N -> length w = N -> length f = L ->
  Forall (fun atom => 0 < atom_energy w atom) (rows B) ->
  0 <= odc <= 2 ->
  exists c m : list R,
    fsmr.fsmr mesh_val B w f odc T = Ok c /\ length c = L
    /\ np_dot (np_transpose B) c = Ok m /\ length m = N
    /\ weighted_energy w (zip_with Rminus mesh_val m)
       <= weighted_energy w mesh_val.
Proof.
  intros HB HL Hv Hw Hf Hpos Hodc. unfold fsmr.fsmr.
  destruct (np_dot_ok (np_square B) N L w (np_square_shape B N L HB) Hw)
    as (D & HD & HDlen).
  rewrite HD, bind_Ok.
  set (model := fun c : list R =>
         map (fun j => Rsum (zip_with Rmult
                               (map (fun row => nth j row 0) (rows B)) c))
             (seq 0 N)).
  destruct (iterate_ok
              (fun st => length (residual st) = N /\ length (coeffs st) = L
                         /\ residual st
                            = zip_with Rminus mesh_val (model (coeffs st))
                         /\ weighted_energy w (residual st)
                            <= weighted_energy w mesh_val)
              (fsmr_step B w f D odc) (Z.to_nat T)
              (mkState mesh_val (replicate (length (rows B)) 0)))
    as (st & E & Hres & Hco & Hmodel & Hen).
  - intros st (Hres & Hco & Hmodel & Hen).
    destruct (fsmr_step_spec B N L w f D odc st HB HL Hw Hf HD Hpos Hres Hco)
      as (idx & atom & ci & fi & Hatom & Hlen & Hci & Hfi & _ & Hstep).
    cbv zeta in Hstep.
    eexists. split; [exact Hstep|]. cbn [residual coeffs].
    assert (Hd : 0 < atom_energy w atom).
    { by apply (proj1 (Forall_lookup _ _) Hpos idx). }
    split; [rewrite length_zip_with, length_map; lia|].
    split; [by rewrite length_insert|]. split.
    + subst model. cbv beta.
      rewrite (model_insert B N L (coeffs st) atom idx ci) by done.
      rewrite <- zip_minus_assoc. by rewrite <- Hmodel.
    + rewrite energy_update by congruence.
      set (p := projection w atom (residual st)) in *.
      set (d := atom_energy w atom) in *.
      assert (Hq : 0 <= p * p / d).
      { apply Rdiv_ge_0; [done|]. nra. }
      replace (weighted_energy w (residual st) - 2 * (odc * (p / d)) * p
               + odc * (p / d) * (odc * (p / d)) * d)
        with (weighted_energy w (residual st)
              - odc * (2 - odc) * (p * p / d)) by (field; lra).
      assert (Hk : 0 <= odc * (2 - odc)) by nra.
      pose proof (Rmult_le_pos _ _ Hk Hq). lra.
  - cbn [residual coeffs]. destruct HB as (Hc & Hr & _).
    split; [done|]. split; [by rewrite length_replicate|]. split; [|lra].
    subst model. cbv beta.
    rewrite (map_ext _ (fun _ => 0)) by (intros j; apply Rsum_zip_zero).
    rewrite zip_minus_zero; [done|]. rewrite length_seq. lia.
  - rewrite E, bind_Ok. exists (coeffs st), (model (coeffs st)).
    split; [done|]. split; [done|].
    split; [by apply (np_dot_transpose B N L)|].
    split; [subst model; cbv beta; by rewrite length_map, length_seq|].
    by rewrite <- Hmodel.
Qed.

Lemma fsmr_model_error_witness :
  exists c m : list R,
    fsmr.fsmr [3] (mkArray2 1 [[2]]) [1] [1] (1/2) 4 = Ok c
    /\ length c = 1%nat
    /\ np_dot (np_transpose (mkArray2 1 [[2]])) c = Ok m /\ length m = 1%nat
    /\ weighted_energy [1] (zip_with Rminus [3] m) <= weighted_energy [1] [3].
Proof.
  apply (fsmr_model_error (mkArray2 1 [[2]]) 1 1 [3] [1] [1] (1/2) 4).
  - split; [reflexivity|]. split; [reflexivity|]. repeat constructor.
  - lia.
  - reflexivity.
  - reflexivity.
  - reflexivity.
  - repeat constructor. unfold atom_energy. cbn. unfold Rsqr. lra.
  - lra.
Defined.

(** *** The frequency weights *)

(** X23.  For a decay [sigma] in (0, 1], [dct_frequency_weighting]
    raises [ValueError] for a negative transform length and returns for
    [K >= 0] one weight per frequency pair, [K * K] in all; every weight
    lies in (0, 1]; and for [K >= 1] the first weight, that of the pair
    (0, 0), is 1. *)
Theorem frequency_weighting_range (K : Z) (sigma : R) :
  0 < sigma <= 1 ->
  ((K < 0)%Z ->
   dct_frequency_weighting K sigma
   = Raise (ValueError "negative dimensions are not allowed"))
  /\ ((0 <= K)%Z ->
      exists f : list R,
        dct_frequency_weighting K sigma = Ok f
        /\ length f = (Z.to_nat K * Z.to_nat K)%nat
        /\ Forall (fun u => 0 < u <= 1) f
        /\ ((1 <= K)%Z -> head f = Some 1)).
Proof.
  intros Hs. split.
  - intros HK. unfold dct_frequency_weighting.
    by rewrite mgrid_flat_negative.
  - intros HK. exists (frequency_weights K sigma).
    split; [by apply dct_frequency_weighting_ok|]. split; [|split].
    + by rewrite frequency_weights_length, grid_pairs_length.
    + unfold frequency_weights. apply Forall_fmap, Forall_forall.
      intros [k l] _. cbn [fst snd].
      destruct (frequency_weight_range sigma
                  (sqrt (IZR (k * k) + IZR (l * l))) Hs (sqrt_pos _))
        as [_ H1].
      split; [apply exp_pos|done].
    + intros HK1. destruct (grid_pairs_head K HK1) as (rest & E).
      unfold frequency_weights. rewrite E. cbn [map head fst snd].
      f_equal. apply frequency_weight_dc. lra.
Qed.

Lemma frequency_weighting_range_witness :
  ((2 < 0)%Z ->
   dct_frequency_weighting 2 (93/100)
   = Raise (ValueError "negative dimensions are not allowed"))
  /\ ((0 <= 2)%Z ->
      exists f : list R,
        dct_frequency_weighting 2 (93/100) = Ok f
        /\ length f = (Z.to_nat 2 * Z.to_nat 2)%nat
        /\ Forall (fun u => 0 < u <= 1) f
        /\ ((1 <= 2)%Z -> head f = Some 1)).
Proof. apply (frequency_weighting_range 2 (93/100)). lra. Defined.

End pursuit_facts.

(** ** Viewport rotation: what it does to the other directions *)

Section viewport_facts.

Import coordinate_conversion ViewportAdaptiveResampler.
#[local] Open Scope R_scope.

(** The angle of the second rotation, for a unit vector. *)
Lemma rotation_beta (x y z : R) :
  Rsqr x + Rsqr y + Rsqr z = 1 ->
  let rho := sqrt (Rsqr x + Rsqr y) in
  let beta := - arctan2 z (Rabs (- rho)) in
  cos beta = rho /\ sin beta = - z.
Proof.
  intros Hunit rho beta.
  assert (Hrho0 : 0 <= rho) by apply sqrt_pos.
  assert (Hrho2 : Rsqr rho = Rsqr x + Rsqr y).
  { unfold Rsqr at 1. apply sqrt_sqrt. unfold Rsqr. nra. }
  assert (Hone : Rsqr rho + Rsqr z = 1) by lra.
  assert (Hne : rho <> 0 \/ z <> 0).
  { destruct (Req_dec z 0) as [->|]; [left|by right].
    rewrite Rsqr_0 in Hone. unfold Rsqr in Hone. nra. }
  destruct (cos_sin_arctan2 z rho Hne) as [Hc Hs].
  rewrite Hone, sqrt_1, Rdiv_1_r in Hc, Hs.
  subst beta. rewrite cos_neg, sin_neg, Rabs_Ropp, Rabs_pos_eq by done.
  by rewrite Hc, Hs.
Qed.

(** The first row of the rotation matrix of a unit vector is the opposite
    of that vector. *)
Lemma rotation_first_row (x y z : R) :
  Rsqr x + Rsqr y + Rsqr z = 1 ->
  (_rotation_matrix x y z).1.1 = (- x, - y, - z).
Proof.
  intros Hunit. unfold _rotation_matrix. cbv zeta.
  pose proof (rotation_z_aligns x y z) as Hz. cbv zeta in Hz.
  rewrite Hz. cbn [fst snd].
  destruct (rotation_beta x y z Hunit) as [Ec Es]. cbv zeta in Ec, Es.
  rewrite Ec, Es.
  destruct (cos_sin_PI_minus (arctan2 y x)) as [-> ->].
  unfold mat_mul, col, dot3, CubemapProjection.tuple_get. cbn [fst snd].
  assert (Hcases : (x <> 0 \/ y <> 0) \/ (x = 0 /\ y = 0)).
  { destruct (Req_dec x 0); destruct (Req_dec y 0); tauto. }
  destruct Hcases as [Hne|[-> ->]].
  - destruct (cos_sin_arctan2 y x Hne) as [-> ->].
    pose proof (sqrt_sum_sqr_pos x y Hne) as Hrho.
    tuple_eq; field; lra.
  - rewrite Rsqr_0, Rplus_0_l, sqrt_0. tuple_eq; ring.
Qed.

(** The rotation matrix of any vector is orthogonal. *)
Lemma rotation_orthogonal (x y z : R) :
  let m := _rotation_matrix x y z in
  mat_mul m (transpose m) = identity /\ mat_mul (transpose m) m = identity.
Proof.
  unfold _rotation_matrix. cbv zeta.
  set (gamma := PI - arctan2 y x).
  set (beta := - arctan2 _ _).
  apply (rotation_yz_orthogonal (cos gamma) (sin gamma) (cos beta) (sin beta)
           (sin2_cos2 gamma) (sin2_cos2 beta)).
Qed.

(** An orthogonal matrix keeps the squared length. *)
Lemma orthogonal_norm (m : mat3) (v : vec3) :
  mat_mul (transpose m) m = identity ->
  Rsqr (mat_vec m v).1.1 + Rsqr (mat_vec m v).1.2 + Rsqr (mat_vec m v).2
  = Rsqr v.1.1 + Rsqr v.1.2 + Rsqr v.2.
Proof.
  destruct m as [[[[a11 a12] a13] [[a21 a22] a23]] [[a31 a32] a33]].
  destruct v as [[v1 v2] v3].
  unfold mat_mul, transpose, col, dot3, identity, mat_vec,
    CubemapProjection.tuple_get.
  cbn [fst snd]. intros H.
  injection H as H11 H12 H13 H21 H22 H23 H31 H32 H33.
  unfold Rsqr, dot3. cbn [fst snd].
  match goal with
  | |- ?lhs = _ =>
      replace lhs
        with (v1 * v1 * (a11 * a11 + a21 * a21 + a31 * a31)
              + v2 * v2 * (a12 * a12 + a22 * a22 + a32 * a32)
              + v3 * v3 * (a13 * a13 + a23 * a23 + a33 * a33)
              + 2 * v1 * v2 * (a11 * a12 + a21 * a22 + a31 * a32)
              + 2 * v1 * v3 * (a11 * a13 + a21 * a23 + a31 * a33)
              + 2 * v2 * v3 * (a12 * a13 + a22 * a23 + a32 * a33)) by ring
  end.
  rewrite H11, H12, H13, H22, H23, H33. ring.
Qed.

(** X24.  Viewport rotation for a unit block centre [c]: the first
    component of every rotated direction [v] is minus the inner product of
    [c] and [v], so that [arccos(-s_r[0])] is the angle between the
    direction and the block centre; and the rotation keeps the length of
    [v]. *)
Theorem rotation_incidence (x y z : R) (v : vec3) :
  Rsqr x + Rsqr y + Rsqr z = 1 ->
  let r := mat_vec (_rotation_matrix x y z) v in
  r.1.1 = - dot3 (x, y, z) v
  /\ Rsqr r.1.1 + Rsqr r.1.2 + Rsqr r.2 = Rsqr v.1.1 + Rsqr v.1.2 + Rsqr v.2.
Proof.
  intros Hunit r. split.
  - subst r. unfold mat_vec. cbn [fst snd].
    rewrite (rotation_first_row x y z Hunit).
    unfold dot3. cbn [fst snd]. ring.
  - subst r. apply orthogonal_norm.
    by destruct (rotation_orthogonal x y z) as [_ H].
Qed.

Lemma rotation_incidence_witness :
  let r := mat_vec (_rotation_matrix 0 0 1) (1, 2, 3) in
  r.1.1 = - dot3 (0, 0, 1) (1, 2, 3)
  /\ Rsqr r.1.1 + Rsqr r.1.2 + Rsqr r.2
     = Rsqr (1, 2, 3).1.1 + Rsqr (1, 2, 3).1.2 + Rsqr (1, 2, 3).2.
Proof.
  apply (rotation_incidence 0 0 1 (1, 2, 3)). unfold Rsqr. lra.
Defined.

(** The rotation brings the unit vector it was built from to
    [(-1, 0, 0)]. *)
Lemma rotation_centre (x y z : R) :
  Rsqr x + Rsqr y + Rsqr z = 1 ->
  mat_vec (_rotation_matrix x y z) (x, y, z) = (-1, 0, 0).
Proof.
  intros Hunit.
  pose proof (rotation_first_row x y z Hunit) as Hrow.
  destruct (rotation_orthogonal x y z) as [Ho _]. cbv zeta in Ho.
  destruct (_rotation_matrix x y z)
    as [[[[a11 a12] a13] [[a21 a22] a23]] [[a31 a32] a33]].
  cbn [fst snd] in Hrow. injection Hrow as -> -> ->.
  unfold mat_mul, transpose, col, dot3, identity,
    CubemapProjection.tuple_get in Ho.
  cbn [fst snd] in Ho.
  injection Ho as H11 H12 H13 H21 H22 H23 H31 H32 H33.
  unfold mat_vec, dot3. cbn [fst snd]. unfold Rsqr in Hunit.
  tuple_eq; lra.
Qed.

(** X25.  The block centre lands on the optical axis: the perspective
    projection of the rotated unit block centre is the optical centre, with
    the behind-camera flag [False]. *)
Theorem block_centre_on_axis (p : PerspectiveProjection.t) (x y z : R) :
  Rsqr x + Rsqr y + Rsqr z = 1 ->
  let '(xs, ys, zs) := mat_vec (_rotation_matrix x y z) (x, y, z) in
  PerspectiveProjection.from_sphere p xs ys zs
  = ((PerspectiveProjection.optical_center p).1,
     (PerspectiveProjection.optical_center p).2, false).
Proof.
  intros Hunit. rewrite (rotation_centre x y z Hunit).
  unfold PerspectiveProjection.from_sphere, cartesian_to_spherical,
    polar_to_cartesian, PerspectiveProjection.radius.
  replace (- -1) with 1 by ring.
  rewrite Ropp_0, Rsqr_0, Rsqr_1, !Rplus_0_l, sqrt_1, Rdiv_1_r, acos_1, tan_0.
  rewrite Rmult_0_r, !Rmult_0_l, !Rplus_0_l.
  rewrite bool_decide_eq_false_2 by lra. done.
Qed.

Lemma block_centre_on_axis_witness :
  let '(xs, ys, zs) := mat_vec (_rotation_matrix 0 0 1) (0, 0, 1) in
  PerspectiveProjection.from_sphere (PerspectiveProjection.mk 2 (0, 0)) xs ys zs
  = ((PerspectiveProjection.optical_center
        (PerspectiveProjection.mk 2 (0, 0))).1,
     (PerspectiveProjection.optical_center
        (PerspectiveProjection.mk 2 (0, 0))).2, false).
Proof.
  apply (block_centre_on_axis (PerspectiveProjection.mk 2 (0, 0)) 0 0 1).
  unfold Rsqr. lra.
Defined.

End viewport_facts.

(** ** The resampler: blocks and tiling *)

Section resampler_facts.

Import coordinate_conversion ViewportAdaptiveResampler Resampler.
#[local] Open Scope R_scope.

Lemma bind_row_length {A : Type} (f : nat -> A) (s : list nat) :
  length (c ← s; [f c]) = length s.
Proof. induction s as [|c s IH]; [done|]. cbn. by rewrite IH. Qed.

Lemma bind_grid_length {A : Type} (f : nat -> nat -> A) (l s : list nat) :
  length (r ← l; c ← s; [f r c]) = (length l * length s)%nat.
Proof.
  induction l as [|r l IH]; [done|].
  cbn. rewrite length_app, bind_row_length. cbn in IH. by rewrite IH.
Qed.

Lemma flatten_length {A : Type} (g : grid A) :
  length (flatten g) = (gh g * gw g)%nat.
Proof. unfold flatten. by rewrite bind_grid_length, !length_seq. Qed.

Lemma bind_row_map {A B : Type} (f : A -> B) (h : nat -> A) (s : list nat) :
  (c ← s; [f (h c)]) = map f (c ← s; [h c]).
Proof. induction s as [|c s IH]; [reflexivity|]. cbn. f_equal. exact IH. Qed.

Lemma flatten_grid_map {A B : Type} (f : A -> B) (g : grid A) :
  flatten (grid_map f g) = map f (flatten g).
Proof.
  unfold flatten, grid_map. cbn [gh gw cell].
  induction (seq 0 (gh g)) as [|r l IH]; [reflexivity|].
  cbn. rewrite map_app. cbn in IH. rewrite IH. f_equal.
  apply (bind_row_map f (cell g r)).
Qed.

Lemma np_select_map {A B : Type} (f : A -> B) (mask : list bool)
    (l : list A) :
  np_select mask (map f l) = map f (np_select mask l).
Proof.
  revert l. induction mask as [|b mask IH]; intros [|a l]; try done.
  cbn. destruct b; cbn; by rewrite IH.
Qed.

Lemma np_select_filter {A : Type} (f : A -> bool) (l : list A) :
  Forall (fun a => In a l /\ f a = true) (np_select (map f l) l).
Proof.
  induction l as [|a l IH]; [constructor|].
  cbn. destruct (f a) eqn:E.
  - constructor; [split; [by left|done]|].
    eapply Forall_impl; [exact IH|]. cbn. intros x [? ?]. split; [by right|done].
  - eapply Forall_impl; [exact IH|]. cbn. intros x [? ?]. split; [by right|done].
Qed.

(** An angle below a right angle has a positive cosine. *)
Lemma arccos_front (x mt : R) :
  np_lt (np_arccos (- x)) (Some mt) = true -> mt <= PI / 2 -> x < 0.
Proof.
  unfold np_lt, np_arccos. case_decide as Hdom; [|done].
  rewrite bool_decide_eq_true. intros Hlt Hmt.
  pose proof (acos_bound (- x)) as [Hlo _].
  assert (Hc : 0 < cos (acos (- x))) by (apply cos_gt_0; lra).
  rewrite cos_acos in Hc by lra. lra.
Qed.

Lemma reshape_square_shape (vals : list R) (n : Z) (b : grid R) :
  reshape_square vals n = Ok b ->
  (0 <= n)%Z /\ gh b = Z.to_nat n /\ gw b = Z.to_nat n.
Proof.
  unfold reshape_square. repeat case_decide; try done.
  intros [= <-]. cbn. repeat split; lia.
Qed.

(** What a returned block went through. *)
Lemma resample_block_inv (self : t) (i j : Z) (image_src b : grid R) :
  _resample_block self i j image_src = Ok b ->
  exists (c : vec3) (src : list vec3) (vals out : list R) (tar : list (R * R)),
    let bs := _blocksize self in
    let rot := mat_vec (_rotation_matrix c.1.1 c.1.2 c.2) in
    _projection_tar self ((IZR i + 0.5) * IZR bs - 0.5)
      ((IZR j + 0.5) * IZR bs - 0.5) = Ok c
    /\ _mesh_to_mesh_resampler self
         (map (plane_point (_projection_perspective self)) (map rot src))
         vals tar = Ok out
    /\ length vals = length src
    /\ Forall (fun v => In v (flatten (_s_src_o self)) /\ (rot v).1.1 < 0) src
    /\ reshape_square out bs = Ok b.
Proof.
  unfold _resample_block. cbv zeta. intros H.
  destruct (_projection_tar self _ _) as [c|e] eqn:Ec; [|done].
  rewrite bind_Ok in H.
  destruct (np_max _) as [m|e] eqn:Em; [|done].
  rewrite bind_Ok in H.
  destruct (np_lt (Some (PI / 2)) _) eqn:Elt; [done|].
  case_decide as Hshape; [done|].
  set (rot := mat_vec (_rotation_matrix c.1.1 c.1.2 c.2)) in *.
  set (max_theta := (fun a => _incident_angle_factor self * a) <$> m) in *.
  rewrite !flatten_grid_map in H.
  set (l := flatten (_s_src_o self)) in *.
  rewrite np_select_map in H.
  set (mask := map (fun th : np_float => np_lt th max_theta) _) in *.
  match type of H with
  | context [_mesh_to_mesh_resampler self ?pa ?pv ?pt] =>
      destruct (_mesh_to_mesh_resampler self pa pv pt) as [out|e] eqn:Er;
        [|done];
      exists c, (np_select mask l), pv, out, pt
  end.
  rewrite bind_Ok in H. cbv zeta. fold rot.
  split; [done|]. split; [exact Er|]. split.
  - unfold shape in Hshape. cbn [grid_map gh gw] in Hshape.
    injection Hshape as Hh Hw.
    rewrite (np_select_length mask (flatten image_src)),
      (np_select_length mask l); [done| |].
    + subst mask. by rewrite !length_map.
    + subst mask l. rewrite !length_map, !flatten_length. lia.
  - split; [|done].
    assert (Hmask : mask
                    = map (fun v : vec3 =>
                             np_lt (np_arccos (- (rot v).1.1)) max_theta) l).
    { subst mask. by rewrite !map_map. }
    rewrite Hmask.
    pose proof (np_select_filter
                  (fun v : vec3 =>
                     np_lt (np_arccos (- (rot v).1.1)) max_theta) l) as Hf.
    eapply Forall_impl; [exact Hf|]. cbn. intros v [Hin Hv].
    split; [done|].
    destruct max_theta as [mt|] eqn:Emt.
    + apply (arccos_front _ mt); [done|].
      unfold np_lt in Elt. apply bool_decide_eq_false in Elt. lra.
    + unfold np_lt in Hv. by destruct (np_arccos _).
Qed.

(** X26.  A block that [_resample_block] returns has the shape
    [(blocksize, blocksize)]; it holds the values that the mesh-to-mesh
    resampler returned; the resampler was given as many source values as
    source positions; and every source direction it was given lies, after
    the viewport rotation, strictly in front of the camera (first component
    negative). *)
Theorem resample_block_front (self : t) (i j : Z) (image_src b : grid R) :
  _resample_block self i j image_src = Ok b ->
  exists (c : vec3) (src : list vec3) (vals out : list R) (tar : list (R * R)),
    let bs := _blocksize self in
    let rot := mat_vec (_rotation_matrix c.1.1 c.1.2 c.2) in
    _projection_tar self ((IZR i + 0.5) * IZR bs - 0.5)
      ((IZR j + 0.5) * IZR bs - 0.5) = Ok c
    /\ _mesh_to_mesh_resampler self
         (map (plane_point (_projection_perspective self)) (map rot src))
         vals tar = Ok out
    /\ length vals = length src
    /\ Forall (fun v => In v (flatten (_s_src_o self)) /\ (rot v).1.1 < 0) src
    /\ reshape_square out bs = Ok b
    /\ shape b = (bs, bs).
Proof.
  intros H.
  destruct (resample_block_inv self i j image_src b H)
    as (c & src & vals & out & tar & Hc & Hr & Hlen & Hfront & Hb).
  exists c, src, vals, out, tar. cbv zeta.
  repeat (split; [done|]).
  destruct (reshape_square_shape out (_blocksize self) b Hb) as (Hn & Hh & Hw).
  unfold shape. rewrite Hh, Hw. f_equal; lia.
Qed.

(** The block of the example. *)
Lemma example_block :
  _resample_block example 0 0 example_image
  = Ok (mkGrid (Z.to_nat 1) (Z.to_nat 1)
          (fun r c => nth (r * Z.to_nat 1 + c) [0] 0)).
Proof.
  unfold _resample_block. cbv zeta.
  cbn [example _projection_tar _blocksize _s_tar_o _s_src_o
       _incident_angle_factor _mesh_to_mesh_resampler
       _projection_perspective].
  rewrite bind_Ok. cbn [fst snd].
  assert (Hunit : Rsqr 0 + Rsqr 0 + Rsqr 1 = 1) by (unfold Rsqr; lra).
  pose proof (rotation_first_row 0 0 1 Hunit) as Hrow.
  set (m := _rotation_matrix 0 0 1) in *.
  assert (Hblk : @flatten vec3 (@slice2 vec3 (@mkGrid (R * R * R) 1 1 (fun _ _ => (0, 1, 0)))
                            (0 * 1) ((0 + 1) * 1) (0 * 1) ((0 + 1) * 1))
                 = [(0, 1, 0)]) by reflexivity.
  assert (Hsrc : @flatten vec3 (@mkGrid (R * R * R) 1 1 (fun _ _ => (0, 0, 1)))
                 = [(0, 0, 1)]) by reflexivity.
  assert (Himg : flatten example_image = [5]) by reflexivity.
  assert (E1 : (mat_vec m (0, 1, 0)).1.1 = 0).
  { unfold mat_vec. cbn [fst snd]. rewrite Hrow. unfold dot3. cbn. ring. }
  assert (A1 : np_arccos (- 0) = Some (PI / 2)).
  { unfold np_arccos. rewrite decide_True by lra. by rewrite Ropp_0, acos_0. }
  pose proof PI_RGT_0 as Hpi.
  assert (L1 : np_lt (Some (PI / 2)) (Some (1 * (PI / 2))) = false).
  { unfold np_lt. apply bool_decide_eq_false. lra. }
  rewrite !flatten_grid_map, Hblk. cbn [map]. rewrite E1, A1.
  cbn [np_max foldl]. rewrite bind_Ok.
  cbn [fmap option_fmap option_map]. rewrite L1.
  rewrite decide_False by (intros Hne; by apply Hne).
  rewrite ?flatten_grid_map, ?Hblk, ?Hsrc, ?Himg. cbn [map].
  rewrite bind_Ok. reflexivity.
Qed.

Lemma resample_block_front_witness :
  exists (c : vec3) (src : list vec3) (vals out : list R) (tar : list (R * R)),
    let bs := _blocksize example in
    let rot := mat_vec (_rotation_matrix c.1.1 c.1.2 c.2) in
    _projection_tar example ((IZR 0 + 0.5) * IZR bs - 0.5)
      ((IZR 0 + 0.5) * IZR bs - 0.5) = Ok c
    /\ _mesh_to_mesh_resampler example
         (map (plane_point (_projection_perspective example)) (map rot src))
         vals tar = Ok out
    /\ length vals = length src
    /\ Forall (fun v => In v (flatten (_s_src_o example)) /\ (rot v).1.1 < 0)
         src
    /\ reshape_square out bs
       = Ok (mkGrid (Z.to_nat 1) (Z.to_nat 1)
               (fun r c => nth (r * Z.to_nat 1 + c) [0] 0))
    /\ shape (mkGrid (Z.to_nat 1) (Z.to_nat 1)
                (fun r c => nth (r * Z.to_nat 1 + c) [0] 0)) = (bs, bs).
Proof.
  apply (resample_block_front example 0 0 example_image). exact example_block.
Defined.

(** *** The loop of [resample] *)

Lemma for_range_inv {S : Type} (P : nat -> S -> Prop)
    (body : nat -> S -> result S) (n : nat) (s s' : S) :
  P 0%nat s ->
  (forall (k : nat) (s1 s2 : S),
     (k < n)%nat -> P k s1 -> body k s1 = Ok s2 -> P (Datatypes.S k) s2) ->
  for_range n body s = Ok s' -> P n s'.
Proof.
  intros H0 Hstep. revert s'. induction n as [|n IH]; intros s' Hrun.
  - cbn in Hrun. by injection Hrun as <-.
  - cbn [for_range] in Hrun.
    destruct (for_range n body s) as [s1|e] eqn:E; [|done].
    rewrite bind_Ok in Hrun.
    apply (Hstep n s1 s'); [lia| |done].
    apply IH; [|done]. intros k s2 s3 Hk. apply Hstep. lia.
Qed.

(** The slice of block [k] on an axis that holds at least [k + 1] blocks
    of length [n]. *)
Lemma block_slice (len k n : nat) :
  ((k + 1) * n <= len)%nat ->
  slice_bounds len (Z.of_nat k * Z.of_nat n) ((Z.of_nat k + 1) * Z.of_nat n)
  = ((k * n)%nat, n).
Proof.
  intros Hle. unfold slice_bounds, slice_index.
  rewrite !decide_False by nia.
  rewrite !Z.min_l by nia. f_equal; nia.
Qed.

(** Writing a block of the right shape. *)
Lemma set_block (g b : grid R) (i j n : nat) :
  gh b = n -> gw b = n ->
  ((i + 1) * n <= gh g)%nat -> ((j + 1) * n <= gw g)%nat ->
  set_slice2 g (Z.of_nat i * Z.of_nat n) ((Z.of_nat i + 1) * Z.of_nat n)
    (Z.of_nat j * Z.of_nat n) ((Z.of_nat j + 1) * Z.of_nat n) b
  = Ok (mkGrid (gh g) (gw g)
          (fun r c =>
             if decide ((i * n <= r < i * n + n)%nat
                        /\ (j * n <= c < j * n + n)%nat)
             then cell b (r - i * n) (c - j * n)
             else cell g r c)).
Proof.
  intros Hh Hw Hi Hj. unfold set_slice2.
  rewrite !block_slice by done. cbn [fst snd].
  rewrite decide_True by (split; by left).
  destruct (decide (gh b = n)); [|done].
  by destruct (decide (gw b = n)).
Qed.

(** X27.  When the configuration check has passed and the block size is
    positive, the image that [resample] returns has the target size, and
    each of its pixels [(r, c)] holds entry [(r mod blocksize,
    c mod blocksize)] of the block that [_resample_block] returns for the
    block indices [(r / blocksize, c / blocksize)]: no pixel keeps the
    content of the fresh array. *)
Theorem resample_tiles (empty : nat -> nat -> R) (self : t)
    (image_src out : grid R) :
  _check_config (_size_tar self) (_blocksize self) = Ok tt ->
  (0 < _blocksize self)%Z ->
  resample empty self image_src = Ok out ->
  shape out = _size_tar self
  /\ forall r c : nat,
       (r < gh out)%nat -> (c < gw out)%nat ->
       let n := Z.to_nat (_blocksize self) in
       exists b : grid R,
         _resample_block self (Z.of_nat (r / n)) (Z.of_nat (c / n)) image_src
         = Ok b
         /\ cell out r c = cell b (r mod n) (c mod n).
Proof.
  intros Hcfg Hbs Hrun.
  unfold _check_config in Hcfg.
  destruct (decide (_blocksize self = 0)%Z) as [Hz|_]; [lia|].
  case_decide as Hdiv; [done|]. clear Hcfg.
  unfold resample in Hrun. case_decide as Hshape; [done|].
  cbv zeta in Hrun. unfold floordiv, np_empty in Hrun.
  destruct (decide (_blocksize self = 0)%Z) as [Hz|_]; [lia|].
  rewrite !bind_Ok in Hrun.
  case_decide as Hneg; [done|]. rewrite bind_Ok in Hrun.
  destruct (_size_tar self) as [H W] eqn:Esize. cbn [fst snd] in *.
  set (bs := _blocksize self) in *.
  set (n := Z.to_nat bs).
  assert (Hn : (0 < n)%nat) by lia.
  assert (Ebs : bs = Z.of_nat n) by lia.
  assert (HH : (H mod bs = 0)%Z) by lia.
  assert (HW : (W mod bs = 0)%Z) by lia.
  set (h := Z.to_nat H). set (w := Z.to_nat W).
  set (bi := Z.to_nat (H / bs)). set (bj := Z.to_nat (W / bs)).
  assert (Hbi : (bi * n = h)%nat).
  { pose proof (Z.div_mod H bs ltac:(lia)).
    assert (0 <= H / bs)%Z by (apply Z.div_pos; lia). subst bi h n. nia. }
  assert (Hbj : (bj * n = w)%nat).
  { pose proof (Z.div_mod W bs ltac:(lia)).
    assert (0 <= W / bs)%Z by (apply Z.div_pos; lia). subst bj w n. nia. }
  fold h w bi bj in Hrun.
  set (covered := fun (g : grid R) (r c : nat) =>
         exists b : grid R,
           _resample_block self (Z.of_nat (r / n)) (Z.of_nat (c / n)) image_src
           = Ok b
           /\ cell g r c = cell b (r mod n) (c mod n)).
  enough (Hout : gh out = h /\ gw out = w
                 /\ forall r c : nat,
                      (r < bi * n)%nat -> (c < w)%nat -> covered out r c).
  { destruct Hout as (Hh & Hw & Hcov). split.
    - unfold shape. rewrite Hh, Hw. subst h w. f_equal; lia.
    - intros r c Hr Hc. apply Hcov; lia. }
  revert Hrun.
  apply (for_range_inv
           (fun k g => gh g = h /\ gw g = w
                       /\ forall r c : nat,
                            (r < k * n)%nat -> (c < w)%nat -> covered g r c)).
  { cbn [gh gw]. split; [done|]. split; [done|]. intros r c Hr. lia. }
  intros i g1 g2 Hi (Hh1 & Hw1 & Hcov1) Hinner.
  set (band := fun (k r c : nat) =>
         (i * n <= r < i * n + n)%nat /\ (c < k * n)%nat).
  set (Pin := fun (k : nat) (g : grid R) =>
         gh g = h /\ gw g = w
         /\ forall r c : nat,
              (c < w)%nat ->
              (band k r c -> covered g r c)
              /\ (~ band k r c -> cell g r c = cell g1 r c)).
  assert (Hrow : Pin bj g2).
  { revert Hinner. apply (for_range_inv Pin).
    - split; [done|]. split; [done|]. intros r c Hc. unfold band.
      split; [lia|done].
    - intros j g3 g4 Hj (Hh3 & Hw3 & Hcov3) Hbody.
      destruct (_resample_block self (Z.of_nat i) (Z.of_nat j) image_src)
        as [b|e] eqn:Eb; [|done].
      rewrite bind_Ok in Hbody.
      destruct (resample_block_inv self _ _ _ _ Eb)
        as (_ & _ & _ & vals & _ & _ & _ & _ & _ & Hre).
      destruct (reshape_square_shape _ _ _ Hre) as (_ & Hbh & Hbw).
      fold bs n in Hbh, Hbw.
      rewrite Ebs in Hbody.
      rewrite (set_block g3 b i j n) in Hbody by (try done; nia).
      injection Hbody as <-. unfold Pin. cbn [gh gw cell].
      split; [done|]. split; [done|]. intros r c Hc.
      destruct (Hcov3 r c Hc) as [Hcov Hkeep]. unfold band in *.
      destruct (decide ((i * n <= r < i * n + n)%nat
                        /\ (j * n <= c < j * n + n)%nat)) as [[Hr Hcj]|Hout].
      + split; [|lia]. intros _. exists b.
        assert (Er : (r / n = i)%nat).
        { symmetry. apply (Nat.div_unique r n i (r - i * n)); lia. }
        assert (Ec : (c / n = j)%nat).
        { symmetry. apply (Nat.div_unique c n j (c - j * n)); lia. }
        assert (Emr : (r mod n = r - i * n)%nat).
        { symmetry. apply (Nat.mod_unique r n i (r - i * n)); lia. }
        assert (Emc : (c mod n = c - j * n)%nat).
        { symmetry. apply (Nat.mod_unique c n j (c - j * n)); lia. }
        rewrite Er, Ec, Emr, Emc. split; [done|].
        cbn [cell]. by rewrite ?decide_True by done.
      + split.
        * intros Hb. destruct (Hcov ltac:(lia)) as (b' & Hb' & Hcell).
          exists b'. split; [done|].
          cbn [cell]. by rewrite ?decide_False by done.
        * intros Hnb. cbn [cell]. rewrite ?decide_False by done.
          apply Hkeep. lia. }
  destruct Hrow as (Hh2 & Hw2 & Hcov2).
  split; [done|]. split; [done|]. intros r c Hr Hc.
  destruct (Hcov2 r c Hc) as [Hcov Hkeep]. unfold band in *.
  destruct (decide ((i * n <= r < i * n + n)%nat /\ (c < bj * n)%nat))
    as [Hin|Hnin].
  - by apply Hcov.
  - destruct (Hcov1 r c ltac:(lia) Hc) as (b & Hb & Hcell).
    exists b. split; [done|]. by rewrite Hkeep.
Qed.

(** The example runs through. *)
Lemma example_resample :
  exists out : grid R,
    resample (fun _ _ => 0) example example_image = Ok out.
Proof.
  unfold resample, floordiv, np_empty.
  cbn [example _size_src _size_tar _blocksize fst snd].
  destruct (decide (shape example_image <> (1, 1)%Z)) as [Hne|_];
    [exfalso; by apply Hne|].
  destruct (decide (1 = 0)%Z) as [|_]; [done|]. rewrite !bind_Ok.
  destruct (decide ((1 < 0)%Z \/ (1 < 0)%Z)) as [[?|?]|_]; [lia|lia|].
  rewrite bind_Ok.
  change (Z.to_nat (1 / 1)) with 1%nat. cbn [for_range].
  rewrite !bind_Ok. change (Z.of_nat 0) with 0%Z.
  rewrite example_block, bind_Ok.
  unfold set_slice2.
  change (slice_bounds _ (0 * 1) ((0 + 1) * 1)) with (0%nat, 1%nat).
  cbn [fst snd gh gw].
  rewrite decide_True by (split; by left).
  by eexists.
Qed.

Lemma resample_tiles_witness :
  exists out : grid R,
    resample (fun _ _ => 0) example example_image = Ok out
    /\ shape out = _size_tar example
    /\ forall r c : nat,
         (r < gh out)%nat -> (c < gw out)%nat ->
         let n := Z.to_nat (_blocksize example) in
         exists b : grid R,
           _resample_block example (Z.of_nat (r / n)) (Z.of_nat (c / n))
             example_image = Ok b
           /\ cell out r c = cell b (r mod n) (c mod n).
Proof.
  destruct example_resample as [out Hout]. exists out. split; [exact Hout|].
  apply (resample_tiles (fun _ _ => 0) example example_image out).
  - reflexivity.
  - cbn. lia.
  - exact Hout.
Defined.

(** X28.  A negative block size that divides both sides of the target
    size passes the configuration check, and [resample] then resamples no
    block: it returns the fresh array as it was allocated. *)
Theorem resample_negative_blocksize (empty : nat -> nat -> R) (self : t)
    (image_src : grid R) :
  (_blocksize self < 0)%Z ->
  (0 <= (_size_tar self).1)%Z -> (0 <= (_size_tar self).2)%Z ->
  ((_size_tar self).1 mod _blocksize self = 0)%Z ->
  ((_size_tar self).2 mod _blocksize self = 0)%Z ->
  shape image_src = _size_src self ->
  _check_config (_size_tar self) (_blocksize self) = Ok tt
  /\ resample empty self image_src
     = Ok (mkGrid (Z.to_nat (_size_tar self).1) (Z.to_nat (_size_tar self).2)
             empty).
Proof.
  intros Hbs HH HW HmH HmW Hshape. split.
  - unfold _check_config.
    destruct (decide (_blocksize self = 0)%Z); [lia|].
    by rewrite decide_False by lia.
  - unfold resample, floordiv, np_empty.
    rewrite decide_False by (intros Hne; by apply Hne).
    cbv zeta.
    destruct (decide (_blocksize self = 0)%Z); [lia|]. rewrite !bind_Ok.
    destruct (decide (((_size_tar self).1 < 0)%Z \/ ((_size_tar self).2 < 0)%Z))
      as [[?|?]|_]; [lia|lia|].
    rewrite bind_Ok.
    assert (E : Z.to_nat ((_size_tar self).1 / _blocksize self) = 0%nat).
    { pose proof (Z.div_mod (_size_tar self).1 (_blocksize self) ltac:(lia)).
      assert ((_size_tar self).1 / _blocksize self <= 0)%Z; [nia|lia]. }
    by rewrite E.
Qed.

Lemma resample_negative_blocksize_witness :
  _check_config (_size_tar (mk (1, 1)%Z (8, 8)%Z (_projection_tar example)
                              (_mesh_to_mesh_resampler example) (-8)%Z 1
                              (_s_src_o example) (_s_tar_o example)
                              (_projection_perspective example)))
    (-8)%Z = Ok tt
  /\ resample (fun _ _ => 0)
       (mk (1, 1)%Z (8, 8)%Z (_projection_tar example)
          (_mesh_to_mesh_resampler example) (-8)%Z 1
          (_s_src_o example) (_s_tar_o example)
          (_projection_perspective example))
       example_image
     = Ok (mkGrid (Z.to_nat 8) (Z.to_nat 8) (fun _ _ => 0)).
Proof.
  apply (resample_negative_blocksize (fun _ _ => 0)
           (mk (1, 1)%Z (8, 8)%Z (_projection_tar example)
              (_mesh_to_mesh_resampler example) (-8)%Z 1
              (_s_src_o example) (_s_tar_o example)
              (_projection_perspective example))
           example_image).
  - cbn. lia.
  - cbn. lia.
  - cbn. lia.
  - reflexivity.
  - reflexivity.
  - reflexivity.
Defined.

(** X29.  The cubemap size that [cmp_size] computes for a block size [B]
    passes the configuration check of the resampler for every block size
    that divides [B]. *)
Theorem check_config_cmp_size (H W B blocksize : Z) :
  (0 < H)%Z -> (0 < W)%Z -> (0 < B)%Z ->
  blocksize <> 0%Z -> (blocksize | B)%Z ->
  _check_config (Misc.cmp_size (H, W) B) blocksize = Ok tt.
Proof.
  intros HH HW HB Hbs [q Hq].
  rewrite cmp_size_round by done.
  set (v := Zfloor _). unfold _check_config. cbn [fst snd].
  rewrite decide_False by done.
  assert (HF : exists k : Z,
            Misc.round_to_multiple v B = (k * blocksize)%Z).
  { unfold Misc.round_to_multiple.
    destruct (2 * (v mod B) <? B)%Z;
      [exists (q * (v / B + 1))%Z|exists (q * (v / B))%Z];
      rewrite Hq at 1; ring. }
  destruct HF as [k ->].
  rewrite decide_False; [done|].
  intros [Hn|Hn]; apply Hn; rewrite Z.mul_assoc; by apply Z.mod_mul.
Qed.

Lemma check_config_cmp_size_witness :
  _check_config (Misc.cmp_size (1024, 2048)%Z 32) 8 = Ok tt.
Proof.
  apply (check_config_cmp_size 1024 2048 32 8); try lia.
  exists 4%Z. lia.
Defined.

End resampler_facts.
